(** * ZKnight proving worker: circuit-input normalisation, proving-key cache
      and message handler ([prove.worker.js]).

    The development embeds the three functions of the worker:
    - [buildCircuitInput], the normaliser that pads a puzzle to the fixed
      shape of the circuit's signals;
    - [fetchZkeyBytes], the proving-key retrieval through the Cache API;
    - [onmessage], the handler that runs both and the prover and posts the
      response.

    Conventions of the embedding.
    - JavaScript numbers are the integers of the data model ([Z]);
      [js_String] is their decimal form, which is what [String(n)] yields
      for an integer below 10^21 in magnitude.
    - A property that may be missing is an [option]; [None] is [undefined].
      The arrays of a puzzle hold coordinate objects and barrel objects, as
      the contract delivers them: an array with a hole, or a move history
      that is not an array, is outside the data model.
    - A thrown value is an Error-like object with a [name] and a string
      [message] (what [new Error], the engine's [TypeError] and the
      platform's [DOMException] all are; the message is empty when the
      object has none), or else [undefined] or [null], which any promise may
      reject with and on which a property read throws in its turn.
    - The texts of the engine's own [TypeError]s are V8's.
    - The pair [[a, b]] of two strings the circuit takes for a coordinate is
      a Rocq pair.
    - The worker is followed through one message at a time: every awaited
      call settles, and no other message is taken up while one waits. *)

From stdpp Require Import gmap strings list pretty.

(** ** JavaScript values and completions *)

(** What [throw] is given, or a promise rejects with. *)
Inductive exn : Type :=
  | mk_exn (exn_name exn_message : string)
  | thrown_undefined
  | thrown_null.

Definition TypeError (msg : string) : exn := mk_exn "TypeError" msg.
Definition Error (msg : string) : exn := mk_exn "Error" msg.

(** The engine's message for a property read on [undefined] or [null]. *)
Definition nullish_read (what prop : string) : exn :=
  TypeError ("Cannot read properties of " +:+ what +:+ " (reading '" +:+ prop +:+ "')").

Definition undefined_read (prop : string) : exn := nullish_read "undefined" prop.

(** Outcome of evaluating a piece of code: a value, or a thrown exception. *)
Inductive completion (A : Type) : Type :=
  | Normal (a : A)
  | Throw (e : exn).
Arguments Normal {A} a.
Arguments Throw {A} e.

Definition cbind {A B} (c : completion A) (k : A → completion B) : completion B :=
  match c with
  | Normal a => k a
  | Throw e => Throw e
  end.

(** [String(n)] for a number. *)
Definition js_String (n : Z) : string := pretty n.

(** [String(v)] for a number that may be [undefined]. *)
Definition js_String_opt (v : option Z) : string :=
  match v with
  | Some n => js_String n
  | None => "undefined"
  end.

(** [v || d] for a numeric property [v]: [undefined] and [0] are falsy. *)
Definition js_or (v : option Z) (d : Z) : Z :=
  match v with
  | Some n => if bool_decide (n = 0%Z) then d else n
  | None => d
  end.

(** [a || []] for an array property: every array is truthy. *)
Definition js_or_empty {A} (a : option (list A)) : list A :=
  match a with
  | Some l => l
  | None => []
  end.

(** ** Data model *)

Module Pos.
Record t := mk { x : Z; y : Z }.
End Pos.

Module Barrel.
Record t := mk { path : option (list Pos.t) }.
End Barrel.

Module Puzzle.
Record t := mk {
    id : option Z;
    grid_width : option Z;
    grid_height : option Z;
    knight_a_start : option Pos.t;
    knight_b_start : option Pos.t;
    goal_a : option Pos.t;
    goal_b : option Pos.t;
    walls : option (list Pos.t);
    static_tnt : option (list Pos.t);
    moving_barrels : option (list Barrel.t);
}.
End Puzzle.

(** A string-encoded coordinate, [[String(x), String(y)]]. *)
Definition cell : Type := string * string.

Module CircuitInput.
Record t := mk {
    grid_width : string;
    grid_height : string;
    knight_a_start : cell;
    knight_b_start : cell;
    goal_a : cell;
    goal_b : cell;
    walls : list cell;
    static_tnt : list cell;
    barrel_paths : list (list cell);
    barrel_path_lengths : list string;
    tick_count : string;
    puzzle_id : string;
    moves : list string;
}.
End CircuitInput.

(** ** The normaliser, [buildCircuitInput] *)

(** [[String(p.x), String(p.y)]] *)
Definition encode (p : Pos.t) : cell := (js_String (Pos.x p), js_String (Pos.y p)).

(** [for (const w of src) out.push([String(w.x), String(w.y)])] *)
Definition push_encoded (src : list Pos.t) (out : list cell) : list cell :=
  fold_left (λ acc w, acc ++ [encode w]) src out.

(** [while (out.length < cap) out.push(OOB.slice())], unrolled [fuel] times. *)
Fixpoint pad_loop (fuel cap : nat) (OOB : cell) (out : list cell) : list cell :=
  match fuel with
  | O => out
  | S fuel' =>
      if bool_decide (length out < cap)
      then pad_loop fuel' cap OOB (out ++ [OOB])
      else out
  end.

(** The loop adds one entry per turn, so [cap - out.length] turns exhaust it. *)
Definition pad_to (cap : nat) (OOB : cell) (out : list cell) : list cell :=
  pad_loop (cap - length out) cap OOB out.

(** The body of [for (let b = 0; b < 2; b++)]: the length and the path
    pushed for slot [b]. *)
Definition barrel_slot (OOB : cell) (barrels : list Barrel.t) (b : nat)
    : string * list cell :=
  let real :=
    if bool_decide (b < length barrels)
    then match barrels !! b with
         | Some brl => Barrel.path brl
         | None => None
         end
    else None in
  match real with
  | Some realPath =>
      (js_String (Z.of_nat (length realPath)),
       pad_to 16 OOB (push_encoded realPath []))
  | None => ("1", pad_to 16 OOB [])
  end.

Definition barrel_loop (OOB : cell) (barrels : list Barrel.t)
    : list (list cell) * list string :=
  fold_left
    (λ '(barrel_paths, barrel_path_lengths) b,
       let '(len, path) := barrel_slot OOB barrels b in
       (barrel_paths ++ [path], barrel_path_lengths ++ [len]))
    (seq 0 2) ([], []).

(** [[String(o.x), String(o.y)]] for a property [o] of the puzzle; reading
    [.x] of [undefined] throws. *)
Definition encode_prop (o : option Pos.t) : completion cell :=
  match o with
  | Some p => Normal (encode p)
  | None => Throw (undefined_read "x")
  end.

Definition buildCircuitInput (moves : option (list Z)) (puzzle : Puzzle.t)
    (tick_count : option Z) : completion CircuitInput.t :=
  let grid_width := js_or (Puzzle.grid_width puzzle) 11 in
  let grid_height := js_or (Puzzle.grid_height puzzle) 7 in
  let OOB : cell := (js_String grid_width, js_String grid_height) in
  let walls := pad_to 26 OOB (push_encoded (js_or_empty (Puzzle.walls puzzle)) []) in
  let static_tnt :=
    pad_to 8 OOB (push_encoded (js_or_empty (Puzzle.static_tnt puzzle)) []) in
  let barrels := js_or_empty (Puzzle.moving_barrels puzzle) in
  let '(barrel_paths, barrel_path_lengths) := barrel_loop OOB barrels in
  cbind (match moves with
         | Some ms => Normal (js_String <$> ms)
         | None => Throw (undefined_read "map")
         end) (λ movesStr,
  cbind (encode_prop (Puzzle.knight_a_start puzzle)) (λ ka,
  cbind (encode_prop (Puzzle.knight_b_start puzzle)) (λ kb,
  cbind (encode_prop (Puzzle.goal_a puzzle)) (λ ga,
  cbind (encode_prop (Puzzle.goal_b puzzle)) (λ gb,
  Normal {|
    CircuitInput.grid_width := js_String grid_width;
    CircuitInput.grid_height := js_String grid_height;
    CircuitInput.knight_a_start := ka;
    CircuitInput.knight_b_start := kb;
    CircuitInput.goal_a := ga;
    CircuitInput.goal_b := gb;
    CircuitInput.walls := walls;
    CircuitInput.static_tnt := static_tnt;
    CircuitInput.barrel_paths := barrel_paths;
    CircuitInput.barrel_path_lengths := barrel_path_lengths;
    CircuitInput.tick_count := js_String_opt tick_count;
    CircuitInput.puzzle_id := js_String_opt (Puzzle.id puzzle);
    CircuitInput.moves := movesStr;
  |}))))).

(** The request is well formed for the normaliser when the properties it
    dereferences are present: the move array and the four named squares. *)
Definition well_formed (moves : option (list Z)) (puzzle : Puzzle.t) : Prop :=
  is_Some moves ∧
  is_Some (Puzzle.knight_a_start puzzle) ∧
  is_Some (Puzzle.knight_b_start puzzle) ∧
  is_Some (Puzzle.goal_a puzzle) ∧
  is_Some (Puzzle.goal_b puzzle).

(** The sentinel pair, [[String(grid_width), String(grid_height)]]. *)
Definition sentinel (puzzle : Puzzle.t) : cell :=
  (js_String (js_or (Puzzle.grid_width puzzle) 11),
   js_String (js_or (Puzzle.grid_height puzzle) 7)).

(** ** The worker's environment *)

(** A [Uint8Array]. *)
Definition bytes : Type := list Byte.byte.

Module Response.
Record t := mk { status : Z; statusText : string; body : bytes }.

(** [res.ok]: the status is in the range 200-299. *)
Definition ok (res : t) : bool := bool_decide (200 ≤ status res ≤ 299)%Z.
End Response.

Definition WASM_PATH : string := "/zk/zknight.wasm".
Definition ZKEY_PATH : string := "https://zknight-assets.wazowsky.id/zknight_final.zkey".
Definition ZKEY_CACHE_NAME : string := "zknight-zkey-v1".

Section Worker.

(** What the prover returns is opaque to the worker. *)
Context {Groth16Proof PublicSignals : Type}.

(** The response posted to the main thread: [{proof, publicSignals}] or
    [{error}]. *)
Inductive message : Type :=
  | Success (proof : Groth16Proof) (publicSignals : PublicSignals)
  | Failure (error : string).

(** What [e.data] is destructured into, [{moves, puzzle, tick_count}]. The
    data of a message is an [option request]: the main thread can also post
    [undefined] or [null], which is [None]. *)
Record request := mk_request {
  moves : option (list Z);
  puzzle : option Puzzle.t;
  tick_count : option Z;
}.

(** Everything the worker cannot decide: which awaited platform call
    rejects (storage disabled, quota, broken stream, network down), what the
    network answers to the n-th request, what [snarkjs.groth16.fullProve]
    does, and what [Date.now()] reads. Platform calls are numbered by the
    world's [clock]. The prover is handed the path of the circuit program
    and loads it by itself: [fullProve] gives the requests it sends besides
    the way it settles. *)
Record env := mk_env {
  rejects : nat → option exn;
  network : nat → string → Response.t;
  fullProve : nat → CircuitInput.t → string → bytes →
              list string * completion (Groth16Proof * PublicSignals);
  now : nat → Z;
}.

(** The state the worker acts on. *)
Record world := mk_world {
  caches : gmap string (gmap string Response.t);
  requests : list string;
  console : list string;
  outbox : list message;
  clock : nat;
}.

Definition set_caches (c : gmap string (gmap string Response.t)) (w : world) : world :=
  mk_world c (requests w) (console w) (outbox w) (clock w).
Definition add_request (url : string) (w : world) : world :=
  mk_world (caches w) (requests w ++ [url]) (console w) (outbox w) (clock w).
Definition add_requests (urls : list string) (w : world) : world :=
  mk_world (caches w) (requests w ++ urls) (console w) (outbox w) (clock w).
Definition add_console (line : string) (w : world) : world :=
  mk_world (caches w) (requests w) (console w ++ [line]) (outbox w) (clock w).
Definition add_outbox (m : message) (w : world) : world :=
  mk_world (caches w) (requests w) (console w) (outbox w ++ [m]) (clock w).
Definition tick (w : world) : world :=
  mk_world (caches w) (requests w) (console w) (outbox w) (S (clock w)).

(** The entry of the cache [name] under [url], what [cache.match] finds. *)
Definition cache_entry (w : world) (name url : string) : option Response.t :=
  caches w !! name ≫= (λ c, c !! url).

(** Code that acts on the world and returns or throws. *)
Definition M (A : Type) : Type := world → completion A * world.

#[global] Instance M_ret : MRet M := λ A a w, (Normal a, w).
#[global] Instance M_bind : MBind M := λ A B k m w,
  match m w with
  | (Normal a, w') => k a w'
  | (Throw e, w') => (Throw e, w')
  end.

Definition throw {A} (e : exn) : M A := λ w, (Throw e, w).

Definition lift {A} (c : completion A) : M A := λ w, (c, w).

(** [try { body } catch (error) { handler }] *)
Definition try_catch {A} (body : M A) (handler : exn → M A) : M A := λ w,
  match body w with
  | (Normal a, w') => (Normal a, w')
  | (Throw e, w') => handler e w'
  end.

Variable E : env.

(** An awaited platform call: it takes one tick, and either rejects as the
    environment says or does [op]. *)
Definition platform {A} (op : world → A * world) : M A := λ w,
  match rejects E (clock w) with
  | Some e => (Throw e, tick w)
  | None => let '(a, w') := op (tick w) in (Normal a, w')
  end.

Definition console_log (line : string) : M unit := λ w, (Normal tt, add_console line w).

Definition postMessage (m : message) : M unit := λ w, (Normal tt, add_outbox m w).

Definition Date_now : M Z := λ w, (Normal (now E (clock w)), w).

(** [caches.open(name)]: the cache of that name, created empty when there is
    none. The handle is the name. *)
Definition caches_open (name : string) : M string :=
  platform (λ w,
    (name, match caches w !! name with
           | Some _ => w
           | None => set_caches (<[name := ∅]> (caches w)) w
           end)).

(** [cache.match(url)] *)
Definition cache_match (cache url : string) : M (option Response.t) :=
  platform (λ w, (cache_entry w cache url, w)).

(** [cache.put(url, res)] *)
Definition cache_put (cache url : string) (res : Response.t) : M unit :=
  platform (λ w,
    (tt, set_caches (<[cache := <[url := res]> (default ∅ (caches w !! cache))]> (caches w)) w)).

(** [fetch(url)]: the request goes out, then the call rejects or resolves
    with the network's response. *)
Definition fetch (url : string) : M Response.t := λ w,
  platform (λ w', (network E (length (requests w)) url, w')) (add_request url w).

(** [new Uint8Array(await res.arrayBuffer())] *)
Definition arrayBuffer (res : Response.t) : M bytes :=
  platform (λ w, (Response.body res, w)).

(** ** The proving-key retrieval, [fetchZkeyBytes] *)

Definition fetchZkeyBytes : M bytes :=
  cache ← caches_open ZKEY_CACHE_NAME;
  cached ← cache_match cache ZKEY_PATH;
  match cached with
  | Some cached =>
      console_log "[ProveWorker] zkey loaded from Cache API";;
      arrayBuffer cached
  | None =>
      console_log "[ProveWorker] zkey not cached — downloading from R2...";;
      res ← fetch ZKEY_PATH;
      if negb (Response.ok res)
      then throw (Error ("Failed to fetch zkey: " +:+ js_String (Response.status res)
                           +:+ " " +:+ Response.statusText res))
      else
        cache_put cache ZKEY_PATH res;;
        console_log "[ProveWorker] zkey downloaded and stored in Cache API";;
        arrayBuffer res
  end.

(** ** The message handler, [self.onmessage] *)

(** [(a || []).length], printed. *)
Definition count {A} (a : option (list A)) : string :=
  pretty (length (js_or_empty a)).

(** [await snarkjs.groth16.fullProve(input, WASM_PATH, {type: 'mem', data:
    zkeyBytes})]: the prover sends its requests and settles. *)
Definition groth16_fullProve (input : CircuitInput.t) (wasm : string) (zkeyBytes : bytes)
    : M (Groth16Proof * PublicSignals) := λ w,
  let '(loads, r) := fullProve E (clock w) input wasm zkeyBytes in
  (r, tick (add_requests loads w)).

(** The [try] block up to the proof: the log lines, the normaliser, the key
    and the prover. [puzzle.id] is the first read of [puzzle], and throws
    when the request has none. *)
Definition generate (data : request) : M (Groth16Proof * PublicSignals) :=
  console_log "[ProveWorker] Starting proof generation...";;
  console_log ("[ProveWorker] Tick count: " +:+ js_String_opt (tick_count data));;
  p ← match puzzle data with
       | Some p => mret p
       | None => throw (undefined_read "id")
       end;
  console_log ("[ProveWorker] Puzzle ID: " +:+ js_String_opt (Puzzle.id p));;
  console_log ("[ProveWorker] Grid: " +:+ js_String_opt (Puzzle.grid_width p)
                 +:+ " x " +:+ js_String_opt (Puzzle.grid_height p));;
  console_log ("[ProveWorker] Walls: " +:+ count (Puzzle.walls p) +:+ " / 16 slots");;
  console_log ("[ProveWorker] Static TNT: " +:+ count (Puzzle.static_tnt p) +:+ " / 8 slots");;
  console_log ("[ProveWorker] Barrels: " +:+ count (Puzzle.moving_barrels p) +:+ " / 2 slots");;
  input ← lift (buildCircuitInput (moves data) p (tick_count data));
  zkeyBytes ← fetchZkeyBytes;
  startTime ← Date_now;
  result ← groth16_fullProve input WASM_PATH zkeyBytes;
  stopTime ← Date_now;
  console_log ("[ProveWorker] Proof generated successfully in "
                 +:+ js_String (stopTime - startTime) +:+ " ms");;
  mret result.

(** How the console shows a thrown value. *)
Definition show (error : exn) : string :=
  match error with
  | mk_exn name text => name +:+ ": " +:+ text
  | thrown_undefined => "undefined"
  | thrown_null => "null"
  end.

(** [error.message]: a property read, which throws on [undefined] and on
    [null]. *)
Definition message_of (error : exn) : completion string :=
  match error with
  | mk_exn _ text => Normal text
  | thrown_undefined => Throw (nullish_read "undefined" "message")
  | thrown_null => Throw (nullish_read "null" "message")
  end.

(** [text || 'Unknown error during proof generation'] *)
Definition error_text (text : string) : string :=
  if bool_decide (text = "")
  then "Unknown error during proof generation"
  else text.

(** The engine's error for [const {moves, puzzle, tick_count} = e.data] on
    data that is [undefined] or [null]. *)
Definition cannot_destructure : exn :=
  TypeError "Cannot destructure property 'moves' of 'e.data' as it is undefined.".

(** The handler. The destructuring of [e.data] comes before the [try]; in
    the [catch], the object to post is built, reading [error.message],
    before [postMessage] is called. A [Throw] is the rejection of the
    promise the [async] handler returns, which nothing awaits. *)
Definition onmessage (data : option request) : M unit :=
  match data with
  | None => throw cannot_destructure
  | Some data =>
      try_catch
        ('(proof, publicSignals) ← generate data;
         postMessage (Success proof publicSignals))
        (λ error,
           console_log ("[ProveWorker] Proof generation failed: " +:+ show error);;
           text ← lift (message_of error);
           postMessage (Failure (error_text text)))
  end.

End Worker.

Arguments message : clear implicits.
Arguments env : clear implicits.
Arguments world : clear implicits.
Arguments M : clear implicits.

(** No platform call numbered [n] to [n + k - 1] rejects. *)
Definition settles {P S} (E : env P S) (n k : nat) : Prop :=
  ∀ i, n ≤ i < n + k → rejects E i = None.

(** Two worlds hold the same cache entries. *)
Definition same_entries {P S} (w w' : world P S) : Prop :=
  ∀ name url, cache_entry w' name url = cache_entry w name url.

(** What the [catch] block does with [error] between [w] and [w']: it posts
    the error's text and the handler returns, or the read of the text
    throws, nothing is posted and the handler ends with that exception. *)
Definition caught {P S} (error : exn) (r : completion unit) (w w' : world P S) : Prop :=
  match message_of error with
  | Normal text => r = Normal tt ∧ outbox w' = outbox w ++ [Failure (error_text text)]
  | Throw e => r = Throw e ∧ outbox w' = outbox w
  end.
(** ** The normaliser on a store of arrays

    [buildCircuitInput] builds its result by [push] on arrays, and arrays
    are shared by reference: the puzzle's arrays stay reachable from the
    caller while the function runs. The model below keeps every array in a
    store and runs the function's statements on it, so that which array a
    [push] lands in is part of the model. Objects are only read by the
    function (it has no property assignment), so they are values. *)

Abbreviation loc := nat (only parsing).

(** What an array holds: a number, a string, a coordinate object [{x, y}], a
    barrel object [{path}], or a reference to an array. *)
Inductive val : Type :=
  | VNum (n : Z)
  | VStr (s : string)
  | VPos (p : Pos.t)
  | VBarrel (path : option loc)
  | VRef (l : loc).

Abbreviation store := (list (list val)) (only parsing).

(** Code on the store. [None] is a fault: a state the embedding does not
    cover (a dangling reference, [String] of an array, a loop over an array
    that grows under it). *)
Definition HeapM (A : Type) : Type := store → option (completion A * store).

#[global] Instance HeapM_ret : MRet HeapM := λ A a σ, Some (Normal a, σ).
#[global] Instance HeapM_bind : MBind HeapM := λ A B k m σ,
  match m σ with
  | Some (Normal a, σ') => k a σ'
  | Some (Throw e, σ') => Some (Throw e, σ')
  | None => None
  end.

Definition hthrow {A} (e : exn) : HeapM A := λ σ, Some (Throw e, σ).
Definition fault {A} : HeapM A := λ _, None.

(** An array literal, or any call that returns a fresh array. *)
Definition alloc (a : list val) : HeapM loc := λ σ, Some (Normal (length σ), σ ++ [a]).

Definition read (l : loc) : HeapM (list val) := λ σ,
  match σ !! l with
  | Some a => Some (Normal a, σ)
  | None => None
  end.

(** [a.push(v)] *)
Definition push (l : loc) (v : val) : HeapM unit := λ σ,
  match σ !! l with
  | Some a => Some (Normal tt, <[l := a ++ [v]]> σ)
  | None => None
  end.

(** [a.length] *)
Definition length_of (l : loc) : HeapM nat := a ← read l; mret (length a).

(** [a.slice()] *)
Definition slice (l : loc) : HeapM loc := a ← read l; alloc a.

(** [v.x], [v.y] and [v.path] for an array element [v]; a property the
    value does not have is [undefined]. *)
Definition prop_x (v : val) : option Z :=
  match v with VPos p => Some (Pos.x p) | _ => None end.
Definition prop_y (v : val) : option Z :=
  match v with VPos p => Some (Pos.y p) | _ => None end.
Definition prop_path (v : val) : option loc :=
  match v with VBarrel path => path | _ => None end.

(** [String(v)] for an array element. *)
Definition val_String (v : val) : HeapM string :=
  match v with
  | VNum n => mret (js_String n)
  | VStr s => mret s
  | VPos _ | VBarrel _ => mret "[object Object]"
  | VRef _ => fault
  end.

(** [for (const v of src) body(v)]: the iterator reads [src] afresh at each
    step and stops at its end. [fuel] is the length of [src] at the start. *)
Fixpoint for_of_from (fuel : nat) (src : loc) (i : nat) (body : val → HeapM unit)
    : HeapM unit :=
  a ← read src;
  match a !! i with
  | None => mret tt
  | Some v =>
      match fuel with
      | O => fault
      | S fuel' => body v;; for_of_from fuel' src (S i) body
      end
  end.

Definition for_of (src : loc) (body : val → HeapM unit) : HeapM unit :=
  n ← length_of src; for_of_from n src 0 body.

(** [while (out.length < cap) body]. [fuel] is [cap - out.length] at the
    start. *)
Fixpoint while_short (fuel : nat) (out : loc) (cap : nat) (body : HeapM unit)
    : HeapM unit :=
  n ← length_of out;
  if bool_decide (n < cap)
  then match fuel with
       | O => fault
       | S fuel' => body;; while_short fuel' out cap body
       end
  else mret tt.

(** [out.push([String(w.x), String(w.y)])] *)
Definition push_encoded_h (out : loc) (w : val) : HeapM unit :=
  c ← alloc [VStr (js_String_opt (prop_x w)); VStr (js_String_opt (prop_y w))];
  push out (VRef c).

(** [while (out.length < cap) out.push(OOB.slice())] *)
Definition pad_to_h (cap : nat) (OOB out : loc) : HeapM unit :=
  n ← length_of out;
  while_short (cap - n) out cap (c ← slice OOB; push out (VRef c)).

(** [for (const w of (src || [])) out.push(...)]; [[]] is a fresh array. *)
Definition copy_h (src : option loc) (out : loc) : HeapM unit :=
  src ← match src with
        | Some l => mret l
        | None => alloc []
        end;
  for_of src (push_encoded_h out).

(** The puzzle as the function receives it: its arrays are references. *)
Module PuzzleRef.
Record t := mk {
    id : option Z;
    grid_width : option Z;
    grid_height : option Z;
    knight_a_start : option Pos.t;
    knight_b_start : option Pos.t;
    goal_a : option Pos.t;
    goal_b : option Pos.t;
    walls : option loc;
    static_tnt : option loc;
    moving_barrels : option loc;
}.
End PuzzleRef.

(** The object the function returns: strings, and references to the arrays
    it built. *)
Module CircuitInputRef.
Record t := mk {
    grid_width : string;
    grid_height : string;
    knight_a_start : loc;
    knight_b_start : loc;
    goal_a : loc;
    goal_b : loc;
    walls : loc;
    static_tnt : loc;
    barrel_paths : loc;
    barrel_path_lengths : loc;
    tick_count : string;
    puzzle_id : string;
    moves : loc;
}.
End CircuitInputRef.

(** The body of [for (let b = 0; b < 2; b++)]. *)
Definition barrel_slot_h (OOB barrels barrel_paths barrel_path_lengths : loc)
    (b : nat) : HeapM unit :=
  path ← alloc [];
  n ← length_of barrels;
  real ← (if bool_decide (b < n)
          then a ← read barrels;
               match a !! b with
               | Some v => mret (prop_path v)
               | None => fault
               end
          else mret None);
  match real with
  | Some realPath =>
      len ← length_of realPath;
      push barrel_path_lengths (VStr (js_String (Z.of_nat len)));;
      for_of realPath (push_encoded_h path)
  | None => push barrel_path_lengths (VStr "1")
  end;;
  pad_to_h 16 OOB path;;
  push barrel_paths (VRef path).

(** [[String(o.x), String(o.y)]] for a property [o] of the puzzle. *)
Definition encode_prop_h (o : option Pos.t) : HeapM loc :=
  match o with
  | Some p => alloc [VStr (js_String (Pos.x p)); VStr (js_String (Pos.y p))]
  | None => hthrow (undefined_read "x")
  end.

Definition buildCircuitInput_h (moves : option loc) (puzzle : PuzzleRef.t)
    (tick_count : option Z) : HeapM CircuitInputRef.t :=
  let grid_width := js_or (PuzzleRef.grid_width puzzle) 11 in
  let grid_height := js_or (PuzzleRef.grid_height puzzle) 7 in
  OOB ← alloc [VStr (js_String grid_width); VStr (js_String grid_height)];
  walls ← alloc [];
  copy_h (PuzzleRef.walls puzzle) walls;;
  pad_to_h 26 OOB walls;;
  static_tnt ← alloc [];
  copy_h (PuzzleRef.static_tnt puzzle) static_tnt;;
  pad_to_h 8 OOB static_tnt;;
  barrels ← match PuzzleRef.moving_barrels puzzle with
            | Some l => mret l
            | None => alloc []
            end;
  barrel_paths ← alloc [];
  barrel_path_lengths ← alloc [];
  barrel_slot_h OOB barrels barrel_paths barrel_path_lengths 0;;
  barrel_slot_h OOB barrels barrel_paths barrel_path_lengths 1;;
  movesStr ← match moves with
             | Some l =>
                 a ← read l;
                 strs ← foldr (λ m rest, s ← val_String m; ss ← rest; mret (VStr s :: ss))
                          (mret []) a;
                 alloc strs
             | None => hthrow (undefined_read "map")
             end;
  ka ← encode_prop_h (PuzzleRef.knight_a_start puzzle);
  kb ← encode_prop_h (PuzzleRef.knight_b_start puzzle);
  ga ← encode_prop_h (PuzzleRef.goal_a puzzle);
  gb ← encode_prop_h (PuzzleRef.goal_b puzzle);
  mret {|
    CircuitInputRef.grid_width := js_String grid_width;
    CircuitInputRef.grid_height := js_String grid_height;
    CircuitInputRef.knight_a_start := ka;
    CircuitInputRef.knight_b_start := kb;
    CircuitInputRef.goal_a := ga;
    CircuitInputRef.goal_b := gb;
    CircuitInputRef.walls := walls;
    CircuitInputRef.static_tnt := static_tnt;
    CircuitInputRef.barrel_paths := barrel_paths;
    CircuitInputRef.barrel_path_lengths := barrel_path_lengths;
    CircuitInputRef.tick_count := js_String_opt tick_count;
    CircuitInputRef.puzzle_id := js_String_opt (PuzzleRef.id puzzle);
    CircuitInputRef.moves := movesStr;
  |}.

(** *** Reading values back from the store *)

Definition load_cell (σ : store) (v : val) : option cell :=
  match v with
  | VRef l =>
      match σ !! l with
      | Some [VStr a; VStr b] => Some (a, b)
      | _ => None
      end
  | _ => None
  end.

Definition load_cells (σ : store) (v : val) : option (list cell) :=
  match v with
  | VRef l => a ← σ !! l; mapM (load_cell σ) a
  | _ => None
  end.

Definition load_str (v : val) : option string :=
  match v with VStr s => Some s | _ => None end.

(** An array of strings, and an array of arrays of cells. *)
Definition load_strs (σ : store) (l : loc) : option (list string) :=
  a ← σ !! l; mapM load_str a.

Definition load_paths (σ : store) (l : loc) : option (list (list cell)) :=
  a ← σ !! l; mapM (load_cells σ) a.

Definition load_num (v : val) : option Z :=
  match v with VNum n => Some n | _ => None end.

Definition load_pos (v : val) : option Pos.t :=
  match v with VPos p => Some p | _ => None end.

(** An array property that may be [undefined]. *)
Definition load_array {A} (σ : store) (f : val → option A) (l : option loc)
    : option (option (list A)) :=
  match l with
  | Some l => a ← σ !! l; Some <$> mapM f a
  | None => Some None
  end.

Definition load_barrel (σ : store) (v : val) : option Barrel.t :=
  match v with
  | VBarrel path => Barrel.mk <$> load_array σ load_pos path
  | _ => None
  end.

Definition load_puzzle (σ : store) (p : PuzzleRef.t) : option Puzzle.t :=
  walls ← load_array σ load_pos (PuzzleRef.walls p);
  static_tnt ← load_array σ load_pos (PuzzleRef.static_tnt p);
  moving_barrels ← load_array σ (load_barrel σ) (PuzzleRef.moving_barrels p);
  Some {|
    Puzzle.id := PuzzleRef.id p;
    Puzzle.grid_width := PuzzleRef.grid_width p;
    Puzzle.grid_height := PuzzleRef.grid_height p;
    Puzzle.knight_a_start := PuzzleRef.knight_a_start p;
    Puzzle.knight_b_start := PuzzleRef.knight_b_start p;
    Puzzle.goal_a := PuzzleRef.goal_a p;
    Puzzle.goal_b := PuzzleRef.goal_b p;
    Puzzle.walls := walls;
    Puzzle.static_tnt := static_tnt;
    Puzzle.moving_barrels := moving_barrels;
  |}.

Definition load_input (σ : store) (i : CircuitInputRef.t) : option CircuitInput.t :=
  ka ← load_cell σ (VRef (CircuitInputRef.knight_a_start i));
  kb ← load_cell σ (VRef (CircuitInputRef.knight_b_start i));
  ga ← load_cell σ (VRef (CircuitInputRef.goal_a i));
  gb ← load_cell σ (VRef (CircuitInputRef.goal_b i));
  walls ← load_cells σ (VRef (CircuitInputRef.walls i));
  static_tnt ← load_cells σ (VRef (CircuitInputRef.static_tnt i));
  barrel_paths ← load_paths σ (CircuitInputRef.barrel_paths i);
  barrel_path_lengths ← load_strs σ (CircuitInputRef.barrel_path_lengths i);
  moves ← load_strs σ (CircuitInputRef.moves i);
  Some {|
    CircuitInput.grid_width := CircuitInputRef.grid_width i;
    CircuitInput.grid_height := CircuitInputRef.grid_height i;
    CircuitInput.knight_a_start := ka;
    CircuitInput.knight_b_start := kb;
    CircuitInput.goal_a := ga;
    CircuitInput.goal_b := gb;
    CircuitInput.walls := walls;
    CircuitInput.static_tnt := static_tnt;
    CircuitInput.barrel_paths := barrel_paths;
    CircuitInput.barrel_path_lengths := barrel_path_lengths;
    CircuitInput.tick_count := CircuitInputRef.tick_count i;
    CircuitInput.puzzle_id := CircuitInputRef.puzzle_id i;
    CircuitInput.moves := moves;
  |}.

(** The result of a run, read back: the input built, or the exception. *)
Definition load_result (σ : store) (r : completion CircuitInputRef.t)
    : option (completion CircuitInput.t) :=
  match r with
  | Normal i => Normal <$> load_input σ i
  | Throw e => Some (Throw e)
  end.
(** ** Reasoning about code on the store *)

(** [m], run from [σ], ends without fault in an outcome and a store that
    satisfy [Q]. *)
Definition wp {A} (m : HeapM A) (σ : store) (Q : completion A → store → Prop) : Prop :=
  match m σ with
  | Some (r, σ') => Q r σ'
  | None => False
  end.

(** [τ'] has every array of [τ], unchanged except possibly the one at
    [out]. *)
Definition grows_at (out : loc) (τ τ' : store) : Prop :=
  length τ ≤ length τ' ∧ ∀ k, k < length τ → k ≠ out → τ' !! k = τ !! k.

(** The two-string array of a cell. *)
Definition cell_val (c : cell) : list val := [VStr c.1; VStr c.2].

(** References to fresh arrays, one per cell of [cs], each holding its cell. *)
Definition fresh_cells (out : loc) (τ τ' : store) (refs : list loc) (cs : list cell) : Prop :=
  Forall2 (λ r c, length τ ≤ r < length τ' ∧ r ≠ out ∧ τ' !! r = Some (cell_val c)) refs cs.

(** An array of references at [l], built at or above [lo], holding [cs]. *)
Definition built_in (lo : nat) (τ : store) (l : loc) (cs : list cell) : Prop :=
  lo ≤ l ∧ ∃ refs, τ !! l = Some (VRef <$> refs) ∧
    Forall2 (λ r c, lo ≤ r ∧ τ !! r = Some (cell_val c)) refs cs.


(** ** Sample requests *)

(** An 11 x 7 level with nothing on it. *)
Definition bare_puzzle : Puzzle.t := {|
  Puzzle.id := Some 1%Z;
  Puzzle.grid_width := Some 11%Z;
  Puzzle.grid_height := Some 7%Z;
  Puzzle.knight_a_start := Some (Pos.mk 0 0);
  Puzzle.knight_b_start := Some (Pos.mk 10 0);
  Puzzle.goal_a := Some (Pos.mk 10 6);
  Puzzle.goal_b := Some (Pos.mk 0 6);
  Puzzle.walls := Some [];
  Puzzle.static_tnt := Some [];
  Puzzle.moving_barrels := Some [];
|}.

(** [bare_puzzle] with other obstacles. *)
Definition with_obstacles (walls static_tnt : list Pos.t) (barrels : list Barrel.t)
    (p : Puzzle.t) : Puzzle.t := {|
  Puzzle.id := Puzzle.id p;
  Puzzle.grid_width := Puzzle.grid_width p;
  Puzzle.grid_height := Puzzle.grid_height p;
  Puzzle.knight_a_start := Puzzle.knight_a_start p;
  Puzzle.knight_b_start := Puzzle.knight_b_start p;
  Puzzle.goal_a := Puzzle.goal_a p;
  Puzzle.goal_b := Puzzle.goal_b p;
  Puzzle.walls := Some walls;
  Puzzle.static_tnt := Some static_tnt;
  Puzzle.moving_barrels := Some barrels;
|}.

(** [bare_puzzle] with other grid dimensions. *)
Definition with_grid (w h : option Z) (p : Puzzle.t) : Puzzle.t := {|
  Puzzle.id := Puzzle.id p;
  Puzzle.grid_width := w;
  Puzzle.grid_height := h;
  Puzzle.knight_a_start := Puzzle.knight_a_start p;
  Puzzle.knight_b_start := Puzzle.knight_b_start p;
  Puzzle.goal_a := Puzzle.goal_a p;
  Puzzle.goal_b := Puzzle.goal_b p;
  Puzzle.walls := Puzzle.walls p;
  Puzzle.static_tnt := Puzzle.static_tnt p;
  Puzzle.moving_barrels := Puzzle.moving_barrels p;
|}.

(** One wall at (3, 4), one TNT at (5, 5), one barrel going back and forth
    between (1, 1) and (2, 1). *)
Definition small_puzzle : Puzzle.t :=
  with_obstacles [Pos.mk 3 4] [Pos.mk 5 5]
    [Barrel.mk (Some [Pos.mk 1 1; Pos.mk 2 1])] bare_puzzle.

(** More of everything than the circuit has room for: 27 walls, 9 TNT, 3
    barrels, the first with a path of 17 steps. *)
Definition overfull_puzzle : Puzzle.t :=
  with_obstacles (replicate 27 (Pos.mk 1 1)) (replicate 9 (Pos.mk 2 2))
    [Barrel.mk (Some (replicate 17 (Pos.mk 3 3))); Barrel.mk None; Barrel.mk None]
    bare_puzzle.

(** A move history; the worker takes it as it comes. *)
Definition some_moves : option (list Z) := Some [0; 3; 4]%Z.

(** [small_puzzle] and [some_moves] laid out in a store: the moves at 0, the
    walls at 1, the TNT at 2, the barrel's path at 3, the barrels at 4. *)
Definition small_store : list (list val) :=
  [ [VNum 0; VNum 3; VNum 4];
    [VPos (Pos.mk 3 4)];
    [VPos (Pos.mk 5 5)];
    [VPos (Pos.mk 1 1); VPos (Pos.mk 2 1)];
    [VBarrel (Some 3)] ].

Definition small_puzzle_ref : PuzzleRef.t := {|
  PuzzleRef.id := Some 1%Z;
  PuzzleRef.grid_width := Some 11%Z;
  PuzzleRef.grid_height := Some 7%Z;
  PuzzleRef.knight_a_start := Some (Pos.mk 0 0);
  PuzzleRef.knight_b_start := Some (Pos.mk 10 0);
  PuzzleRef.goal_a := Some (Pos.mk 10 6);
  PuzzleRef.goal_b := Some (Pos.mk 0 6);
  PuzzleRef.walls := Some 1;
  PuzzleRef.static_tnt := Some 2;
  PuzzleRef.moving_barrels := Some 4;
|}.

(** A platform where nothing rejects, a network that serves the key, and a
    prover that loads the circuit program it is given and returns. *)
Definition served_key : Response.t := Response.mk 200 "OK" [Byte.x01; Byte.x02; Byte.x03].

Definition calm_env : env unit unit := {|
  rejects := λ _, None;
  network := λ _ _, served_key;
  fullProve := λ _ _ wasm _, ([wasm], Normal (tt, tt));
  now := λ n, Z.of_nat n;
|}.

(** The same platform with a network that answers 500. *)
Definition down_env : env unit unit := {|
  rejects := λ _, None;
  network := λ _ _, Response.mk 500 "Internal Server Error" [];
  fullProve := λ _ _ wasm _, ([wasm], Normal (tt, tt));
  now := λ n, Z.of_nat n;
|}.

(** A worker that has done nothing yet. *)
Definition fresh_world : world unit unit := mk_world ∅ [] [] [] 0.

(** The request for [small_puzzle]. *)
Definition small_request : request :=
  mk_request some_moves (Some small_puzzle) (Some 2%Z).


(** A 9 x 5 level with the obstacles of [small_puzzle]. *)
Definition narrow_puzzle : Puzzle.t := with_grid (Some 9%Z) (Some 5%Z) small_puzzle.

(** The platform of [calm_env] with a prover that rejects with [undefined]. *)
Definition mute_env : env unit unit := {|
  rejects := λ _, None;
  network := λ _ _, served_key;
  fullProve := λ _ _ wasm _, ([wasm], Throw thrown_undefined);
  now := λ n, Z.of_nat n;
|}.

(** ** Further notions for the worker *)

(** Every cache entry but the key's reads in [w'] as in [w]. *)
Definition other_entries_kept {P S} (w w' : world P S) : Prop :=
  ∀ name url, (name, url) ≠ (ZKEY_CACHE_NAME, ZKEY_PATH) →
              cache_entry w' name url = cache_entry w name url.

(** The error thrown for a response with a failure status. *)
Definition status_error (res : Response.t) : exn :=
  Error ("Failed to fetch zkey: " +:+ js_String (Response.status res)
           +:+ " " +:+ Response.statusText res).



(** [calm_env] where the platform call numbered [n] rejects with [e]. *)
Definition rejecting_at (n : nat) (e : exn) : env unit unit := {|
  rejects := λ i, if bool_decide (i = n) then Some e else None;
  network := network calm_env;
  fullProve := fullProve calm_env;
  now := now calm_env;
|}.

(** A request whose puzzle lacks a goal. *)
Definition broken_request : request :=
  mk_request some_moves
    (Some {|
       Puzzle.id := Some 1%Z;
       Puzzle.grid_width := Some 11%Z;
       Puzzle.grid_height := Some 7%Z;
       Puzzle.knight_a_start := Some (Pos.mk 0 0);
       Puzzle.knight_b_start := Some (Pos.mk 10 0);
       Puzzle.goal_a := Some (Pos.mk 10 6);
       Puzzle.goal_b := None;
       Puzzle.walls := Some [];
       Puzzle.static_tnt := Some [];
       Puzzle.moving_barrels := Some [];
     |})
    (Some 2%Z).

(** ** Further notions for the normaliser *)

(** A square of the grid the normaliser resolves for the puzzle. *)
Definition in_bounds (puzzle : Puzzle.t) (p : Pos.t) : Prop :=
  (0 ≤ Pos.x p < js_or (Puzzle.grid_width puzzle) 11)%Z ∧
  (0 ≤ Pos.y p < js_or (Puzzle.grid_height puzzle) 7)%Z.

(** [small_puzzle] with two more barrels, and with a barrel whose path is
    empty. *)
Definition three_barrel_puzzle : Puzzle.t :=
  with_obstacles [Pos.mk 3 4] [Pos.mk 5 5]
    [Barrel.mk (Some [Pos.mk 1 1; Pos.mk 2 1]); Barrel.mk None;
     Barrel.mk (Some [Pos.mk 4 4])] bare_puzzle.

Definition still_barrel_puzzle : Puzzle.t :=
  with_obstacles [] [] [Barrel.mk (Some [])] bare_puzzle.

(** ** Further notions for the normaliser on the store *)

(** [m], run from [σ], faults or ends in an outcome and a store that satisfy
    [Q]. *)
Definition wlp {A} (m : HeapM A) (σ : store) (Q : completion A → store → Prop) : Prop :=
  match m σ with
  | Some (r, σ') => Q r σ'
  | None => True
  end.

(** The array at [l] holds a reference to the array at [r] in place [k]. *)
Definition holds (τ : store) (l k : nat) (r : loc) : Prop :=
  ∃ a, τ !! l = Some a ∧ a !! k = Some (VRef r).

(** An array without references. *)
Definition ref_free (a : list val) : Prop := ∀ k r, a !! k ≠ Some (VRef r).

(** The arrays the result is made of, last built first. *)
Definition roots (i : CircuitInputRef.t) : list loc :=
  [ CircuitInputRef.goal_b i; CircuitInputRef.goal_a i;
    CircuitInputRef.knight_b_start i; CircuitInputRef.knight_a_start i;
    CircuitInputRef.moves i; CircuitInputRef.barrel_path_lengths i;
    CircuitInputRef.barrel_paths i; CircuitInputRef.static_tnt i;
    CircuitInputRef.walls i ].

(** The state of the arrays built since the store had [n] arrays: the
    sentinel array at [OOB] has no reference; the arrays [S] are new and
    nothing new refers to them yet; every reference in a new array is to a
    new array; and no two places in new arrays hold the same reference. *)
Definition building (n OOB : loc) (S : list loc) (τ : store) : Prop :=
  n ≤ length τ ∧
  (∃ a, τ !! OOB = Some a ∧ ref_free a) ∧
  NoDup S ∧
  (∀ c, c ∈ S → n ≤ c < length τ ∧ ∀ l k, n ≤ l → ¬ holds τ l k c) ∧
  (∀ l k r, n ≤ l → holds τ l k r → n ≤ r < length τ) ∧
  (∀ l1 k1 l2 k2 r, n ≤ l1 → n ≤ l2 →
     holds τ l1 k1 r → holds τ l2 k2 r → l1 = l2 ∧ k1 = k2).

(** [small_puzzle] without an id. *)
Definition nameless_puzzle : Puzzle.t := {|
  Puzzle.id := None;
  Puzzle.grid_width := Puzzle.grid_width small_puzzle;
  Puzzle.grid_height := Puzzle.grid_height small_puzzle;
  Puzzle.knight_a_start := Puzzle.knight_a_start small_puzzle;
  Puzzle.knight_b_start := Puzzle.knight_b_start small_puzzle;
  Puzzle.goal_a := Puzzle.goal_a small_puzzle;
  Puzzle.goal_b := Puzzle.goal_b small_puzzle;
  Puzzle.walls := Puzzle.walls small_puzzle;
  Puzzle.static_tnt := Puzzle.static_tnt small_puzzle;
  Puzzle.moving_barrels := Puzzle.moving_barrels small_puzzle;
|}.
(** ** Closed forms of the loops *)

Lemma push_encoded_spec src out : push_encoded src out = out ++ (encode <$> src).
Proof.
  revert out. induction src as [|w src IH]; intros out; simpl.
  - by rewrite app_nil_r.
  - unfold push_encoded in *. simpl. rewrite IH, <- app_assoc. done.
Qed.

Lemma pad_loop_spec fuel cap OOB out :
  cap - length out ≤ fuel →
  pad_loop fuel cap OOB out = out ++ replicate (cap - length out) OOB.
Proof.
  revert out. induction fuel as [|fuel IH]; intros out Hfuel; simpl.
  - replace (cap - length out) with 0 by lia. by rewrite app_nil_r.
  - case_bool_decide as Hlt.
    + rewrite IH by (rewrite length_app; simpl; lia).
      rewrite length_app. simpl.
      replace (cap - length out) with (S (cap - (length out + 1))) by lia.
      simpl. by rewrite <- app_assoc.
    + replace (cap - length out) with 0 by lia. by rewrite app_nil_r.
Qed.

Lemma pad_to_spec cap OOB out :
  pad_to cap OOB out = out ++ replicate (cap - length out) OOB.
Proof. unfold pad_to. by apply pad_loop_spec. Qed.

Lemma pad_to_length cap OOB out : length (pad_to cap OOB out) = max cap (length out).
Proof. rewrite pad_to_spec, length_app, length_replicate. lia. Qed.

(** ** The fields of the result *)

(** Under [well_formed] the normaliser returns. *)
Lemma buildCircuitInput_returns moves puzzle tick_count :
  well_formed moves puzzle →
  ∃ input, buildCircuitInput moves puzzle tick_count = Normal input.
Proof.
  intros ([ms ->] & [ka Hka] & [kb Hkb] & [ga Hga] & [gb Hgb]).
  unfold buildCircuitInput. rewrite Hka, Hkb, Hga, Hgb.
  destruct (barrel_loop _ _). simpl. by eexists.
Qed.

(** What it returns holds the loops' results. *)
Lemma buildCircuitInput_fields moves puzzle tick_count input :
  buildCircuitInput moves puzzle tick_count = Normal input →
  CircuitInput.grid_width input = js_String (js_or (Puzzle.grid_width puzzle) 11) ∧
  CircuitInput.grid_height input = js_String (js_or (Puzzle.grid_height puzzle) 7) ∧
  CircuitInput.walls input
    = pad_to 26 (sentinel puzzle) (push_encoded (js_or_empty (Puzzle.walls puzzle)) []) ∧
  CircuitInput.static_tnt input
    = pad_to 8 (sentinel puzzle)
        (push_encoded (js_or_empty (Puzzle.static_tnt puzzle)) []) ∧
  (CircuitInput.barrel_paths input, CircuitInput.barrel_path_lengths input)
    = barrel_loop (sentinel puzzle) (js_or_empty (Puzzle.moving_barrels puzzle)).
Proof.
  unfold buildCircuitInput. fold (sentinel puzzle).
  destruct (barrel_loop _ _) as [paths lens].
  destruct moves as [ms|]; [|done].
  destruct (Puzzle.knight_a_start puzzle); [|done].
  destruct (Puzzle.knight_b_start puzzle); [|done].
  destruct (Puzzle.goal_a puzzle); [|done].
  destruct (Puzzle.goal_b puzzle); [|done].
  simpl. intros [= <-]. done.
Qed.

(** A padded copy: the entries encoded in order, then the sentinel. *)
Lemma padded_copy cap OOB src :
  pad_to cap OOB (push_encoded src [])
    = (encode <$> src) ++ replicate (cap - length src) OOB.
Proof. rewrite push_encoded_spec. simpl. by rewrite pad_to_spec, length_fmap. Qed.

Lemma padded_copy_length cap OOB src :
  length (pad_to cap OOB (push_encoded src [])) = max cap (length src).
Proof. rewrite padded_copy, length_app, length_fmap, length_replicate. lia. Qed.

(** The barrel loop makes two turns. *)
Lemma barrel_loop_slots OOB barrels :
  barrel_loop OOB barrels
    = ([(barrel_slot OOB barrels 0).2; (barrel_slot OOB barrels 1).2],
       [(barrel_slot OOB barrels 0).1; (barrel_slot OOB barrels 1).1]).
Proof.
  unfold barrel_loop. simpl.
  by destruct (barrel_slot OOB barrels 0), (barrel_slot OOB barrels 1).
Qed.

(** A slot whose barrel has a path: its length, and the path padded. *)
Lemma barrel_slot_real OOB barrels b brl realPath :
  barrels !! b = Some brl → Barrel.path brl = Some realPath →
  barrel_slot OOB barrels b
    = (js_String (Z.of_nat (length realPath)),
       (encode <$> realPath) ++ replicate (16 - length realPath) OOB).
Proof.
  intros Hb Hpath. unfold barrel_slot.
  rewrite bool_decide_eq_true_2 by (by eapply lookup_lt_Some).
  by rewrite Hb, Hpath, padded_copy.
Qed.

(** A slot with no barrel, or a barrel with no path: the dummy. *)
Lemma barrel_slot_dummy OOB barrels b :
  barrels !! b ≫= Barrel.path = None →
  barrel_slot OOB barrels b = ("1", replicate 16 OOB).
Proof.
  intros Hb. unfold barrel_slot.
  assert (pad_to 16 OOB [] = replicate 16 OOB) as -> by (by rewrite pad_to_spec).
  case_bool_decide; [|done].
  destruct (barrels !! b) as [brl|]; [|done]. simpl in Hb. by rewrite Hb.
Qed.

(** An array property read as [a || []]: the array, or none when the
    property is missing. *)
Lemma js_or_empty_supplied {A} (a : option (list A)) (l : list A) :
  a = Some l ∨ (a = None ∧ l = []) → js_or_empty a = l.
Proof. by intros [->|[-> ->]]. Qed.

(** A list of two entries is its entries. *)
Lemma two_entries {A} (l : list A) (a b : A) :
  length l = 2 → l !! 0 = Some a → l !! 1 = Some b → l = [a; b].
Proof. destruct l as [|x [|y [|z l]]]; intros; by simplify_eq/=. Qed.

(** ** C1: the walls *)

(** C1. For a puzzle with [k ≤ 26] walls [ws] (none when the puzzle has no
    [walls] property), the [walls] of the returned input are 26 entries: for
    each wall in order the pair of the decimal strings of its [x] and its
    [y], then [26 - k] copies of the sentinel pair. *)
Theorem walls_padded_to_26 moves puzzle tick_count (ws : list Pos.t) :
  well_formed moves puzzle →
  Puzzle.walls puzzle = Some ws ∨ (Puzzle.walls puzzle = None ∧ ws = []) →
  length ws ≤ 26 →
  ∃ input,
    buildCircuitInput moves puzzle tick_count = Normal input ∧
    length (CircuitInput.walls input) = 26 ∧
    CircuitInput.walls input
      = ((λ w, (js_String (Pos.x w), js_String (Pos.y w))) <$> ws)
        ++ replicate (26 - length ws) (sentinel puzzle).
Proof.
  intros Hwf Hws%js_or_empty_supplied Hk.
  destruct (buildCircuitInput_returns moves puzzle tick_count Hwf) as [input Hin].
  exists input. split; [done|].
  destruct (buildCircuitInput_fields _ _ _ _ Hin) as (_ & _ & -> & _).
  rewrite Hws. split; [rewrite padded_copy_length; lia | apply padded_copy].
Qed.

(** ** C2: the barrel slots *)

(** C2. For a puzzle with the barrels [barrels] (none when the puzzle has
    no [moving_barrels] property), the returned input has two barrel paths
    and two path lengths. A slot whose barrel has a path holds the decimal
    string of the path's length and, for each step in order, the pair of the
    decimal strings of its [x] and its [y], padded with the sentinel up to
    16 steps; a slot with no barrel, or with a barrel that has no path,
    holds ["1"] and 16 copies of the sentinel. *)
Theorem barrel_slots_two moves puzzle tick_count (barrels : list Barrel.t) :
  well_formed moves puzzle →
  Puzzle.moving_barrels puzzle = Some barrels
    ∨ (Puzzle.moving_barrels puzzle = None ∧ barrels = []) →
  ∃ input,
    buildCircuitInput moves puzzle tick_count = Normal input ∧
    length (CircuitInput.barrel_paths input) = 2 ∧
    length (CircuitInput.barrel_path_lengths input) = 2 ∧
    (∀ b brl realPath,
       b < 2 → barrels !! b = Some brl → Barrel.path brl = Some realPath →
       CircuitInput.barrel_path_lengths input !! b
         = Some (js_String (Z.of_nat (length realPath))) ∧
       CircuitInput.barrel_paths input !! b
         = Some (((λ pos, (js_String (Pos.x pos), js_String (Pos.y pos))) <$> realPath)
                 ++ replicate (16 - length realPath) (sentinel puzzle))) ∧
    (∀ b,
       b < 2 →
       barrels !! b = None ∨ (∃ brl, barrels !! b = Some brl ∧ Barrel.path brl = None) →
       CircuitInput.barrel_path_lengths input !! b = Some "1" ∧
       CircuitInput.barrel_paths input !! b = Some (replicate 16 (sentinel puzzle))).
Proof.
  intros Hwf Hbarrels%js_or_empty_supplied.
  destruct (buildCircuitInput_returns moves puzzle tick_count Hwf) as [input Hin].
  exists input. split; [done|].
  destruct (buildCircuitInput_fields _ _ _ _ Hin) as (_ & _ & _ & _ & Hloop).
  rewrite Hbarrels, barrel_loop_slots in Hloop. injection Hloop as -> ->.
  split; [done|]. split; [done|]. split.
  - intros b brl realPath Hb Hbrl Hreal.
    destruct b as [|[|b]]; [| |lia]; simpl;
      by rewrite (barrel_slot_real _ _ _ _ _ Hbrl Hreal).
  - intros b Hb Hnone.
    assert (barrels !! b ≫= Barrel.path = None) as Hdummy.
    { destruct Hnone as [->|(brl & -> & Hpath)]; done. }
    destruct b as [|[|b]]; [| |lia]; simpl;
      by rewrite (barrel_slot_dummy _ _ _ Hdummy).
Qed.

Lemma walls_padded_to_26_witness :
  ∃ input,
    buildCircuitInput some_moves narrow_puzzle (Some 2%Z) = Normal input ∧
    length (CircuitInput.walls input) = 26 ∧
    CircuitInput.walls input = [("3", "4")] ++ replicate 25 ("9", "5").
Proof.
  apply (walls_padded_to_26 some_moves narrow_puzzle (Some 2%Z) [Pos.mk 3 4]).
  - unfold well_formed. simpl. eauto 10.
  - left. reflexivity.
  - simpl. lia.
Defined.

Lemma barrel_slots_two_witness :
  ∃ input,
    buildCircuitInput some_moves narrow_puzzle (Some 2%Z) = Normal input ∧
    CircuitInput.barrel_path_lengths input = ["2"; "1"] ∧
    CircuitInput.barrel_paths input
      = [[("1", "1"); ("2", "1")] ++ replicate 14 ("9", "5"); replicate 16 ("9", "5")].
Proof.
  destruct (barrel_slots_two some_moves narrow_puzzle (Some 2%Z)
              [Barrel.mk (Some [Pos.mk 1 1; Pos.mk 2 1])])
    as (input & Hin & Hpaths & Hlens & Hreal & Hdummy).
  - unfold well_formed. simpl. eauto 10.
  - left. reflexivity.
  - exists input. split; [exact Hin|].
    destruct (Hreal 0 (Barrel.mk (Some [Pos.mk 1 1; Pos.mk 2 1]))
                [Pos.mk 1 1; Pos.mk 2 1]) as [Hlen0 Hpath0];
      [lia|reflexivity|reflexivity|].
    destruct (Hdummy 1) as [Hlen1 Hpath1]; [lia|left; reflexivity|].
    split.
    + exact (two_entries _ _ _ Hlens Hlen0 Hlen1).
    + exact (two_entries _ _ _ Hpaths Hpath0 Hpath1).
Defined.

(** ** C3: the lengths of the arrays *)

(** C3 fails on a puzzle that holds more than the circuit has room for:
    with 27 walls, 9 static TNT and a barrel path of 17 steps the normaliser
    returns 27 walls, 9 static TNT and a path of 17 steps, where the claim,
    like the function's own comments, has 26, 8 and 16. *)
Lemma array_lengths_not_invariant :
  ∃ input,
    buildCircuitInput some_moves overfull_puzzle (Some 2%Z) = Normal input ∧
    length (CircuitInput.walls input) = 27 ∧
    length (CircuitInput.walls input) ≠ 26 ∧
    length (CircuitInput.static_tnt input) = 9 ∧
    length (CircuitInput.static_tnt input) ≠ 8 ∧
    length <$> CircuitInput.barrel_paths input = [17; 16] ∧
    length <$> CircuitInput.barrel_paths input ≠ [16; 16].
Proof. eexists. split; [reflexivity|]. vm_compute. repeat split; congruence. Qed.

(** ** C7: static TNT and barrel paths *)

(** C7. For a puzzle with [j ≤ 8] static TNT [tnt] (none when the puzzle
    has no [static_tnt] property), the [static_tnt] of the returned input
    are 8 entries: for each TNT in order the pair of the decimal strings of
    its [x] and its [y], then the sentinel; and the path of a slot whose
    barrel has a path of at most 16 steps is 16 entries: the steps as such
    pairs in order, then the sentinel. *)
Theorem static_tnt_and_paths_padded moves puzzle tick_count (tnt : list Pos.t) :
  well_formed moves puzzle →
  Puzzle.static_tnt puzzle = Some tnt ∨ (Puzzle.static_tnt puzzle = None ∧ tnt = []) →
  length tnt ≤ 8 →
  ∃ input,
    buildCircuitInput moves puzzle tick_count = Normal input ∧
    length (CircuitInput.static_tnt input) = 8 ∧
    CircuitInput.static_tnt input
      = ((λ t, (js_String (Pos.x t), js_String (Pos.y t))) <$> tnt)
        ++ replicate (8 - length tnt) (sentinel puzzle) ∧
    ∀ barrels b brl realPath,
      Puzzle.moving_barrels puzzle = Some barrels →
      b < 2 →
      barrels !! b = Some brl →
      Barrel.path brl = Some realPath →
      length realPath ≤ 16 →
      ∃ path,
        CircuitInput.barrel_paths input !! b = Some path ∧
        length path = 16 ∧
        path = ((λ pos, (js_String (Pos.x pos), js_String (Pos.y pos))) <$> realPath)
               ++ replicate (16 - length realPath) (sentinel puzzle).
Proof.
  intros Hwf Htnt%js_or_empty_supplied Hj.
  destruct (buildCircuitInput_returns moves puzzle tick_count Hwf) as [input Hin].
  exists input. split; [done|].
  destruct (buildCircuitInput_fields _ _ _ _ Hin) as (_ & _ & _ & -> & Hloop).
  rewrite barrel_loop_slots in Hloop. injection Hloop as -> _.
  rewrite Htnt.
  split; [rewrite padded_copy_length; lia|]. split; [apply padded_copy|].
  intros barrels b brl realPath Hbarrels Hb Hbrl Hpath Hlen.
  rewrite Hbarrels. eexists. split; [|split; [|done]].
  - destruct b as [|[|b]]; [| |lia]; simpl;
      by rewrite (barrel_slot_real _ _ _ _ _ Hbrl Hpath).
  - rewrite length_app, length_fmap, length_replicate. lia.
Qed.

Lemma static_tnt_and_paths_padded_witness :
  ∃ input,
    buildCircuitInput some_moves narrow_puzzle (Some 2%Z) = Normal input ∧
    CircuitInput.static_tnt input = [("5", "5")] ++ replicate 7 ("9", "5") ∧
    CircuitInput.barrel_paths input !! 0
      = Some ([("1", "1"); ("2", "1")] ++ replicate 14 ("9", "5")).
Proof.
  destruct (static_tnt_and_paths_padded some_moves narrow_puzzle (Some 2%Z) [Pos.mk 5 5])
    as (input & Hin & Hlen & Htnt & Hpaths).
  - unfold well_formed. simpl. eauto 10.
  - left. reflexivity.
  - simpl. lia.
  - exists input. split; [exact Hin|]. split; [exact Htnt|].
    destruct (Hpaths [Barrel.mk (Some [Pos.mk 1 1; Pos.mk 2 1])] 0
                (Barrel.mk (Some [Pos.mk 1 1; Pos.mk 2 1])) [Pos.mk 1 1; Pos.mk 2 1])
      as (path & Hpath & _ & ->); [reflexivity|lia|reflexivity|reflexivity|simpl; lia|].
    exact Hpath.
Defined.

(** ** C9: the grid dimensions and the bare level *)

(** C9. The emitted width and height are the puzzle's, and 11 and 7 when
    the puzzle has none. On an 11 x 7 puzzle with no wall, no TNT and no
    barrel, the walls are 26 copies of [("11", "7")], the TNT 8 copies, the
    path lengths [["1"; "1"]], and both paths 16 copies. *)
Theorem grid_defaults_and_bare_level moves puzzle tick_count :
  well_formed moves puzzle →
  ∃ input,
    buildCircuitInput moves puzzle tick_count = Normal input ∧
    (Puzzle.grid_width puzzle = None → CircuitInput.grid_width input = "11") ∧
    (Puzzle.grid_height puzzle = None → CircuitInput.grid_height input = "7") ∧
    (∀ w, Puzzle.grid_width puzzle = Some w → w ≠ 0%Z →
          CircuitInput.grid_width input = js_String w) ∧
    (∀ h, Puzzle.grid_height puzzle = Some h → h ≠ 0%Z →
          CircuitInput.grid_height input = js_String h) ∧
    (Puzzle.grid_width puzzle = Some 11%Z →
     Puzzle.grid_height puzzle = Some 7%Z →
     js_or_empty (Puzzle.walls puzzle) = [] →
     js_or_empty (Puzzle.static_tnt puzzle) = [] →
     js_or_empty (Puzzle.moving_barrels puzzle) = [] →
     CircuitInput.walls input = replicate 26 ("11", "7") ∧
     CircuitInput.static_tnt input = replicate 8 ("11", "7") ∧
     CircuitInput.barrel_path_lengths input = ["1"; "1"] ∧
     CircuitInput.barrel_paths input
       = [replicate 16 ("11", "7"); replicate 16 ("11", "7")]).
Proof.
  intros Hwf.
  destruct (buildCircuitInput_returns moves puzzle tick_count Hwf) as [input Hin].
  exists input. split; [done|].
  destruct (buildCircuitInput_fields _ _ _ _ Hin) as (-> & -> & -> & -> & Hloop).
  split; [by intros ->|]. split; [by intros ->|].
  split; [intros w -> Hw; simpl; by rewrite bool_decide_eq_false_2|].
  split; [intros h -> Hh; simpl; by rewrite bool_decide_eq_false_2|].
  intros Hgw Hgh Hwalls Htnt Hbarrels.
  rewrite Hbarrels, barrel_loop_slots in Hloop. injection Hloop as -> ->.
  rewrite Hwalls, Htnt, !padded_copy.
  rewrite !pad_to_spec. unfold sentinel. rewrite Hgw, Hgh. done.
Qed.

Lemma grid_defaults_and_bare_level_witness :
  ∃ input,
    buildCircuitInput some_moves bare_puzzle (Some 2%Z) = Normal input ∧
    (Puzzle.grid_width bare_puzzle = None → CircuitInput.grid_width input = "11") ∧
    (Puzzle.grid_height bare_puzzle = None → CircuitInput.grid_height input = "7") ∧
    (∀ w, Puzzle.grid_width bare_puzzle = Some w → w ≠ 0%Z →
          CircuitInput.grid_width input = js_String w) ∧
    (∀ h, Puzzle.grid_height bare_puzzle = Some h → h ≠ 0%Z →
          CircuitInput.grid_height input = js_String h) ∧
    (Puzzle.grid_width bare_puzzle = Some 11%Z →
     Puzzle.grid_height bare_puzzle = Some 7%Z →
     js_or_empty (Puzzle.walls bare_puzzle) = [] →
     js_or_empty (Puzzle.static_tnt bare_puzzle) = [] →
     js_or_empty (Puzzle.moving_barrels bare_puzzle) = [] →
     CircuitInput.walls input = replicate 26 ("11", "7") ∧
     CircuitInput.static_tnt input = replicate 8 ("11", "7") ∧
     CircuitInput.barrel_path_lengths input = ["1"; "1"] ∧
     CircuitInput.barrel_paths input
       = [replicate 16 ("11", "7"); replicate 16 ("11", "7")]).
Proof.
  apply (grid_defaults_and_bare_level some_moves bare_puzzle (Some 2%Z)).
  unfold well_formed. simpl. eauto 10.
Defined.

(** ** C10: a dimension of zero *)

(** C10. A width of 0 is taken as no width: the emitted width is ["11"], and
    so is the first half of the sentinel the walls and the TNT are padded
    with; likewise a height of 0 gives ["7"]. *)
Theorem zero_dimension_is_absent moves puzzle tick_count :
  well_formed moves puzzle →
  ∃ input,
    buildCircuitInput moves puzzle tick_count = Normal input ∧
    (Puzzle.grid_width puzzle = Some 0%Z →
     CircuitInput.grid_width input = "11" ∧ (sentinel puzzle).1 = "11") ∧
    (Puzzle.grid_height puzzle = Some 0%Z →
     CircuitInput.grid_height input = "7" ∧ (sentinel puzzle).2 = "7") ∧
    drop (length (js_or_empty (Puzzle.walls puzzle))) (CircuitInput.walls input)
      = replicate (26 - length (js_or_empty (Puzzle.walls puzzle))) (sentinel puzzle) ∧
    drop (length (js_or_empty (Puzzle.static_tnt puzzle))) (CircuitInput.static_tnt input)
      = replicate (8 - length (js_or_empty (Puzzle.static_tnt puzzle))) (sentinel puzzle).
Proof.
  intros Hwf.
  destruct (buildCircuitInput_returns moves puzzle tick_count Hwf) as [input Hin].
  exists input. split; [done|].
  destruct (buildCircuitInput_fields _ _ _ _ Hin) as (-> & -> & -> & -> & _).
  unfold sentinel. split; [by intros ->|]. split; [by intros ->|].
  rewrite !padded_copy.
  split; (rewrite drop_app_length'; [done|by rewrite length_fmap]).
Qed.

Lemma zero_dimension_is_absent_witness :
  ∃ input,
    buildCircuitInput some_moves (with_grid (Some 0%Z) (Some 0%Z) small_puzzle) (Some 2%Z)
      = Normal input ∧
    (Puzzle.grid_width (with_grid (Some 0%Z) (Some 0%Z) small_puzzle) = Some 0%Z →
     CircuitInput.grid_width input = "11" ∧
     (sentinel (with_grid (Some 0%Z) (Some 0%Z) small_puzzle)).1 = "11") ∧
    (Puzzle.grid_height (with_grid (Some 0%Z) (Some 0%Z) small_puzzle) = Some 0%Z →
     CircuitInput.grid_height input = "7" ∧
     (sentinel (with_grid (Some 0%Z) (Some 0%Z) small_puzzle)).2 = "7") ∧
    drop (length (js_or_empty (Puzzle.walls (with_grid (Some 0%Z) (Some 0%Z) small_puzzle))))
         (CircuitInput.walls input)
      = replicate
          (26 - length (js_or_empty
                          (Puzzle.walls (with_grid (Some 0%Z) (Some 0%Z) small_puzzle))))
          (sentinel (with_grid (Some 0%Z) (Some 0%Z) small_puzzle)) ∧
    drop (length (js_or_empty
                    (Puzzle.static_tnt (with_grid (Some 0%Z) (Some 0%Z) small_puzzle))))
         (CircuitInput.static_tnt input)
      = replicate
          (8 - length (js_or_empty
                         (Puzzle.static_tnt (with_grid (Some 0%Z) (Some 0%Z) small_puzzle))))
          (sentinel (with_grid (Some 0%Z) (Some 0%Z) small_puzzle)).
Proof.
  apply (zero_dimension_is_absent some_moves
           (with_grid (Some 0%Z) (Some 0%Z) small_puzzle) (Some 2%Z)).
  unfold well_formed. simpl. eauto 10.
Defined.

(** ** The normaliser on the store: proofs *)

Lemma wp_ret {A} (a : A) σ Q : Q (Normal a) σ → wp (mret a) σ Q.
Proof. done. Qed.

Lemma wp_bind {A B} (m : HeapM A) (k : A → HeapM B) σ Q :
  wp m σ (λ r σ', match r with
                  | Normal a => wp (k a) σ' Q
                  | Throw e => Q (Throw e) σ'
                  end) →
  wp (m ≫= k) σ Q.
Proof.
  unfold wp, mbind, HeapM_bind. destruct (m σ) as [[[a|e] σ']|]; done.
Qed.

Lemma wp_mono {A} (m : HeapM A) σ (Q Q' : completion A → store → Prop) :
  wp m σ Q → (∀ r σ', Q r σ' → Q' r σ') → wp m σ Q'.
Proof. unfold wp. destruct (m σ) as [[r σ']|]; [auto | done]. Qed.

Lemma wp_alloc a σ Q : Q (Normal (length σ)) (σ ++ [a]) → wp (alloc a) σ Q.
Proof. done. Qed.

Lemma wp_read l a σ Q : σ !! l = Some a → Q (Normal a) σ → wp (read l) σ Q.
Proof. unfold wp, read. by intros ->. Qed.

Lemma wp_push l v a σ Q :
  σ !! l = Some a → Q (Normal tt) (<[l := a ++ [v]]> σ) → wp (push l v) σ Q.
Proof. unfold wp, push. by intros ->. Qed.

Lemma wp_length_of l a σ Q :
  σ !! l = Some a → Q (Normal (length a)) σ → wp (length_of l) σ Q.
Proof. intros Hl HQ. apply wp_bind. by apply (wp_read l a). Qed.

Lemma grows_at_refl out τ : grows_at out τ τ.
Proof. by split. Qed.

Lemma grows_at_trans out τ1 τ2 τ3 :
  grows_at out τ1 τ2 → grows_at out τ2 τ3 → grows_at out τ1 τ3.
Proof.
  intros [Hlen1 H1] [Hlen2 H2]. split; [lia |].
  intros k Hk Hne. rewrite H2, H1 by (done || lia). done.
Qed.

Lemma grows_at_alloc out τ a : grows_at out τ (τ ++ [a]).
Proof.
  split; [rewrite length_app; lia |].
  intros k Hk _. by rewrite lookup_app_l.
Qed.

Lemma grows_at_push out τ x : grows_at out τ (<[out := x]> τ).
Proof.
  split; [by rewrite length_insert |].
  intros k _ Hne. by rewrite list_lookup_insert_ne.
Qed.

(** The copy loop: it appends to [out] one reference per element of [src]
    left to visit, each to a fresh array holding the element encoded, and
    changes nothing else. *)
Lemma for_of_from_spec ps : ∀ fuel src i out τ a o,
  src ≠ out →
  τ !! src = Some a →
  drop i a = VPos <$> ps →
  length ps ≤ fuel →
  τ !! out = Some o →
  wp (for_of_from fuel src i (push_encoded_h out)) τ (λ r τ',
    r = Normal tt ∧ grows_at out τ τ' ∧
    ∃ refs, τ' !! out = Some (o ++ (VRef <$> refs)) ∧
      Forall2 (λ r p, length τ ≤ r < length τ' ∧ r ≠ out ∧
                      τ' !! r = Some (cell_val (encode p))) refs ps).
Proof.
  induction ps as [|p ps IH]; intros fuel src i out τ a o Hne Hsrc Hdrop Hfuel Hout.
  - assert (a !! i = None) as Hi.
    { rewrite <- (Nat.add_0_r i), <- lookup_drop, Hdrop. done. }
    destruct fuel; simpl; apply wp_bind, (wp_read src a); try done;
      rewrite Hi; apply wp_ret; (split; [done|]); (split; [apply grows_at_refl|]);
      exists []; rewrite app_nil_r; by split.
  - assert (a !! i = Some (VPos p)) as Hi.
    { rewrite <- (Nat.add_0_r i), <- lookup_drop, Hdrop. done. }
    destruct fuel as [|fuel]; [simpl in Hfuel; lia|]. simpl.
    apply wp_bind, (wp_read src a); [done|]. rewrite Hi.
    apply wp_bind. unfold push_encoded_h.
    apply wp_bind, wp_alloc.
    assert (out < length τ) as Hout_lt by (by eapply lookup_lt_Some).
    assert (src < length τ) as Hsrc_lt by (by eapply lookup_lt_Some).
    apply (wp_push _ _ o); [by rewrite lookup_app_l|].
    set (τ1 := <[out := o ++ [VRef (length τ)]]> (τ ++ [_])).
    assert (length τ1 = S (length τ)) as Hlen1.
    { unfold τ1. rewrite length_insert, length_app. simpl. lia. }
    eapply wp_mono.
    + apply (IH fuel src (S i) out τ1 a (o ++ [VRef (length τ)])); [done| | |simpl in Hfuel; lia|].
      * unfold τ1. rewrite list_lookup_insert_ne by done. by rewrite lookup_app_l.
      * replace (S i) with (i + 1) by lia. rewrite <- drop_drop, Hdrop. done.
      * unfold τ1. apply list_lookup_insert_eq. rewrite length_app. simpl. lia.
    + intros r τ' (-> & [Hlen Hgrow] & refs & Hout' & Hrefs). simpl.
      split; [done|]. split.
      { split; [lia|]. intros k Hk Hkne. rewrite Hgrow by lia.
        unfold τ1. rewrite list_lookup_insert_ne by done. by rewrite lookup_app_l. }
      exists (length τ :: refs). split.
      { rewrite Hout', <- app_assoc. done. }
      constructor.
      * split; [lia|]. split; [lia|]. rewrite Hgrow by lia.
        unfold τ1. rewrite list_lookup_insert_ne by lia.
        rewrite lookup_app_r by lia. rewrite Nat.sub_diag. done.
      * eapply Forall2_impl; [exact Hrefs|]. simpl. intros r c (? & ? & ?).
        split; [lia|done].
Qed.

Lemma fresh_cells_grows out τ0 τ τ' refs cs :
  length τ0 ≤ length τ →
  fresh_cells out τ0 τ refs cs → grows_at out τ τ' → fresh_cells out τ0 τ' refs cs.
Proof.
  intros Hlen0 Hrefs [Hlen Hgrow]. eapply Forall2_impl; [exact Hrefs|].
  simpl. intros r c (? & ? & ?). split; [lia|]. split; [done|].
  rewrite Hgrow by (done || lia). done.
Qed.

Lemma fresh_cells_app out τ τ1 τ2 refs1 refs2 cs1 cs2 :
  fresh_cells out τ τ1 refs1 cs1 → grows_at out τ1 τ2 → length τ ≤ length τ1 →
  fresh_cells out τ1 τ2 refs2 cs2 →
  fresh_cells out τ τ2 (refs1 ++ refs2) (cs1 ++ cs2).
Proof.
  intros H1 Hg Hlen H2. apply Forall2_app.
  - by eapply fresh_cells_grows.
  - eapply Forall2_impl; [exact H2|]. simpl. intros r c (? & ? & ?).
    split; [lia|done].
Qed.

(** The padding loop: it appends to [out] references to [d] fresh copies of
    the array at [OOB], where [d] is what [out] lacks to [cap]. *)
Lemma while_short_spec d : ∀ fuel out cap OOB τ o c,
  OOB ≠ out →
  τ !! OOB = Some (cell_val c) →
  τ !! out = Some o →
  d = cap - length o →
  d ≤ fuel →
  wp (while_short fuel out cap (c ← slice OOB; push out (VRef c))) τ (λ r τ',
    r = Normal tt ∧ grows_at out τ τ' ∧
    ∃ refs, τ' !! out = Some (o ++ (VRef <$> refs)) ∧
            fresh_cells out τ τ' refs (replicate d c)).
Proof.
  induction d as [|d IH]; intros fuel out cap OOB τ o c Hne HOOB Hout Hd Hfuel.
  - destruct fuel; simpl; apply wp_bind, (wp_length_of out o); try done;
      rewrite bool_decide_eq_false_2 by lia; apply wp_ret;
      (split; [done|]); (split; [apply grows_at_refl|]);
      exists []; rewrite app_nil_r; (split; [done|constructor]).
  - destruct fuel as [|fuel]; [lia|]. simpl.
    apply wp_bind, (wp_length_of out o); [done|].
    rewrite bool_decide_eq_true_2 by lia.
    assert (out < length τ) as Hout_lt by (by eapply lookup_lt_Some).
    assert (OOB < length τ) as HOOB_lt by (by eapply lookup_lt_Some).
    apply wp_bind, wp_bind. unfold slice.
    apply wp_bind, (wp_read OOB (cell_val c)); [done|].
    apply wp_alloc.
    apply (wp_push _ _ o); [by rewrite lookup_app_l|].
    set (τ1 := <[out := o ++ [VRef (length τ)]]> (τ ++ [_])).
    assert (length τ1 = S (length τ)) as Hlen1.
    { unfold τ1. rewrite length_insert, length_app. simpl. lia. }
    eapply wp_mono.
    + apply (IH fuel out cap OOB τ1 (o ++ [VRef (length τ)]) c); [done| | | |lia].
      * unfold τ1. rewrite list_lookup_insert_ne by done. by rewrite lookup_app_l.
      * unfold τ1. apply list_lookup_insert_eq. rewrite length_app. simpl. lia.
      * rewrite length_app. simpl. lia.
    + intros r τ' (-> & [Hlen Hgrow] & refs & Hout' & Hrefs). simpl.
      split; [done|]. split.
      { split; [lia|]. intros k Hk Hkne. rewrite Hgrow by lia.
        unfold τ1. rewrite list_lookup_insert_ne by done. by rewrite lookup_app_l. }
      exists (length τ :: refs). split.
      { rewrite Hout', <- app_assoc. done. }
      constructor.
      * split; [lia|]. split; [lia|]. rewrite Hgrow by lia.
        unfold τ1. rewrite list_lookup_insert_ne by lia.
        rewrite lookup_app_r by lia. rewrite Nat.sub_diag. done.
      * eapply Forall2_impl; [exact Hrefs|]. simpl. intros r c' (? & ? & ?).
        split; [lia|done].
Qed.

Lemma pad_to_h_spec cap OOB out τ o c :
  OOB ≠ out →
  τ !! OOB = Some (cell_val c) →
  τ !! out = Some o →
  wp (pad_to_h cap OOB out) τ (λ r τ',
    r = Normal tt ∧ grows_at out τ τ' ∧
    ∃ refs, τ' !! out = Some (o ++ (VRef <$> refs)) ∧
            fresh_cells out τ τ' refs (replicate (cap - length o) c)).
Proof.
  intros Hne HOOB Hout. unfold pad_to_h.
  apply wp_bind, (wp_length_of out o); [done|].
  by apply (while_short_spec (cap - length o)).
Qed.

Lemma mapM_load_pos a ps : mapM load_pos a = Some ps → a = VPos <$> ps.
Proof.
  rewrite mapM_Some. induction 1 as [|v p a ps Hv _ IH]; [done|].
  destruct v; simplify_eq/=. by f_equal.
Qed.

Lemma mapM_load_pos_fmap ps : mapM load_pos (VPos <$> ps) = Some ps.
Proof. apply mapM_Some. induction ps; constructor; done. Qed.

(** [for (const w of (src || [])) out.push(...)] *)
Lemma copy_h_spec src out τ o ps :
  load_array τ load_pos src = Some ps →
  τ !! out = Some o →
  (∀ l, src = Some l → l ≠ out) →
  wp (copy_h src out) τ (λ r τ',
    r = Normal tt ∧ grows_at out τ τ' ∧
    ∃ refs, τ' !! out = Some (o ++ (VRef <$> refs)) ∧
            fresh_cells out τ τ' refs (encode <$> js_or_empty ps)).
Proof.
  intros Hload Hout Hne. unfold copy_h.
  assert (out < length τ) as Hout_lt by (by eapply lookup_lt_Some).
  destruct src as [l|]; simpl in Hload.
  - destruct (τ !! l) as [a|] eqn:Hl; [|done]. simpl in Hload.
    destruct (mapM load_pos a) as [ps'|] eqn:Hps; simplify_eq/=.
    apply mapM_load_pos in Hps as ->.
    apply wp_bind, wp_ret. unfold for_of.
    apply wp_bind, (wp_length_of l (VPos <$> ps')); [done|].
    eapply wp_mono.
    + apply (for_of_from_spec ps' _ l 0 out τ (VPos <$> ps') o); try done.
      * by apply Hne.
      * by rewrite length_fmap.
    + intros r τ' (-> & Hgrow & refs & Hout' & Hrefs). split; [done|].
      split; [done|]. exists refs. split; [done|].
      unfold fresh_cells. by apply Forall2_fmap_r.
  - simplify_eq/=. apply wp_bind, wp_alloc. unfold for_of.
    apply wp_bind, (wp_length_of (length τ) []).
    { rewrite lookup_app_r by lia. by rewrite Nat.sub_diag. }
    simpl. apply wp_bind, (wp_read (length τ) []).
    { rewrite lookup_app_r by lia. by rewrite Nat.sub_diag. }
    simpl. apply wp_ret. split; [done|]. split; [apply grows_at_alloc|].
    exists []. rewrite app_nil_r. split; [by rewrite lookup_app_l|constructor].
Qed.

Lemma agree_prefix {A} (τ τ' : list A) :
  length τ ≤ length τ' → (∀ k, k < length τ → τ' !! k = τ !! k) → τ `prefix_of` τ'.
Proof.
  intros Hlen Hagree. exists (drop (length τ) τ').
  rewrite <- (take_drop (length τ) τ') at 1. f_equal.
  apply list_eq. intros k. destruct (decide (k < length τ)) as [Hk|Hk].
  - rewrite lookup_take_lt by done. by apply Hagree.
  - rewrite lookup_take_ge by lia. symmetry. apply lookup_ge_None. lia.
Qed.

Lemma prefix_agree {A} (τ τ' : list A) k :
  τ `prefix_of` τ' → k < length τ → τ' !! k = τ !! k.
Proof. intros [ext ->] Hk. by rewrite lookup_app_l. Qed.

Lemma load_cell_at τ r c : τ !! r = Some (cell_val c) → load_cell τ (VRef r) = Some c.
Proof. intros Hall. simpl. rewrite Hall. by destruct c. Qed.

Lemma load_cell_prefix τ τ' v c :
  τ `prefix_of` τ' → load_cell τ v = Some c → load_cell τ' v = Some c.
Proof.
  intros Hpre. destruct v as [| | | |l]; try done. simpl.
  destruct (τ !! l) as [a|] eqn:Hl; [|done].
  by rewrite (prefix_lookup_Some _ _ _ _ Hl Hpre).
Qed.

Lemma mapM_impl {A B} (f g : A → option B) l k :
  (∀ x y, f x = Some y → g x = Some y) → mapM f l = Some k → mapM g l = Some k.
Proof.
  intros Hfg. rewrite !mapM_Some. intros Hall. eapply Forall2_impl; [exact Hall|]. done.
Qed.

Lemma load_cells_prefix τ τ' v cs :
  τ `prefix_of` τ' → load_cells τ v = Some cs → load_cells τ' v = Some cs.
Proof.
  intros Hpre. destruct v as [| | | |l]; try done. simpl.
  destruct (τ !! l) as [a|] eqn:Hl; [|done].
  rewrite (prefix_lookup_Some _ _ _ _ Hl Hpre). simpl.
  apply mapM_impl. intros ??. by apply load_cell_prefix.
Qed.

Lemma load_array_impl {A} τ τ' (f g : val → option A) l x :
  τ `prefix_of` τ' → (∀ v y, f v = Some y → g v = Some y) →
  load_array τ f l = Some x → load_array τ' g l = Some x.
Proof.
  intros Hpre Hfg. destruct l as [l|]; [|done]. simpl.
  destruct (τ !! l) as [a|] eqn:Hl; [|done].
  rewrite (prefix_lookup_Some _ _ _ _ Hl Hpre). simpl.
  destruct (mapM f a) as [k|] eqn:Hk; [|done].
  by rewrite (mapM_impl f g a k Hfg Hk).
Qed.

Lemma load_barrel_prefix τ τ' v b :
  τ `prefix_of` τ' → load_barrel τ v = Some b → load_barrel τ' v = Some b.
Proof.
  intros Hpre. destruct v as [| | |path|]; try done. simpl.
  destruct (load_array τ load_pos path) as [x|] eqn:Hx; [|done].
  by rewrite (load_array_impl τ τ' load_pos load_pos path x Hpre).
Qed.

Lemma load_puzzle_prefix τ τ' pr p :
  τ `prefix_of` τ' → load_puzzle τ pr = Some p → load_puzzle τ' pr = Some p.
Proof.
  intros Hpre. unfold load_puzzle.
  destruct (load_array τ load_pos (PuzzleRef.walls pr)) as [w|] eqn:Hw; [|done].
  destruct (load_array τ load_pos (PuzzleRef.static_tnt pr)) as [t|] eqn:Ht; [|done].
  destruct (load_array τ (load_barrel τ) (PuzzleRef.moving_barrels pr)) as [b|] eqn:Hb;
    [|done].
  rewrite (load_array_impl τ τ' load_pos load_pos (PuzzleRef.walls pr) w Hpre) by done.
  rewrite (load_array_impl τ τ' load_pos load_pos (PuzzleRef.static_tnt pr) t Hpre) by done.
  rewrite (load_array_impl τ τ' (load_barrel τ) (load_barrel τ') _ b Hpre).
  - done.
  - intros ??. by apply load_barrel_prefix.
  - done.
Qed.

Lemma built_in_load lo τ l cs : built_in lo τ l cs → load_cells τ (VRef l) = Some cs.
Proof.
  intros (_ & refs & Hl & Hrefs). simpl. rewrite Hl. simpl.
  apply mapM_Some, Forall2_fmap_l.
  eapply Forall2_impl; [exact Hrefs|]. simpl. intros r c [_ ?]. by apply load_cell_at.
Qed.

Lemma built_in_agree lo τ τ' l cs :
  built_in lo τ l cs → (∀ k, lo ≤ k → k < length τ → τ' !! k = τ !! k) →
  built_in lo τ' l cs.
Proof.
  intros (Hlo & refs & Hl & Hrefs) Hagree. split; [done|]. exists refs. split.
  - rewrite Hagree; [done..|]. by eapply lookup_lt_Some.
  - eapply Forall2_impl; [exact Hrefs|]. simpl. intros r c [? Hr].
    split; [done|]. rewrite Hagree; [done..|]. by eapply lookup_lt_Some.
Qed.

Lemma fresh_cells_built out τ τ' refs cs :
  length τ ≤ out + 1 → out ≤ length τ →
  τ' !! out = Some (VRef <$> refs) → fresh_cells out τ τ' refs cs →
  built_in out τ' out cs.
Proof.
  intros Hlo Hhi Hout Hrefs. split; [done|]. exists refs. split; [done|].
  eapply Forall2_impl; [exact Hrefs|]. simpl. intros r c (? & ? & ?). split; [lia|done].
Qed.

(** [for (const w of src) out.push(...)] over an array of coordinates. *)
Lemma for_of_spec src out τ o ps :
  τ !! src = Some (VPos <$> ps) →
  τ !! out = Some o →
  src ≠ out →
  wp (for_of src (push_encoded_h out)) τ (λ r τ',
    r = Normal tt ∧ grows_at out τ τ' ∧
    ∃ refs, τ' !! out = Some (o ++ (VRef <$> refs)) ∧
            fresh_cells out τ τ' refs (encode <$> ps)).
Proof.
  intros Hsrc Hout Hne. unfold for_of.
  apply wp_bind, (wp_length_of src (VPos <$> ps)); [done|].
  eapply wp_mono.
  - apply (for_of_from_spec ps _ src 0 out τ (VPos <$> ps) o); try done.
    by rewrite length_fmap.
  - intros r τ' (-> & Hgrow & refs & Hout' & Hrefs). split; [done|].
    split; [done|]. exists refs. split; [done|].
    unfold fresh_cells. by apply Forall2_fmap_r.
Qed.

(** One array of the result, from its allocation to the end of its
    padding: the store only gains arrays, and the new array reads back as
    the list the pure normaliser builds. *)
Lemma array_phase_spec {A} cap OOB src c ps (k : loc → HeapM A) τ Q :
  τ !! OOB = Some (cell_val c) →
  load_array τ load_pos src = Some ps →
  (∀ τ', τ `prefix_of` τ' → length τ < length τ' →
         load_cells τ' (VRef (length τ))
           = Some (pad_to cap c (push_encoded (js_or_empty ps) [])) →
         wp (k (length τ)) τ' Q) →
  wp (out ← alloc []; copy_h src out;; pad_to_h cap OOB out;; k out) τ Q.
Proof.
  intros HOOB Hsrc Hk.
  assert (OOB < length τ) as HOOB_lt by (by eapply lookup_lt_Some).
  apply wp_bind, wp_alloc. set (out := length τ). set (τa := τ ++ [[]]).
  assert (τ `prefix_of` τa) as Hpre_a by (by exists [[]]).
  assert (τa !! out = Some []) as Hout_a.
  { unfold τa, out. rewrite lookup_app_r by lia. by rewrite Nat.sub_diag. }
  apply wp_bind. eapply wp_mono.
  { apply (copy_h_spec src out τa [] ps); [|done|].
    - by apply (load_array_impl τ τa load_pos load_pos).
    - intros l ->. simpl in Hsrc. destruct (τ !! l) eqn:Hl; [|done].
      apply lookup_lt_Some in Hl. unfold out. lia. }
  intros r τb (-> & Hgrow_b & refs1 & Hout_b & Hrefs1). simpl in Hout_b.
  apply wp_bind. eapply wp_mono.
  { apply (pad_to_h_spec cap OOB out τb (VRef <$> refs1) c); [unfold out; lia| |done].
    destruct Hgrow_b as [Hlen_b Hagree_b]. rewrite Hagree_b.
    - unfold τa. by rewrite lookup_app_l.
    - unfold τa. rewrite length_app. simpl. lia.
    - unfold out. lia. }
  intros r τc (-> & Hgrow_c & refs2 & Hout_c & Hrefs2).
  assert (length τa = S (length τ)) as Hlen_a.
  { unfold τa. rewrite length_app. simpl. lia. }
  pose proof (grows_at_trans _ _ _ _ Hgrow_b Hgrow_c) as [Hlen Hagree].
  apply Hk.
  - apply agree_prefix; [lia|]. intros k' Hk'. rewrite Hagree by (unfold out; lia).
    unfold τa. by rewrite lookup_app_l.
  - lia.
  - apply (built_in_load out). rewrite push_encoded_spec, pad_to_spec. simpl.
    rewrite length_fmap in *.
    apply (fresh_cells_built out τa τc (refs1 ++ refs2)); [unfold out; lia|unfold out; lia| |].
    + by rewrite Hout_c, fmap_app.
    + pose proof (Forall2_length _ _ _ Hrefs1) as Hlen1.
      rewrite length_fmap in Hlen1. rewrite length_fmap, Hlen1 in Hrefs2.
      apply (fresh_cells_app out τa τb τc); try done. apply Hgrow_b.
Qed.

(** What slot [b] finds in the barrel array, against the pure slot. *)
Lemma barrel_slot_lookup σb a bs b c :
  mapM (load_barrel σb) a = Some bs →
  length a = length bs ∧
  (b < length a →
   ∃ v, a !! b = Some v ∧
     match prop_path v with
     | Some rp => ∃ ps, σb !! rp = Some (VPos <$> ps) ∧
         barrel_slot c bs b
           = (js_String (Z.of_nat (length ps)), pad_to 16 c (push_encoded ps []))
     | None => barrel_slot c bs b = ("1", pad_to 16 c [])
     end) ∧
  (¬ b < length a → barrel_slot c bs b = ("1", pad_to 16 c [])).
Proof.
  intros Hload%mapM_Some. pose proof (Forall2_length _ _ _ Hload) as Hlen.
  split; [done|]. split.
  - intros Hb. destruct (lookup_lt_is_Some_2 a b Hb) as [v Hv].
    destruct (Forall2_lookup_l _ _ _ _ _ Hload Hv) as (brl & Hbrl & Hvb).
    exists v. split; [done|]. unfold barrel_slot.
    rewrite bool_decide_eq_true_2 by lia. rewrite Hbrl.
    destruct v as [| | |path|]; try done. simpl in *.
    destruct path as [rp|]; simpl in *.
    + destruct (σb !! rp) as [a'|] eqn:Hrp; [|done]. simpl in Hvb.
      destruct (mapM load_pos a') as [ps|] eqn:Hps; [|done].
      apply mapM_load_pos in Hps as ->. simplify_eq/=. by exists ps.
    + by simplify_eq/=.
  - intros Hb. unfold barrel_slot. by rewrite bool_decide_eq_false_2 by lia.
Qed.

(** One turn of the barrel loop: it builds the slot's path in a fresh
    array, and appends to [barrel_paths] and [barrel_path_lengths] what the
    pure slot computes; no other array changes. *)
Lemma barrel_slot_h_spec OOB barrels bp bpl b c σb a bs τ x y :
  σb `prefix_of` τ →
  σb !! barrels = Some a →
  mapM (load_barrel σb) a = Some bs →
  τ !! OOB = Some (cell_val c) →
  τ !! bp = Some x →
  τ !! bpl = Some y →
  length σb ≤ bp → length σb ≤ bpl → bp ≠ bpl → OOB ≠ bpl →
  wp (barrel_slot_h OOB barrels bp bpl b) τ (λ r τ',
    r = Normal tt ∧ length τ < length τ' ∧
    (∀ k, k < length τ → k ≠ bp → k ≠ bpl → τ' !! k = τ !! k) ∧
    τ' !! bp = Some (x ++ [VRef (length τ)]) ∧
    τ' !! bpl = Some (y ++ [VStr (barrel_slot c bs b).1]) ∧
    built_in (length τ) τ' (length τ) (barrel_slot c bs b).2).
Proof.
  intros Hpre Hbarrels Hload HOOB Hbp Hbpl Hbp_lo Hbpl_lo Hne HOOBne.
  destruct (barrel_slot_lookup σb a bs b c Hload) as (Hlen & Hreal & Hdummy).
  assert (OOB < length τ) as HOOB_lt by (by eapply lookup_lt_Some).
  assert (bp < length τ) as Hbp_lt by (by eapply lookup_lt_Some).
  assert (bpl < length τ) as Hbpl_lt by (by eapply lookup_lt_Some).
  assert (barrels < length σb) as Hbarrels_lt by (by eapply lookup_lt_Some).
  assert (length σb ≤ length τ) as Hσb by (by apply prefix_length).
  unfold barrel_slot_h.
  apply wp_bind, wp_alloc. set (path := length τ). set (τa := τ ++ [[]]).
  assert (length τa = S (length τ)) as Hlen_a.
  { unfold τa. rewrite length_app. simpl. lia. }
  assert (∀ k, k < length τ → τa !! k = τ !! k) as Hagree_a.
  { intros k Hk. unfold τa. by rewrite lookup_app_l. }
  assert (τa !! path = Some []) as Hpath_a.
  { unfold τa, path. rewrite lookup_app_r by lia. by rewrite Nat.sub_diag. }
  assert (∀ k v, σb !! k = Some v → τa !! k = Some v) as Hbase.
  { intros k v Hk. rewrite Hagree_a.
    - by eapply prefix_lookup_Some.
    - apply lookup_lt_Some in Hk. lia. }
  apply wp_bind, (wp_length_of barrels a); [by apply Hbase|].
  (* the slot's own path and length, in a store where only [bpl] and
     [path] have changed *)
  set (P := λ (ps : list Pos.t) (len : string) (τ3 : store),
    length τa ≤ length τ3 ∧
    (∀ k, k < length τa → k ≠ path → k ≠ bpl → τ3 !! k = τa !! k) ∧
    τ3 !! bpl = Some (y ++ [VStr len]) ∧
    ∃ refs, τ3 !! path = Some (VRef <$> refs) ∧
            fresh_cells path τa τ3 refs (encode <$> ps)).
  assert (∀ τ3 ps len, P ps len τ3 →
    barrel_slot c bs b = (len, pad_to 16 c (push_encoded ps [])) →
    wp (pad_to_h 16 OOB path;; push bp (VRef path)) τ3 (λ r τ',
      r = Normal tt ∧ length τ < length τ' ∧
      (∀ k, k < length τ → k ≠ bp → k ≠ bpl → τ' !! k = τ !! k) ∧
      τ' !! bp = Some (x ++ [VRef (length τ)]) ∧
      τ' !! bpl = Some (y ++ [VStr (barrel_slot c bs b).1]) ∧
      built_in (length τ) τ' (length τ) (barrel_slot c bs b).2)) as Htail.
  { intros τ3 ps len (Hlen3 & Hagree3 & Hbpl3 & refs1 & Hpath3 & Hrefs1) ->. simpl.
    apply wp_bind. eapply wp_mono.
    { apply (pad_to_h_spec 16 OOB path τ3 (VRef <$> refs1) c);
        [unfold path; lia| |done].
      rewrite Hagree3, Hagree_a by (unfold path; lia). done. }
    intros r τ4 (-> & [Hlen4 Hagree4] & refs2 & Hpath4 & Hrefs2).
    apply (wp_push _ _ x).
    { rewrite Hagree4, Hagree3, Hagree_a by (unfold path; lia). done. }
    split; [done|]. rewrite length_insert. split; [lia|]. split; [|split; [|split]].
    - intros k Hk Hk1 Hk2. rewrite list_lookup_insert_ne by done.
      rewrite Hagree4, Hagree3, Hagree_a by (unfold path; lia). done.
    - apply list_lookup_insert_eq. lia.
    - rewrite list_lookup_insert_ne by done.
      rewrite Hagree4 by (unfold path; lia). done.
    - apply (built_in_agree _ τ4).
      2:{ intros k Hk1 Hk2. rewrite list_lookup_insert_ne by lia. done. }
      rewrite push_encoded_spec, pad_to_spec. simpl. rewrite length_fmap.
      pose proof (Forall2_length _ _ _ Hrefs1) as Hlen1.
      rewrite length_fmap in Hlen1. rewrite length_fmap, Hlen1 in Hrefs2.
      apply (fresh_cells_built path τa τ4 (refs1 ++ refs2));
        [unfold path; lia|unfold path; lia| |].
      + by rewrite Hpath4, fmap_app.
      + by apply (fresh_cells_app path τa τ3 τ4). }
  (* the dummy slot *)
  assert (barrel_slot c bs b = ("1", pad_to 16 c []) →
    wp (push bpl (VStr "1");; pad_to_h 16 OOB path;; push bp (VRef path)) τa (λ r τ',
      r = Normal tt ∧ length τ < length τ' ∧
      (∀ k, k < length τ → k ≠ bp → k ≠ bpl → τ' !! k = τ !! k) ∧
      τ' !! bp = Some (x ++ [VRef (length τ)]) ∧
      τ' !! bpl = Some (y ++ [VStr (barrel_slot c bs b).1]) ∧
      built_in (length τ) τ' (length τ) (barrel_slot c bs b).2)) as Hdummy_run.
  { intros Hslot. apply wp_bind, (wp_push _ _ y); [by rewrite Hagree_a|].
    apply (Htail _ [] "1"); [|done]. unfold P. rewrite length_insert.
    split; [done|]. split; [|split].
    - intros k Hk Hk1 Hk2. by rewrite list_lookup_insert_ne.
    - apply list_lookup_insert_eq. lia.
    - exists []. split; [|constructor].
      rewrite list_lookup_insert_ne by (unfold path; lia). done. }
  case_bool_decide as Hb.
  - destruct (Hreal Hb) as (v & Hv & Hcase).
    apply wp_bind, wp_bind, (wp_read barrels a); [by apply Hbase|].
    rewrite Hv. apply wp_ret.
    destruct (prop_path v) as [rp|].
    + destruct Hcase as (ps & Hrp & Hslot).
      assert (rp < length σb) as Hrp_lt by (by eapply lookup_lt_Some).
      apply wp_bind, wp_bind, (wp_length_of rp (VPos <$> ps)); [by apply Hbase|].
      rewrite length_fmap.
      apply wp_bind, (wp_push _ _ y); [by rewrite Hagree_a|].
      set (τ2 := <[bpl := _]> τa).
      eapply wp_mono.
      { apply (for_of_spec rp path τ2 [] ps).
        - unfold τ2. rewrite list_lookup_insert_ne by lia. by apply Hbase.
        - unfold τ2. rewrite list_lookup_insert_ne by (unfold path; lia). done.
        - unfold path. lia. }
      intros r τ3 (-> & [Hlen3 Hagree3] & refs & Hpath3 & Hrefs).
      unfold τ2 in Hlen3, Hagree3. rewrite length_insert in Hlen3, Hagree3.
      apply (Htail _ ps (js_String (Z.of_nat (length ps)))); [|done].
      split; [done|]. split; [|split].
      * intros k Hk Hk1 Hk2. rewrite Hagree3 by done.
        by rewrite list_lookup_insert_ne.
      * rewrite Hagree3 by (unfold path; lia). apply list_lookup_insert_eq. lia.
      * exists refs. split; [done|].
        eapply Forall2_impl; [exact Hrefs|]. simpl. unfold τ2.
        by rewrite length_insert.
    + by apply Hdummy_run.
  - apply wp_bind, wp_ret. apply Hdummy_run. by apply Hdummy.
Qed.

Lemma load_strs_prefix τ τ' l ss :
  τ `prefix_of` τ' → load_strs τ l = Some ss → load_strs τ' l = Some ss.
Proof.
  intros Hpre. unfold load_strs. destruct (τ !! l) as [a|] eqn:Hl; [|done].
  by rewrite (prefix_lookup_Some _ _ _ _ Hl Hpre).
Qed.

Lemma load_paths_prefix τ τ' l ps :
  τ `prefix_of` τ' → load_paths τ l = Some ps → load_paths τ' l = Some ps.
Proof.
  intros Hpre. unfold load_paths. destruct (τ !! l) as [a|] eqn:Hl; [|done].
  rewrite (prefix_lookup_Some _ _ _ _ Hl Hpre). simpl.
  apply mapM_impl. intros ??. by apply load_cells_prefix.
Qed.

Lemma load_input_prefix τ τ' i ci :
  τ `prefix_of` τ' → load_input τ i = Some ci → load_input τ' i = Some ci.
Proof.
  intros Hpre. unfold load_input.
  destruct (load_cell τ (VRef (CircuitInputRef.knight_a_start i))) as [ka|] eqn:Hka; [|done].
  destruct (load_cell τ (VRef (CircuitInputRef.knight_b_start i))) as [kb|] eqn:Hkb; [|done].
  destruct (load_cell τ (VRef (CircuitInputRef.goal_a i))) as [ga|] eqn:Hga; [|done].
  destruct (load_cell τ (VRef (CircuitInputRef.goal_b i))) as [gb|] eqn:Hgb; [|done].
  destruct (load_cells τ (VRef (CircuitInputRef.walls i))) as [w|] eqn:Hw; [|done].
  destruct (load_cells τ (VRef (CircuitInputRef.static_tnt i))) as [t|] eqn:Ht; [|done].
  destruct (load_paths τ (CircuitInputRef.barrel_paths i)) as [bp|] eqn:Hbp; [|done].
  destruct (load_strs τ (CircuitInputRef.barrel_path_lengths i)) as [bpl|] eqn:Hbpl; [|done].
  destruct (load_strs τ (CircuitInputRef.moves i)) as [ms|] eqn:Hms; [|done].
  rewrite (load_cell_prefix _ _ _ _ Hpre Hka), (load_cell_prefix _ _ _ _ Hpre Hkb),
    (load_cell_prefix _ _ _ _ Hpre Hga), (load_cell_prefix _ _ _ _ Hpre Hgb),
    (load_cells_prefix _ _ _ _ Hpre Hw), (load_cells_prefix _ _ _ _ Hpre Ht),
    (load_paths_prefix _ _ _ _ Hpre Hbp), (load_strs_prefix _ _ _ _ Hpre Hbpl),
    (load_strs_prefix _ _ _ _ Hpre Hms).
  done.
Qed.

Lemma load_result_prefix τ τ' r c :
  τ `prefix_of` τ' → load_result τ r = Some c → load_result τ' r = Some c.
Proof.
  intros Hpre. destruct r as [i|e]; [|done]. simpl.
  destruct (load_input τ i) as [ci|] eqn:Hi; [|done].
  by rewrite (load_input_prefix _ _ _ _ Hpre Hi).
Qed.

Lemma load_puzzle_inv σ pr p :
  load_puzzle σ pr = Some p →
  load_array σ load_pos (PuzzleRef.walls pr) = Some (Puzzle.walls p) ∧
  load_array σ load_pos (PuzzleRef.static_tnt pr) = Some (Puzzle.static_tnt p) ∧
  load_array σ (load_barrel σ) (PuzzleRef.moving_barrels pr)
    = Some (Puzzle.moving_barrels p) ∧
  Puzzle.id p = PuzzleRef.id pr ∧
  Puzzle.grid_width p = PuzzleRef.grid_width pr ∧
  Puzzle.grid_height p = PuzzleRef.grid_height pr ∧
  Puzzle.knight_a_start p = PuzzleRef.knight_a_start pr ∧
  Puzzle.knight_b_start p = PuzzleRef.knight_b_start pr ∧
  Puzzle.goal_a p = PuzzleRef.goal_a pr ∧
  Puzzle.goal_b p = PuzzleRef.goal_b pr.
Proof.
  unfold load_puzzle.
  destruct (load_array σ load_pos (PuzzleRef.walls pr)) as [w|]; [|done].
  destruct (load_array σ load_pos (PuzzleRef.static_tnt pr)) as [t|]; [|done].
  destruct (load_array σ (load_barrel σ) (PuzzleRef.moving_barrels pr)) as [b|]; [|done].
  intros [= <-]. done.
Qed.

(** The two turns of the barrel loop, from the allocation of
    [barrel_paths] and [barrel_path_lengths]. *)
Lemma barrel_phase_spec {A} OOB barrels c σb a bs (k : loc → loc → HeapM A) τ Q :
  σb `prefix_of` τ →
  σb !! barrels = Some a →
  mapM (load_barrel σb) a = Some bs →
  τ !! OOB = Some (cell_val c) →
  (∀ τ', τ `prefix_of` τ' →
         load_paths τ' (length τ) = Some (barrel_loop c bs).1 →
         load_strs τ' (length (τ ++ [[]])) = Some (barrel_loop c bs).2 →
         wp (k (length τ) (length (τ ++ [[]]))) τ' Q) →
  wp (bp ← alloc []; bpl ← alloc [];
      barrel_slot_h OOB barrels bp bpl 0;;
      barrel_slot_h OOB barrels bp bpl 1;;
      k bp bpl) τ Q.
Proof.
  intros Hpre Hbarrels Hload HOOB Hk.
  assert (OOB < length τ) as HOOB_lt by (by eapply lookup_lt_Some).
  assert (length σb ≤ length τ) as Hσb by (by apply prefix_length).
  apply wp_bind, wp_alloc. apply wp_bind, wp_alloc.
  set (bp := length τ). set (bpl := length (τ ++ [[]])).
  set (τ2 := (τ ++ [[]]) ++ [[]]).
  assert (bpl = S bp) as Hbpl_eq.
  { unfold bpl, bp. rewrite length_app. simpl. lia. }
  assert (length τ2 = S (S (length τ))) as Hlen2.
  { unfold τ2. rewrite !length_app. simpl. lia. }
  assert (τ `prefix_of` τ2) as Hpre2.
  { unfold τ2. rewrite <- app_assoc. by eexists. }
  assert (τ2 !! bp = Some []) as Hbp2.
  { unfold τ2, bp. rewrite lookup_app_l by (rewrite length_app; simpl; lia).
    rewrite lookup_app_r by lia. by rewrite Nat.sub_diag. }
  assert (τ2 !! bpl = Some []) as Hbpl2.
  { unfold τ2, bpl. rewrite lookup_app_r by lia. by rewrite Nat.sub_diag. }
  apply wp_bind. eapply wp_mono.
  { apply (barrel_slot_h_spec OOB barrels bp bpl 0 c σb a bs τ2 [] []);
      try done; try (unfold bp; lia).
    - by etrans.
    - by eapply prefix_lookup_Some. }
  intros r τ3 (-> & Hlen3 & Hagree3 & Hbp3 & Hbpl3 & Hpath0).
  simpl in Hbp3, Hbpl3.
  assert (τ `prefix_of` τ3) as Hpre3.
  { apply agree_prefix; [lia|]. intros k' Hk'.
    rewrite Hagree3 by (unfold bp; lia). by apply prefix_agree. }
  apply wp_bind. eapply wp_mono.
  { apply (barrel_slot_h_spec OOB barrels bp bpl 1 c σb a bs τ3
             [VRef (length τ2)] [VStr (barrel_slot c bs 0).1]);
      try done; try (unfold bp; lia).
    - by etrans.
    - by eapply prefix_lookup_Some. }
  intros r τ4 (-> & Hlen4 & Hagree4 & Hbp4 & Hbpl4 & Hpath1).
  simpl in Hbp4, Hbpl4.
  apply (built_in_agree _ _ τ4) in Hpath0.
  2:{ intros k' Hk1 Hk2. apply Hagree4; lia. }
  apply built_in_load in Hpath0, Hpath1.
  assert (barrel_loop c bs
          = ([(barrel_slot c bs 0).2; (barrel_slot c bs 1).2],
             [(barrel_slot c bs 0).1; (barrel_slot c bs 1).1])) as Hloop.
  { unfold barrel_loop. simpl.
    destruct (barrel_slot c bs 0), (barrel_slot c bs 1). done. }
  apply Hk.
  - apply agree_prefix; [lia|]. intros k' Hk'.
    rewrite Hagree4 by (unfold bp; lia). by apply prefix_agree.
  - unfold load_paths. fold bp. rewrite Hbp4, Hloop. cbn [mbind option_bind fst].
    apply mapM_Some. repeat constructor; done.
  - unfold load_strs. fold bpl. rewrite Hbpl4, Hloop. done.
Qed.

(** [moves.map(m => String(m))] over an array of numbers. *)
Lemma moves_map_spec a ms τ :
  mapM load_num a = Some ms →
  wp (foldr (λ m rest, s ← val_String m; ss ← rest; mret (VStr s :: ss)) (mret []) a) τ
     (λ r τ', r = Normal (VStr <$> (js_String <$> ms)) ∧ τ' = τ).
Proof.
  rewrite mapM_Some. induction 1 as [|v n a ms Hv _ IH]; simpl.
  - by apply wp_ret.
  - destruct v; simplify_eq/=. apply wp_bind, wp_ret.
    apply wp_bind. eapply wp_mono; [exact IH|].
    intros r τ' [-> ->]. by apply wp_ret.
Qed.

Lemma load_strs_alloc τ ss : load_strs (τ ++ [VStr <$> ss]) (length τ) = Some ss.
Proof.
  unfold load_strs. rewrite lookup_app_r by lia. rewrite Nat.sub_diag. simpl.
  apply mapM_Some, Forall2_fmap_l. by apply Forall_Forall2_diag, Forall_true.
Qed.

(** [[String(o.x), String(o.y)]] for a square of the puzzle. *)
Lemma encode_prop_h_spec {A} o (k : loc → HeapM A) τ Q :
  match o with
  | Some p => ∀ τ', τ `prefix_of` τ' →
                    load_cell τ' (VRef (length τ)) = Some (encode p) →
                    wp (k (length τ)) τ' Q
  | None => Q (Throw (undefined_read "x")) τ
  end →
  wp (encode_prop_h o ≫= k) τ Q.
Proof.
  destruct o as [p|]; intros Hk; apply wp_bind; simpl; [|done].
  apply wp_alloc, Hk; [by eexists|].
  simpl. rewrite lookup_app_r by lia. by rewrite Nat.sub_diag.
Qed.

(** Carry what is known of a store [τ] over to a store it is a prefix of. *)
Ltac advance Hpre :=
  match type of Hpre with
  | ?τ `prefix_of` ?τ' =>
      repeat match goal with
      | Hfact : load_cell τ _ = Some _ |- _ => apply (load_cell_prefix τ τ' _ _ Hpre) in Hfact
      | Hfact : load_cells τ _ = Some _ |- _ => apply (load_cells_prefix τ τ' _ _ Hpre) in Hfact
      | Hfact : load_paths τ _ = Some _ |- _ => apply (load_paths_prefix τ τ' _ _ Hpre) in Hfact
      | Hfact : load_strs τ _ = Some _ |- _ => apply (load_strs_prefix τ τ' _ _ Hpre) in Hfact
      | Hfact : τ !! _ = Some _ |- _ => apply (λ Hl, prefix_lookup_Some _ _ _ _ Hl Hpre) in Hfact
      | Hfact : ?σ `prefix_of` τ |- _ => apply (λ Hp, PreOrder_Transitive _ _ _ Hp Hpre) in Hfact
      end
  end.

(** The normaliser on the store refines the pure one: from a store that
    holds the request, it runs without fault, leaves every array that was
    there as it was, and what it returns reads back as the pure result. *)
Lemma buildCircuitInput_h_refines σ mr pr t mv p :
  load_array σ load_num mr = Some mv →
  load_puzzle σ pr = Some p →
  wp (buildCircuitInput_h mr pr t) σ (λ r τ,
    σ `prefix_of` τ ∧ load_result τ r = Some (buildCircuitInput mv p t)).
Proof.
  intros Hmoves Hpuzzle.
  destruct (load_puzzle_inv σ pr p Hpuzzle)
    as (Hwalls & Htnt & Hbarrels & Hid & Hgw & Hgh & Hka & Hkb & Hga & Hgb).
  unfold buildCircuitInput_h, buildCircuitInput.
  rewrite Hid, Hgw, Hgh, Hka, Hkb, Hga, Hgb.
  set (c := (js_String (js_or (PuzzleRef.grid_width pr) 11),
             js_String (js_or (PuzzleRef.grid_height pr) 7)) : cell).
  apply wp_bind, wp_alloc.
  change [VStr c.1; VStr c.2] with (cell_val c).
  set (OOB := length σ). set (τ1 := σ ++ [cell_val c]).
  assert (σ `prefix_of` τ1) as Hσ by (by eexists).
  assert (τ1 !! OOB = Some (cell_val c)) as HOOB.
  { unfold τ1, OOB. rewrite lookup_app_r by lia. by rewrite Nat.sub_diag. }
  (* walls *)
  apply (array_phase_spec 26 OOB _ c (Puzzle.walls p) _ τ1); [done| |].
  { by apply (load_array_impl σ τ1 load_pos load_pos). }
  intros τ2 Hpre2 _ Hw. advance Hpre2.
  (* static_tnt *)
  apply (array_phase_spec 8 OOB _ c (Puzzle.static_tnt p)); [done| |].
  { by apply (load_array_impl σ τ2 load_pos load_pos). }
  intros τ3 Hpre3 _ Ht. advance Hpre3.
  (* barrels *)
  apply wp_bind.
  apply (wp_mono _ _ (λ r τ', ∃ barrels σb a,
    r = Normal barrels ∧ τ3 `prefix_of` τ' ∧ σb `prefix_of` τ' ∧
    σb !! barrels = Some a ∧
    mapM (load_barrel σb) a = Some (js_or_empty (Puzzle.moving_barrels p)))).
  { destruct (PuzzleRef.moving_barrels pr) as [l|]; simpl in Hbarrels.
    - destruct (σ !! l) as [a|] eqn:Hl; [|done]. simpl in Hbarrels.
      destruct (mapM (load_barrel σ) a) as [bs|] eqn:Hbs; [|done].
      injection Hbarrels as <-. apply wp_ret. by exists l, σ, a.
    - injection Hbarrels as <-. apply wp_alloc.
      exists (length τ3), (τ3 ++ [[]]), []. split; [done|]. split; [by eexists|].
      split; [done|]. split; [|done].
      rewrite lookup_app_r by lia. by rewrite Nat.sub_diag. }
  intros r τ4 (barrels & σb & a & -> & Hpre4 & Hσb & Ha & Hbs). advance Hpre4.
  set (bs := js_or_empty (Puzzle.moving_barrels p)) in *.
  destruct (barrel_loop c bs) as [paths lens] eqn:Hloop.
  apply (barrel_phase_spec OOB barrels c σb a bs); [done..|].
  rewrite Hloop. simpl. intros τ5 Hpre5 Hpaths Hlens. advance Hpre5.
  (* moves *)
  clear Hσb Ha Hbs.
  destruct mr as [l|]; simpl in Hmoves.
  2:{ injection Hmoves as <-. apply wp_bind. simpl. done. }
  destruct (σ !! l) as [ma|] eqn:Hl; [|done]. simpl in Hmoves.
  destruct (mapM load_num ma) as [ms|] eqn:Hms; [|done]. injection Hmoves as <-.
  apply wp_bind, wp_bind, (wp_read l ma).
  { apply (prefix_lookup_Some _ _ _ _ Hl). done. }
  apply wp_bind. eapply wp_mono; [by apply moves_map_spec|].
  intros r τ' [-> ->]. apply wp_alloc.
  pose proof (load_strs_alloc τ5 (js_String <$> ms)) as Hstrs.
  assert (τ5 `prefix_of` τ5 ++ [VStr <$> (js_String <$> ms)]) as Hpre6 by (by eexists).
  set (τ6 := τ5 ++ [VStr <$> (js_String <$> ms)]) in *. advance Hpre6.
  (* the four squares *)
  simpl.
  apply encode_prop_h_spec. destruct (PuzzleRef.knight_a_start pr) as [ka|]; [|done].
  intros τ7 Hpre7 Hcka. advance Hpre7.
  apply encode_prop_h_spec. destruct (PuzzleRef.knight_b_start pr) as [kb|]; [|done].
  intros τ8 Hpre8 Hckb. advance Hpre8.
  apply encode_prop_h_spec. destruct (PuzzleRef.goal_a pr) as [ga|]; [|done].
  intros τ9 Hpre9 Hcga. advance Hpre9.
  apply encode_prop_h_spec. destruct (PuzzleRef.goal_b pr) as [gb|]; [|done].
  intros τ10 Hpre10 Hcgb. advance Hpre10.
  apply wp_ret. split; [done|].
  unfold load_result, load_input. cbn [CircuitInputRef.knight_a_start
    CircuitInputRef.knight_b_start CircuitInputRef.goal_a CircuitInputRef.goal_b
    CircuitInputRef.walls CircuitInputRef.static_tnt CircuitInputRef.barrel_paths
    CircuitInputRef.barrel_path_lengths CircuitInputRef.moves
    CircuitInputRef.grid_width CircuitInputRef.grid_height
    CircuitInputRef.tick_count CircuitInputRef.puzzle_id].
  rewrite Hcka, Hckb, Hcga, Hcgb, Hw, Ht, Hpaths, Hlens, Hstrs. done.
Qed.

(** ** C8: the normaliser is deterministic and changes no argument *)

(** C8. From a store that holds the moves and the puzzle, two runs of the
    normaliser in a row both end without fault; what each returns reads
    back as the same value, the pure normaliser's; every array that was in
    the store before a run is in it unchanged after, so the moves and the
    puzzle read back as before. *)
Theorem buildCircuitInput_twice σ mr pr tick_count mv p :
  load_array σ load_num mr = Some mv →
  load_puzzle σ pr = Some p →
  ∃ r1 τ1 r2 τ2,
    buildCircuitInput_h mr pr tick_count σ = Some (r1, τ1) ∧
    buildCircuitInput_h mr pr tick_count τ1 = Some (r2, τ2) ∧
    load_result τ1 r1 = Some (buildCircuitInput mv p tick_count) ∧
    load_result τ2 r1 = Some (buildCircuitInput mv p tick_count) ∧
    load_result τ2 r2 = Some (buildCircuitInput mv p tick_count) ∧
    σ `prefix_of` τ1 ∧ τ1 `prefix_of` τ2 ∧
    load_array τ2 load_num mr = Some mv ∧
    load_puzzle τ2 pr = Some p.
Proof.
  intros Hmoves Hpuzzle.
  pose proof (buildCircuitInput_h_refines σ mr pr tick_count mv p Hmoves Hpuzzle) as H1.
  unfold wp in H1.
  destruct (buildCircuitInput_h mr pr tick_count σ) as [[r1 τ1]|] eqn:Hrun1; [|done].
  destruct H1 as [Hpre1 Hr1].
  assert (load_array τ1 load_num mr = Some mv) as Hmoves1.
  { by apply (load_array_impl σ τ1 load_num load_num). }
  assert (load_puzzle τ1 pr = Some p) as Hpuzzle1.
  { by apply (load_puzzle_prefix σ τ1). }
  pose proof (buildCircuitInput_h_refines τ1 mr pr tick_count mv p Hmoves1 Hpuzzle1) as H2.
  unfold wp in H2.
  destruct (buildCircuitInput_h mr pr tick_count τ1) as [[r2 τ2]|] eqn:Hrun2; [|done].
  destruct H2 as [Hpre2 Hr2].
  exists r1, τ1, r2, τ2. do 3 (split; [done|]).
  split; [by apply (load_result_prefix τ1 τ2)|]. do 3 (split; [done|]).
  split.
  - by apply (load_array_impl τ1 τ2 load_num load_num).
  - by apply (load_puzzle_prefix τ1 τ2).
Qed.

Lemma buildCircuitInput_twice_witness :
  ∃ r1 τ1 r2 τ2,
    buildCircuitInput_h (Some 0) small_puzzle_ref (Some 2%Z) small_store = Some (r1, τ1) ∧
    buildCircuitInput_h (Some 0) small_puzzle_ref (Some 2%Z) τ1 = Some (r2, τ2) ∧
    load_result τ1 r1 = Some (buildCircuitInput some_moves small_puzzle (Some 2%Z)) ∧
    load_result τ2 r1 = Some (buildCircuitInput some_moves small_puzzle (Some 2%Z)) ∧
    load_result τ2 r2 = Some (buildCircuitInput some_moves small_puzzle (Some 2%Z)) ∧
    small_store `prefix_of` τ1 ∧ τ1 `prefix_of` τ2 ∧
    load_array τ2 load_num (Some 0) = Some some_moves ∧
    load_puzzle τ2 small_puzzle_ref = Some small_puzzle.
Proof.
  apply (buildCircuitInput_twice small_store (Some 0) small_puzzle_ref (Some 2%Z)
           some_moves small_puzzle).
  - reflexivity.
  - reflexivity.
Defined.
(** ** The proving-key cache *)

Section WorkerFacts.
Context {Groth16Proof PublicSignals : Type}.
Implicit Types (E : env Groth16Proof PublicSignals) (w : world Groth16Proof PublicSignals).

Lemma cache_entry_open w name :
  caches w !! name = None →
  ∀ name' url,
    cache_entry (set_caches (<[name := ∅]> (caches w)) w) name' url
      = cache_entry w name' url.
Proof.
  intros Hnone name' url. unfold cache_entry. simpl.
  destruct (decide (name = name')) as [<-|Hne].
  - rewrite lookup_insert_eq, Hnone. done.
  - by rewrite lookup_insert_ne.
Qed.

Lemma cache_entry_put w cache url res c d :
  cache_entry (set_caches (<[cache := <[url := res]> d]> c) w) cache url = Some res.
Proof. unfold cache_entry. simpl. rewrite lookup_insert_eq. simpl. apply lookup_insert_eq. Qed.

(** What [fetchZkeyBytes] does to the world apart from the cache: it logs,
    lets the clock run, and leaves the outbox alone. *)
Lemma fetchZkeyBytes_outbox E w :
  outbox (fetchZkeyBytes E w).2 = outbox w.
Proof.
  unfold fetchZkeyBytes, caches_open, cache_match, fetch, cache_put, arrayBuffer,
    platform, console_log, throw, mbind, M_bind.
  repeat (simpl; case_match; simplify_eq/=); done.
Qed.

(** A call that finds the entry: no request goes out, the entries stay, and
    the result is the entry's body unless a platform call rejects. *)
Lemma fetchZkeyBytes_hit E w res :
  cache_entry w ZKEY_CACHE_NAME ZKEY_PATH = Some res →
  ∃ r w',
    fetchZkeyBytes E w = (r, w') ∧
    requests w' = requests w ∧
    same_entries w w' ∧
    (r = Normal (Response.body res) ∨
     ∃ i e, clock w ≤ i < clock w + 3 ∧ rejects E i = Some e ∧ r = Throw e) ∧
    (settles E (clock w) 3 → r = Normal (Response.body res)).
Proof.
  intros Hentry.
  assert (is_Some (caches w !! ZKEY_CACHE_NAME)) as [c Hc].
  { unfold cache_entry in Hentry. destruct (caches w !! ZKEY_CACHE_NAME); [eauto|done]. }
  unfold fetchZkeyBytes, caches_open, cache_match, arrayBuffer, platform,
    console_log, mbind, M_bind. simpl.
  destruct (rejects E (clock w)) as [e|] eqn:H0; simpl.
  { eexists _, _. split; [done|]. split; [done|]. split; [done|]. split.
    - right. exists (clock w), e. split; [lia|done].
    - intros Hs. rewrite Hs in H0 by lia. done. }
  rewrite Hc. simpl.
  destruct (rejects E (S (clock w))) as [e|] eqn:H1; simpl.
  { eexists _, _. split; [done|]. split; [done|]. split; [done|]. split.
    - right. exists (S (clock w)), e. split; [lia|done].
    - intros Hs. rewrite Hs in H1 by lia. done. }
  assert (cache_entry (tick (tick w)) ZKEY_CACHE_NAME ZKEY_PATH = Some res) as ->
    by done.
  simpl.
  destruct (rejects E (S (S (clock w)))) as [e|] eqn:H2; simpl.
  { eexists _, _. split; [done|]. split; [done|]. split; [done|]. split.
    - right. exists (S (S (clock w))), e. split; [lia|done].
    - intros Hs. rewrite Hs in H2 by lia. done. }
  eexists _, _. split; [done|]. split; [done|]. split; [done|]. split; [by left|done].
Qed.

(** A call that misses the entry and returns has made one request, got a
    success status, stored that response, and returned its body. *)
Lemma fetchZkeyBytes_miss_returns E w bs w' :
  cache_entry w ZKEY_CACHE_NAME ZKEY_PATH = None →
  fetchZkeyBytes E w = (Normal bs, w') →
  let res := network E (length (requests w)) ZKEY_PATH in
  Response.ok res = true ∧
  bs = Response.body res ∧
  requests w' = requests w ++ [ZKEY_PATH] ∧
  cache_entry w' ZKEY_CACHE_NAME ZKEY_PATH = Some res.
Proof.
  intros Hentry. unfold fetchZkeyBytes, caches_open, cache_match, fetch, cache_put,
    arrayBuffer, platform, console_log, throw, mbind, M_bind. simpl.
  destruct (rejects E (clock w)) as [e|]; simpl; [done|].
  set (w0 := match caches w !! ZKEY_CACHE_NAME with
             | Some _ => tick w
             | None => set_caches (<[ZKEY_CACHE_NAME:=∅]> (caches w)) (tick w)
             end).
  assert (cache_entry w0 ZKEY_CACHE_NAME ZKEY_PATH = None) as Hentry0.
  { unfold w0. destruct (caches w !! ZKEY_CACHE_NAME) eqn:Hc; [done|].
    by rewrite (cache_entry_open (tick w) ZKEY_CACHE_NAME Hc). }
  assert (requests w0 = requests w) as Hreq0.
  { unfold w0. by destruct (caches w !! ZKEY_CACHE_NAME). }
  destruct (rejects E (clock w0)) as [e|]; simpl; [done|].
  assert (cache_entry (tick w0) ZKEY_CACHE_NAME ZKEY_PATH = None) as -> by done.
  simpl. rewrite Hreq0.
  destruct (rejects E (S (clock w0))) as [e|]; simpl; [done|].
  destruct (Response.ok _) eqn:Hok; simpl; [|done].
  destruct (rejects E (S (S (clock w0)))) as [e|]; simpl; [done|].
  destruct (rejects E (S (S (S (clock w0))))) as [e|]; [intros [=]|].
  intros [= <- <-]. simpl. split; [done|]. split; [done|].
  split; [by rewrite Hreq0|]. apply cache_entry_put.
Qed.

(** A call that misses the entry and gets a failure status throws the
    error with the status and leaves the entries as they were. *)
Lemma fetchZkeyBytes_miss_fails E w :
  settles E (clock w) 3 →
  cache_entry w ZKEY_CACHE_NAME ZKEY_PATH = None →
  let res := network E (length (requests w)) ZKEY_PATH in
  Response.ok res = false →
  ∃ w',
    fetchZkeyBytes E w
      = (Throw (Error ("Failed to fetch zkey: " +:+ js_String (Response.status res)
                          +:+ " " +:+ Response.statusText res)), w') ∧
    same_entries w w' ∧
    requests w' = requests w ++ [ZKEY_PATH].
Proof.
  intros Hs Hentry res Hok. unfold fetchZkeyBytes, caches_open, cache_match, fetch,
    cache_put, arrayBuffer, platform, console_log, throw, mbind, M_bind. simpl.
  rewrite (Hs (clock w)) by lia. simpl.
  set (w0 := match caches w !! ZKEY_CACHE_NAME with
             | Some _ => tick w
             | None => set_caches (<[ZKEY_CACHE_NAME:=∅]> (caches w)) (tick w)
             end).
  assert (same_entries w w0) as Hentries0.
  { unfold w0. destruct (caches w !! ZKEY_CACHE_NAME) eqn:Hc; [done|].
    intros name url. by rewrite (cache_entry_open (tick w) ZKEY_CACHE_NAME Hc). }
  assert (requests w0 = requests w) as Hreq0.
  { unfold w0. by destruct (caches w !! ZKEY_CACHE_NAME). }
  assert (clock w0 = S (clock w)) as Hclock0.
  { unfold w0. by destruct (caches w !! ZKEY_CACHE_NAME). }
  rewrite Hclock0, (Hs (S (clock w))) by lia. simpl.
  assert (cache_entry (tick w0) ZKEY_CACHE_NAME ZKEY_PATH = None) as ->.
  { change (cache_entry w0 ZKEY_CACHE_NAME ZKEY_PATH = None). by rewrite Hentries0. }
  simpl. rewrite Hclock0, Hreq0, (Hs (S (S (clock w)))) by lia. simpl.
  fold res. rewrite Hok. simpl. eexists. split; [done|].
  split; [|simpl; by rewrite Hreq0].
  intros name url. by rewrite <- (Hentries0 name url).
Qed.

End WorkerFacts.

Section WorkerClaims.
Context {Groth16Proof PublicSignals : Type}.
Implicit Types (E : env Groth16Proof PublicSignals) (w : world Groth16Proof PublicSignals).

(** ** A run of the handler, stage by stage *)

(** What the normaliser throws is an engine's [TypeError]. *)
Lemma buildCircuitInput_throws moves puzzle tick_count e :
  buildCircuitInput moves puzzle tick_count = Throw e →
  e = undefined_read "map" ∨ e = undefined_read "x".
Proof.
  unfold buildCircuitInput. destruct (barrel_loop _ _) as [paths lens].
  destruct moves as [ms|]; simpl; [|intros [= <-]; by left].
  destruct (Puzzle.knight_a_start puzzle); simpl; [|intros [= <-]; by right].
  destruct (Puzzle.knight_b_start puzzle); simpl; [|intros [= <-]; by right].
  destruct (Puzzle.goal_a puzzle); simpl; [|intros [= <-]; by right].
  destruct (Puzzle.goal_b puzzle); simpl; [|intros [= <-]; by right].
  done.
Qed.

(** The [catch] block. *)
Lemma catch_block_caught E error w w0 :
  outbox w0 = outbox w →
  ∃ r w',
    (console_log ("[ProveWorker] Proof generation failed: " +:+ show error);;
     text ← lift (message_of error);
     postMessage (Failure (error_text text))) w0 = (r, w') ∧
    caught error r w w' ∧
    caches w' = caches w0 ∧ requests w' = requests w0 ∧ clock w' = clock w0.
Proof.
  intros Hout. unfold caught, console_log, lift, postMessage, mbind, M_bind.
  destruct (message_of error) as [text|e]; simpl; eexists _, _;
    (split; [done|]); simpl; by rewrite Hout.
Qed.

(** The [try] block up to the proof: it stops before the key retrieval,
    having made no platform call, or goes through [fetchZkeyBytes] and, if
    that returns, the prover. It posts nothing. *)
Lemma generate_run E (data : request) w :
  ∃ rg w0,
    generate E data w = (rg, w0) ∧
    outbox w0 = outbox w ∧
    ((∃ e,
        rg = Throw e ∧
        ((puzzle data = None ∧ e = undefined_read "id") ∨
         (∃ p, puzzle data = Some p ∧
               buildCircuitInput (moves data) p (tick_count data) = Throw e)) ∧
        caches w0 = caches w ∧ requests w0 = requests w ∧ clock w0 = clock w)
     ∨
     (∃ p input w1 rk w2,
        puzzle data = Some p ∧
        buildCircuitInput (moves data) p (tick_count data) = Normal input ∧
        caches w1 = caches w ∧ requests w1 = requests w ∧ clock w1 = clock w ∧
        fetchZkeyBytes E w1 = (rk, w2) ∧
        caches w0 = caches w2 ∧
        match rk with
        | Throw e => rg = Throw e ∧ requests w0 = requests w2 ∧ clock w0 = clock w2
        | Normal zkeyBytes =>
            clock w0 = S (clock w2) ∧
            requests w0
              = requests w2 ++ (fullProve E (clock w2) input WASM_PATH zkeyBytes).1 ∧
            rg = (fullProve E (clock w2) input WASM_PATH zkeyBytes).2
        end)).
Proof.
  unfold generate, groth16_fullProve, console_log, lift, Date_now, throw,
    mbind, M_bind, mret, M_ret. simpl.
  destruct (puzzle data) as [p|]; simpl.
  2:{ eexists _, _. split; [done|]. split; [done|]. left. eexists.
      split; [done|]. split; [by left|done]. }
  destruct (buildCircuitInput (moves data) p (tick_count data)) as [input|e] eqn:Hin;
    simpl.
  2:{ eexists _, _. split; [done|]. split; [done|]. left. exists e.
      split; [done|]. split; [right; by exists p|done]. }
  match goal with |- context [fetchZkeyBytes E ?w0] => set (w1 := w0) end.
  pose proof (fetchZkeyBytes_outbox E w1) as Hout.
  destruct (fetchZkeyBytes E w1) as [[zkeyBytes|e] w2] eqn:Hfetch; simpl in *.
  - destruct (fullProve E (clock w2) input WASM_PATH zkeyBytes) as [loads [result|e]] eqn:Hp;
      simpl.
    + eexists _, _. split; [done|]. simpl. split; [done|]. right.
      exists p, input, w1, (Normal zkeyBytes), w2. rewrite Hp. done.
    + eexists _, _. split; [done|]. simpl. split; [done|]. right.
      exists p, input, w1, (Normal zkeyBytes), w2. rewrite Hp. done.
  - eexists _, _. split; [done|]. simpl. split; [done|]. right.
    by exists p, input, w1, (Throw e), w2.
Qed.

(** A run of the handler on a request: on success it posts the proof, and
    any exception on the way goes to the [catch] block. *)
Lemma onmessage_run E (data : request) w :
  ∃ r w',
    onmessage E (Some data) w = (r, w') ∧
    ((∃ e,
        ((puzzle data = None ∧ e = undefined_read "id") ∨
         (∃ p, puzzle data = Some p ∧
               buildCircuitInput (moves data) p (tick_count data) = Throw e)) ∧
        caught e r w w' ∧
        caches w' = caches w ∧ requests w' = requests w ∧ clock w' = clock w)
     ∨
     (∃ p input w1 rk w2,
        puzzle data = Some p ∧
        buildCircuitInput (moves data) p (tick_count data) = Normal input ∧
        caches w1 = caches w ∧ requests w1 = requests w ∧ clock w1 = clock w ∧
        fetchZkeyBytes E w1 = (rk, w2) ∧
        caches w' = caches w2 ∧
        match rk with
        | Throw e => caught e r w w' ∧ requests w' = requests w2 ∧ clock w' = clock w2
        | Normal zkeyBytes =>
            clock w' = S (clock w2) ∧
            requests w'
              = requests w2 ++ (fullProve E (clock w2) input WASM_PATH zkeyBytes).1 ∧
            match (fullProve E (clock w2) input WASM_PATH zkeyBytes).2 with
            | Throw e => caught e r w w'
            | Normal (proof, publicSignals) =>
                r = Normal tt ∧ outbox w' = outbox w ++ [Success proof publicSignals]
            end
        end)).
Proof.
  destruct (generate_run E data w) as (rg & w0 & Hgen & Hout & Hcases).
  unfold onmessage, try_catch. unfold mbind at 1, M_bind at 1. rewrite Hgen.
  destruct rg as [[proof publicSignals]|e].
  - exists (Normal tt), (add_outbox (Success proof publicSignals) w0).
    split; [done|]. right.
    destruct Hcases as [(e & ? & _)|(p & input & w1 & rk & w2 & Hp & Hin & ? & ? & ? & Hfetch & ? & Hrk)];
      [done|].
    exists p, input, w1, rk, w2. do 6 (split; [done|]). split; [done|].
    destruct rk as [zkeyBytes|e]; [|by destruct Hrk].
    destruct Hrk as (? & ? & Hres). rewrite <- Hres. simpl. by rewrite Hout.
  - destruct (catch_block_caught E e w w0 Hout) as (r & w' & Hrun & Hcaught & Hc & Hr & Hk).
    exists r, w'. split; [exact Hrun|].
    destruct Hcases as [(e' & [= <-] & Hwhy & ? & ? & ?)|
      (p & input & w1 & rk & w2 & Hp & Hin & ? & ? & ? & Hfetch & ? & Hrk)].
    + left. exists e. split; [done|]. split; [done|]. repeat split; congruence.
    + right. exists p, input, w1, rk, w2. do 6 (split; [done|]). split; [congruence|].
      destruct rk as [zkeyBytes|e'].
      * destruct Hrk as (? & ? & Hres). rewrite <- Hres.
        split; [congruence|]. split; [congruence|done].
      * destruct Hrk as ([= <-] & ? & ?). repeat split; [done|congruence..].
Qed.

(** ** C5: a failed download *)

(** C5. When the cache has no entry for the key and the network answers
    with a status outside 200-299, [fetchZkeyBytes] throws an error whose
    message carries the status, and the cache holds the entries it held:
    none is written. *)
Theorem failed_download_writes_no_entry E w :
  settles E (clock w) 3 →
  cache_entry w ZKEY_CACHE_NAME ZKEY_PATH = None →
  Response.ok (network E (length (requests w)) ZKEY_PATH) = false →
  ∃ w',
    fetchZkeyBytes E w
      = (Throw (Error ("Failed to fetch zkey: "
                         +:+ js_String (Response.status
                                          (network E (length (requests w)) ZKEY_PATH))
                         +:+ " "
                         +:+ Response.statusText
                               (network E (length (requests w)) ZKEY_PATH))), w') ∧
    cache_entry w' ZKEY_CACHE_NAME ZKEY_PATH = None ∧
    ∀ name url, cache_entry w' name url = cache_entry w name url.
Proof.
  intros Hs Hentry Hok.
  destruct (fetchZkeyBytes_miss_fails E w Hs Hentry Hok) as (w' & Hrun & Hsame & _).
  exists w'. split; [done|]. split; [by rewrite Hsame|done].
Qed.

(** ** C6: the cached key *)

(** C6. When a call that found no entry returns, it has made one request
    and stored the response whose body it returns. From then on a call in
    any state that still holds that entry makes no request and keeps the
    entry; it returns the same bytes, unless the platform rejects one of
    its three calls, and then it throws that rejection. *)
Theorem cached_key_is_reused E w bs w1 :
  cache_entry w ZKEY_CACHE_NAME ZKEY_PATH = None →
  fetchZkeyBytes E w = (Normal bs, w1) →
  requests w1 = requests w ++ [ZKEY_PATH] ∧
  (∃ res, res = network E (length (requests w)) ZKEY_PATH ∧
          cache_entry w1 ZKEY_CACHE_NAME ZKEY_PATH = Some res ∧
          Response.body res = bs) ∧
  ∀ w2, cache_entry w2 ZKEY_CACHE_NAME ZKEY_PATH
          = cache_entry w1 ZKEY_CACHE_NAME ZKEY_PATH →
    ∃ r w2',
      fetchZkeyBytes E w2 = (r, w2') ∧
      requests w2' = requests w2 ∧
      (∀ name url, cache_entry w2' name url = cache_entry w2 name url) ∧
      (r = Normal bs ∨
       ∃ i e, clock w2 ≤ i < clock w2 + 3 ∧ rejects E i = Some e ∧ r = Throw e) ∧
      (settles E (clock w2) 3 → r = Normal bs).
Proof.
  intros Hmiss Hrun.
  destruct (fetchZkeyBytes_miss_returns E w bs w1 Hmiss Hrun) as (_ & -> & Hreq & Hentry).
  split; [done|]. split; [by eexists|].
  intros w2 Hsame. rewrite Hentry in Hsame.
  destruct (fetchZkeyBytes_hit E w2 _ Hsame) as (r & w2' & ? & ? & ? & ? & ?).
  by exists r, w2'.
Qed.

End WorkerClaims.

(** ** C4: the response of the handler *)

(** C4 fails on two requests. A message whose data is [undefined] gets no
    response: the destructuring throws before the [try], nothing is posted
    and the handler ends with that exception. And when the prover rejects
    with [undefined], after the normaliser and the key retrieval have
    returned, the [catch] block throws in its turn on [error.message]:
    nothing is posted either, and the handler ends with a [TypeError]. *)
Theorem onmessage_can_post_nothing :
  onmessage calm_env None fresh_world = (Throw cannot_destructure, fresh_world) ∧
  ∃ w',
    onmessage mute_env (Some small_request) fresh_world
      = (Throw (TypeError "Cannot read properties of undefined (reading 'message')"), w') ∧
    outbox w' = [] ∧
    requests w' = [ZKEY_PATH; WASM_PATH].
Proof. split; [reflexivity|]. eexists. vm_compute. done. Qed.

Lemma failed_download_writes_no_entry_witness :
  ∃ w',
    fetchZkeyBytes down_env fresh_world
      = (Throw (Error ("Failed to fetch zkey: "
                         +:+ js_String (Response.status
                               (network down_env (length (requests fresh_world)) ZKEY_PATH))
                         +:+ " "
                         +:+ Response.statusText
                               (network down_env (length (requests fresh_world)) ZKEY_PATH))),
         w') ∧
    cache_entry w' ZKEY_CACHE_NAME ZKEY_PATH = None ∧
    ∀ name url, cache_entry w' name url = cache_entry fresh_world name url.
Proof.
  apply (failed_download_writes_no_entry down_env fresh_world).
  - intros i _. reflexivity.
  - reflexivity.
  - reflexivity.
Defined.

Lemma cached_key_is_reused_witness :
  let w1 := (fetchZkeyBytes calm_env fresh_world).2 in
  let bs := Response.body served_key in
  requests w1 = requests fresh_world ++ [ZKEY_PATH] ∧
  (∃ res, res = network calm_env (length (requests fresh_world)) ZKEY_PATH ∧
          cache_entry w1 ZKEY_CACHE_NAME ZKEY_PATH = Some res ∧
          Response.body res = bs) ∧
  ∀ w2, cache_entry w2 ZKEY_CACHE_NAME ZKEY_PATH
          = cache_entry w1 ZKEY_CACHE_NAME ZKEY_PATH →
    ∃ r w2',
      fetchZkeyBytes calm_env w2 = (r, w2') ∧
      requests w2' = requests w2 ∧
      (∀ name url, cache_entry w2' name url = cache_entry w2 name url) ∧
      (r = Normal bs ∨
       ∃ i e, clock w2 ≤ i < clock w2 + 3 ∧ rejects calm_env i = Some e ∧ r = Throw e) ∧
      (settles calm_env (clock w2) 3 → r = Normal bs).
Proof.
  apply (cached_key_is_reused calm_env fresh_world).
  - reflexivity.
  - vm_compute. reflexivity.
Defined.

(** ** The worker on sample requests *)

(** One wall at (3, 4): it comes first, and 25 sentinels follow. *)
Example small_puzzle_walls :
  CircuitInput.walls <$> (match buildCircuitInput some_moves small_puzzle (Some 2%Z) with
                          | Normal input => Some input
                          | Throw _ => None
                          end)
    = Some (("3", "4") :: replicate 25 ("11", "7")).
Proof. reflexivity. Qed.

(** The barrel of [small_puzzle] and the dummy beside it. *)
Example small_puzzle_barrels :
  (λ input, (CircuitInput.barrel_path_lengths input,
             take 3 <$> CircuitInput.barrel_paths input))
    <$> (match buildCircuitInput some_moves small_puzzle (Some 2%Z) with
         | Normal input => Some input
         | Throw _ => None
         end)
    = Some (["2"; "1"],
            [[("1", "1"); ("2", "1"); ("11", "7")];
             [("11", "7"); ("11", "7"); ("11", "7")]]).
Proof. reflexivity. Qed.

(** A request without moves makes the normaliser throw. *)
Example no_moves_throws :
  buildCircuitInput None small_puzzle (Some 2%Z)
    = Throw (TypeError "Cannot read properties of undefined (reading 'map')").
Proof. reflexivity. Qed.

(** On the store, the run adds arrays after the five of the request and
    returns references to them. *)
Example small_store_run :
  (λ '(r, τ), (load_result τ r, take 5 τ, length τ))
    <$> buildCircuitInput_h (Some 0) small_puzzle_ref (Some 2%Z) small_store
    = Some (Some (buildCircuitInput some_moves small_puzzle (Some 2%Z)),
            small_store, 83).
Proof. vm_compute. reflexivity. Qed.

(** A first request downloads the key, the prover loads the circuit
    program, and the proof is posted; a second request that comes after
    that response gets a proof again without a second download of the key. *)
Example second_request_reuses_key :
  let w1 := (onmessage calm_env (Some small_request) fresh_world).2 in
  let w2 := (onmessage calm_env (Some small_request) w1).2 in
  outbox w1 = [Success tt tt] ∧ requests w1 = [ZKEY_PATH; WASM_PATH] ∧
  outbox w2 = [Success tt tt; Success tt tt] ∧
  requests w2 = [ZKEY_PATH; WASM_PATH; WASM_PATH].
Proof. vm_compute. done. Qed.

(** With the network down the response is the error, and nothing else. *)
Example network_down_response :
  outbox (onmessage down_env (Some small_request) fresh_world).2
    = [Failure "Failed to fetch zkey: 500 Internal Server Error"].
Proof. vm_compute. reflexivity. Qed.

(** A request without a puzzle is answered with the engine's error. *)
Example no_puzzle_response :
  outbox (onmessage calm_env (Some (mk_request some_moves None (Some 2%Z))) fresh_world).2
    = [Failure "Cannot read properties of undefined (reading 'id')"].
Proof. vm_compute. reflexivity. Qed.

(** Data that is a number has none of the three properties: the handler
    answers as for a request without a puzzle. *)
Example empty_request_response :
  onmessage calm_env (Some (mk_request None None None)) fresh_world
    = (Normal tt,
       mk_world ∅ []
         ["[ProveWorker] Starting proof generation...";
          "[ProveWorker] Tick count: undefined";
          "[ProveWorker] Proof generation failed: TypeError: Cannot read properties of undefined (reading 'id')"]
         [Failure "Cannot read properties of undefined (reading 'id')"] 0).
Proof. vm_compute. reflexivity. Qed.

(** ** More on the normaliser *)

(** ** X10: when the normaliser throws *)

(** X10. On a request of the data model, the normaliser throws exactly
    when the moves or one of the four squares is missing, and what it
    throws then is a [TypeError]; otherwise it returns. *)
Theorem normaliser_throws_iff_incomplete moves puzzle tick_count :
  match buildCircuitInput moves puzzle tick_count with
  | Normal _ => well_formed moves puzzle
  | Throw e => ¬ well_formed moves puzzle ∧ ∃ msg, e = TypeError msg
  end.
Proof.
  unfold buildCircuitInput, well_formed. destruct (barrel_loop _ _) as [paths lens].
  destruct moves as [ms|]; simpl.
  2:{ split; [|by eexists]. by intros [[? [=]] _]. }
  destruct (Puzzle.knight_a_start puzzle) as [ka|]; simpl.
  2:{ split; [|by eexists]. by intros (_ & [? [=]] & _). }
  destruct (Puzzle.knight_b_start puzzle) as [kb|]; simpl.
  2:{ split; [|by eexists]. by intros (_ & _ & [? [=]] & _). }
  destruct (Puzzle.goal_a puzzle) as [ga|]; simpl.
  2:{ split; [|by eexists]. by intros (_ & _ & _ & [? [=]] & _). }
  destruct (Puzzle.goal_b puzzle) as [gb|]; simpl.
  2:{ split; [|by eexists]. by intros (_ & _ & _ & _ & [? [=]]). }
  eauto 10.
Qed.

(** The rest of the result: the moves, the squares and the two numbers. *)
Lemma buildCircuitInput_scalars ms puzzle tick_count input :
  buildCircuitInput (Some ms) puzzle tick_count = Normal input →
  CircuitInput.moves input = js_String <$> ms ∧
  CircuitInput.tick_count input = js_String_opt tick_count ∧
  CircuitInput.puzzle_id input = js_String_opt (Puzzle.id puzzle).
Proof.
  unfold buildCircuitInput. destruct (barrel_loop _ _) as [paths lens]. simpl.
  destruct (Puzzle.knight_a_start puzzle); [|done].
  destruct (Puzzle.knight_b_start puzzle); [|done].
  destruct (Puzzle.goal_a puzzle); [|done].
  destruct (Puzzle.goal_b puzzle); [|done].
  simpl. intros [= <-]. done.
Qed.

(** ** X11: the moves go through as they are *)

(** X11. The normaliser neither pads nor cuts the move history: the moves
    of the result are as many as the request's, however many that is, each
    the decimal string of the move in the same place. *)
Theorem moves_pass_through ms puzzle tick_count :
  well_formed (Some ms) puzzle →
  ∃ input,
    buildCircuitInput (Some ms) puzzle tick_count = Normal input ∧
    length (CircuitInput.moves input) = length ms ∧
    ∀ i m, ms !! i = Some m → CircuitInput.moves input !! i = Some (js_String m).
Proof.
  intros Hwf.
  destruct (buildCircuitInput_returns (Some ms) puzzle tick_count Hwf) as [input Hin].
  exists input. split; [done|].
  destruct (buildCircuitInput_scalars _ _ _ _ Hin) as (-> & _).
  split; [by rewrite length_fmap|]. intros i m Hi. by rewrite list_lookup_fmap, Hi.
Qed.

(** ** X12: a missing tick count or puzzle id *)

(** X12. A missing tick count does not stop the normaliser, nor does a
    missing puzzle id: the field of the result is the string
    ["undefined"], for either of them whether or not the other is there. *)
Theorem missing_numbers_become_undefined ms puzzle tick_count :
  well_formed (Some ms) puzzle →
  ∃ input,
    buildCircuitInput (Some ms) puzzle tick_count = Normal input ∧
    (tick_count = None → CircuitInput.tick_count input = "undefined") ∧
    (Puzzle.id puzzle = None → CircuitInput.puzzle_id input = "undefined").
Proof.
  intros Hwf.
  destruct (buildCircuitInput_returns (Some ms) puzzle tick_count Hwf) as [input Hin].
  exists input. split; [done|].
  destruct (buildCircuitInput_scalars _ _ _ _ Hin) as (_ & -> & ->).
  split; by intros ->.
Qed.

(** ** X13: barrels after the second *)

Lemma barrel_slot_take OOB barrels b :
  b < 2 → barrel_slot OOB (take 2 barrels) b = barrel_slot OOB barrels b.
Proof.
  intros Hb. unfold barrel_slot. rewrite lookup_take_lt by done.
  rewrite length_take.
  destruct (decide (b < length barrels)) as [Hlt|Hge].
  - by rewrite !bool_decide_eq_true_2 by lia.
  - by rewrite !bool_decide_eq_false_2 by lia.
Qed.

(** X13. Barrels after the second have no effect: the normaliser returns
    the same on a puzzle and on that puzzle with only its first two
    barrels. *)
Theorem barrels_after_second_ignored moves walls static_tnt barrels puzzle tick_count :
  buildCircuitInput moves (with_obstacles walls static_tnt barrels puzzle) tick_count
  = buildCircuitInput moves
      (with_obstacles walls static_tnt (take 2 barrels) puzzle) tick_count.
Proof.
  unfold buildCircuitInput. simpl.
  by rewrite !barrel_loop_slots, !barrel_slot_take by lia.
Qed.

(** ** X14: a barrel with an empty path *)

(** X14. A barrel whose path is the empty array is not taken for a missing
    barrel: its slot records the length ["0"], not the dummy's ["1"],
    though its path is 16 sentinels like the dummy's. *)
Theorem empty_path_is_not_a_dummy moves puzzle tick_count b brl :
  well_formed moves puzzle →
  b < 2 →
  js_or_empty (Puzzle.moving_barrels puzzle) !! b = Some brl →
  Barrel.path brl = Some [] →
  ∃ input,
    buildCircuitInput moves puzzle tick_count = Normal input ∧
    CircuitInput.barrel_path_lengths input !! b = Some "0" ∧
    CircuitInput.barrel_paths input !! b = Some (replicate 16 (sentinel puzzle)).
Proof.
  intros Hwf Hb Hbrl Hpath.
  destruct (buildCircuitInput_returns moves puzzle tick_count Hwf) as [input Hin].
  exists input. split; [done|].
  destruct (buildCircuitInput_fields _ _ _ _ Hin) as (_ & _ & _ & _ & Hloop).
  rewrite barrel_loop_slots in Hloop. injection Hloop as -> ->.
  destruct b as [|[|b]]; [| |lia]; simpl;
    by rewrite (barrel_slot_real _ _ _ _ _ Hbrl Hpath).
Qed.

(** ** X15: more entries than the circuit has room for *)

(** X15. At or above a capacity nothing is dropped, moved or added: with 26
    walls or more the walls of the result are exactly, for each wall of the
    puzzle in order, the pair of the decimal strings of its [x] and its
    [y]; likewise 8 TNT or more, and a path of 16 steps or more in either
    of the two slots. *)
Theorem over_capacity_keeps_every_entry moves puzzle tick_count :
  well_formed moves puzzle →
  ∃ input,
    buildCircuitInput moves puzzle tick_count = Normal input ∧
    (∀ ws, Puzzle.walls puzzle = Some ws → 26 ≤ length ws →
           CircuitInput.walls input
             = (λ w, (js_String (Pos.x w), js_String (Pos.y w))) <$> ws) ∧
    (∀ tnt, Puzzle.static_tnt puzzle = Some tnt → 8 ≤ length tnt →
            CircuitInput.static_tnt input
              = (λ t, (js_String (Pos.x t), js_String (Pos.y t))) <$> tnt) ∧
    ∀ barrels b brl realPath,
      Puzzle.moving_barrels puzzle = Some barrels →
      b < 2 →
      barrels !! b = Some brl →
      Barrel.path brl = Some realPath →
      16 ≤ length realPath →
      CircuitInput.barrel_paths input !! b
        = Some ((λ pos, (js_String (Pos.x pos), js_String (Pos.y pos))) <$> realPath).
Proof.
  intros Hwf.
  destruct (buildCircuitInput_returns moves puzzle tick_count Hwf) as [input Hin].
  exists input. split; [done|].
  destruct (buildCircuitInput_fields _ _ _ _ Hin) as (_ & _ & -> & -> & Hloop).
  rewrite barrel_loop_slots in Hloop. injection Hloop as -> _.
  rewrite !padded_copy.
  split; [intros ws -> Hk; simpl; replace (26 - _) with 0 by lia; by rewrite app_nil_r|].
  split; [intros tnt -> Hj; simpl; replace (8 - _) with 0 by lia; by rewrite app_nil_r|].
  intros barrels b brl realPath -> Hb Hbrl Hpath Hn.
  destruct b as [|[|b]]; [| |lia]; simpl;
    rewrite (barrel_slot_real _ _ _ _ _ Hbrl Hpath); simpl;
    replace (16 - _) with 0 by lia; by rewrite app_nil_r.
Qed.

(** ** X16, X17: the sentinel and the real entries *)

Lemma js_String_inj n m : js_String n = js_String m → n = m.
Proof. unfold js_String. apply (inj pretty). Qed.

Lemma encode_inj p q : encode p = encode q → p = q.
Proof.
  destruct p as [px py], q as [qx qy]. unfold encode. simpl.
  intros [= Hx%js_String_inj Hy%js_String_inj]. by subst.
Qed.

Lemma encode_sentinel puzzle p :
  encode p = sentinel puzzle ↔
  Pos.x p = js_or (Puzzle.grid_width puzzle) 11 ∧
  Pos.y p = js_or (Puzzle.grid_height puzzle) 7.
Proof.
  unfold encode, sentinel. split.
  - intros [= Hx%js_String_inj Hy%js_String_inj]. done.
  - by intros [-> ->].
Qed.

(** X16. An entry of the puzzle is encoded as the sentinel exactly when it
    is the square just off the far corner of the grid, (width, height);
    hence no square of the grid is. *)
Theorem sentinel_is_one_square_off_grid puzzle p :
  (encode p = sentinel puzzle ↔
   Pos.x p = js_or (Puzzle.grid_width puzzle) 11 ∧
   Pos.y p = js_or (Puzzle.grid_height puzzle) 7) ∧
  (in_bounds puzzle p → encode p ≠ sentinel puzzle).
Proof.
  split; [apply encode_sentinel|].
  intros [Hx Hy] [Hx' _]%encode_sentinel. lia.
Qed.

(** Entries followed by padding: the entries can be told from the padding
    when none of them is the padding value. *)
Lemma app_replicate_inj {A} (l1 l2 : list A) n1 n2 s :
  s ∉ l1 → s ∉ l2 →
  l1 ++ replicate n1 s = l2 ++ replicate n2 s → l1 = l2.
Proof.
  revert l2. induction l1 as [|a l1 IH]; intros [|b l2] H1 H2 Heq; simpl in *.
  - done.
  - destruct n1; simplify_eq/=. set_solver.
  - destruct n2; simplify_eq/=. set_solver.
  - injection Heq as -> Heq. f_equal. apply IH; [set_solver..|done].
Qed.

Lemma encode_fmap_inj (ws1 ws2 : list Pos.t) :
  encode <$> ws1 = encode <$> ws2 → ws1 = ws2.
Proof.
  revert ws2. induction ws1 as [|w ws1 IH]; intros [|w' ws2]; try done.
  rewrite !fmap_cons. intros Heq.
  assert (encode w = encode w') as Hw%encode_inj by congruence.
  assert (encode <$> ws1 = encode <$> ws2) as Hws%IH by congruence.
  by subst.
Qed.

(** X17. The walls of the result tell the walls of the puzzle: when two
    puzzles with the same grid, with walls [ws1] and [ws2] (none for a
    puzzle without a [walls] property) that are all on the grid, are
    normalised to the same [walls], then [ws1] and [ws2] are the same walls
    in the same order. *)
Theorem walls_can_be_read_back moves1 moves2 puzzle1 puzzle2 tick1 tick2 input1 input2
    (ws1 ws2 : list Pos.t) :
  Puzzle.walls puzzle1 = Some ws1 ∨ (Puzzle.walls puzzle1 = None ∧ ws1 = []) →
  Puzzle.walls puzzle2 = Some ws2 ∨ (Puzzle.walls puzzle2 = None ∧ ws2 = []) →
  buildCircuitInput moves1 puzzle1 tick1 = Normal input1 →
  buildCircuitInput moves2 puzzle2 tick2 = Normal input2 →
  sentinel puzzle1 = sentinel puzzle2 →
  Forall (in_bounds puzzle1) ws1 →
  Forall (in_bounds puzzle2) ws2 →
  CircuitInput.walls input1 = CircuitInput.walls input2 →
  ws1 = ws2.
Proof.
  intros Hws1%js_or_empty_supplied Hws2%js_or_empty_supplied Hin1 Hin2 Hs Hb1 Hb2.
  destruct (buildCircuitInput_fields _ _ _ _ Hin1) as (_ & _ & -> & _).
  destruct (buildCircuitInput_fields _ _ _ _ Hin2) as (_ & _ & -> & _).
  rewrite Hws1, Hws2, !padded_copy, <- Hs. intros Heq.
  apply encode_fmap_inj. eapply app_replicate_inj; [| |exact Heq].
  - intros (w & Hw & Hin)%list_elem_of_fmap. rewrite Forall_forall in Hb1.
    destruct (Hb1 w Hin) as [Hx _]. symmetry in Hw.
    apply encode_sentinel in Hw as [Hx' _]. lia.
  - intros (w & Hw & Hin)%list_elem_of_fmap. rewrite Forall_forall in Hb2.
    destruct (Hb2 w Hin) as [Hx _]. symmetry in Hw. rewrite Hs in Hw.
    apply encode_sentinel in Hw as [Hx' _]. lia.
Qed.

(** ** What the normaliser builds on the store *)

Lemma wlp_ret {A} (a : A) σ Q : Q (Normal a) σ → wlp (mret a) σ Q.
Proof. done. Qed.

Lemma wlp_bind {A B} (m : HeapM A) (k : A → HeapM B) σ Q :
  wlp m σ (λ r σ', match r with
                   | Normal a => wlp (k a) σ' Q
                   | Throw e => Q (Throw e) σ'
                   end) →
  wlp (m ≫= k) σ Q.
Proof.
  unfold wlp, mbind, HeapM_bind. destruct (m σ) as [[[a|e] σ']|]; done.
Qed.

Lemma wlp_mono {A} (m : HeapM A) σ (Q Q' : completion A → store → Prop) :
  wlp m σ Q → (∀ r σ', Q r σ' → Q' r σ') → wlp m σ Q'.
Proof. unfold wlp. destruct (m σ) as [[r σ']|]; [auto | done]. Qed.

Lemma wlp_alloc a σ Q : Q (Normal (length σ)) (σ ++ [a]) → wlp (alloc a) σ Q.
Proof. done. Qed.

Lemma wlp_read l σ Q : (∀ a, σ !! l = Some a → Q (Normal a) σ) → wlp (read l) σ Q.
Proof. unfold wlp, read. destruct (σ !! l); [auto|done]. Qed.

Lemma wlp_push l v σ Q :
  (∀ a, σ !! l = Some a → Q (Normal tt) (<[l := a ++ [v]]> σ)) → wlp (push l v) σ Q.
Proof. unfold wlp, push. destruct (σ !! l); [auto|done]. Qed.

Lemma wlp_length_of l σ Q :
  (∀ a, σ !! l = Some a → Q (Normal (length a)) σ) → wlp (length_of l) σ Q.
Proof. intros HQ. apply wlp_bind, wlp_read. intros a Ha. by apply HQ. Qed.

(** A loop keeps what each of its turns keeps. *)
Lemma wlp_for_of_from (I : store → Prop) src body :
  (∀ v τ, I τ → wlp (body v) τ (λ _ τ', I τ')) →
  ∀ fuel i τ, I τ → wlp (for_of_from fuel src i body) τ (λ _ τ', I τ').
Proof.
  intros Hbody. induction fuel as [|fuel IH]; intros i τ HI; simpl;
    apply wlp_bind, wlp_read; intros a _; destruct (a !! i) as [v|]; try done.
  apply wlp_bind. eapply wlp_mono; [by apply Hbody|].
  intros [[]|e] τ' HI'; [by apply IH|done].
Qed.

Lemma wlp_for_of (I : store → Prop) src body τ :
  (∀ v τ, I τ → wlp (body v) τ (λ _ τ', I τ')) →
  I τ → wlp (for_of src body) τ (λ _ τ', I τ').
Proof.
  intros Hbody HI. apply wlp_bind, wlp_length_of. intros a _.
  by apply wlp_for_of_from.
Qed.

Lemma wlp_while_short (I : store → Prop) out cap body :
  (∀ τ, I τ → wlp body τ (λ _ τ', I τ')) →
  ∀ fuel τ, I τ → wlp (while_short fuel out cap body) τ (λ _ τ', I τ').
Proof.
  intros Hbody. induction fuel as [|fuel IH]; intros τ HI; simpl;
    apply wlp_bind, wlp_length_of; intros a _; case_bool_decide; try done.
  apply wlp_bind. eapply wlp_mono; [by apply Hbody|].
  intros [[]|e] τ' HI'; [by apply IH|done].
Qed.

(** *** The places of a store after an allocation and after a push *)

Lemma holds_alloc τ a l k r :
  ref_free a → holds (τ ++ [a]) l k r → holds τ l k r.
Proof.
  intros Hfree (a' & Hl & Hk). destruct (decide (l < length τ)) as [Hlt|Hge].
  - rewrite lookup_app_l in Hl by done. by exists a'.
  - rewrite lookup_app_r in Hl by lia.
    destruct (l - length τ) as [|d]; simpl in Hl; [|by destruct d].
    injection Hl as <-. by destruct (Hfree k r).
Qed.

Lemma holds_push τ l a v l' k r :
  τ !! l = Some a →
  holds (<[l := a ++ [v]]> τ) l' k r →
  holds τ l' k r ∨ (l' = l ∧ k = length a ∧ v = VRef r).
Proof.
  intros Hl (a' & Hl' & Hk). destruct (decide (l' = l)) as [->|Hne].
  - rewrite list_lookup_insert_eq in Hl' by (by eapply lookup_lt_Some).
    injection Hl' as <-. destruct (decide (k < length a)) as [Hlt|Hge].
    + rewrite lookup_app_l in Hk by done. left. by exists a.
    + rewrite lookup_app_r in Hk by lia.
      destruct (k - length a) as [|d] eqn:Hd; simpl in Hk; [|by destruct d].
      injection Hk as ->. right. split; [done|]. split; [lia|done].
  - rewrite list_lookup_insert_ne in Hl' by done. left. by exists a'.
Qed.

Lemma building_alloc n OOB S τ a :
  building n OOB S τ → ref_free a → building n OOB (length τ :: S) (τ ++ [a]).
Proof.
  intros (Hn & (o & Ho & Hofree) & Hdup & HS & HK & HJ) Ha.
  unfold building. rewrite length_app. simpl. split; [lia|]. split; [|split; [|split; [|split]]].
  - exists o. split; [|done]. rewrite lookup_app_l; [done|]. by eapply lookup_lt_Some.
  - constructor; [|done]. intros Hin. destruct (HS _ Hin) as [? _]. lia.
  - intros c [->|Hin]%elem_of_cons.
    + split; [lia|]. intros l k Hl Hh%holds_alloc; [|done].
      destruct (HK l k _ Hl Hh). lia.
    + destruct (HS c Hin) as [? Hun]. split; [lia|].
      intros l k Hl Hh%holds_alloc; [|done]. by apply (Hun l k).
  - intros l k r Hl Hh%holds_alloc; [|done]. destruct (HK l k r Hl Hh). lia.
  - intros l1 k1 l2 k2 r Hl1 Hl2 H1%holds_alloc H2%holds_alloc; try done.
    by apply (HJ l1 k1 l2 k2 r).
Qed.

Lemma building_drop n OOB c S τ : building n OOB (c :: S) τ → building n OOB S τ.
Proof.
  intros (Hn & Ho & Hdup & HS & HK & HJ). split; [done|]. split; [done|].
  split; [by apply NoDup_cons in Hdup as [_ ?]|]. split; [|done].
  intros c' Hin. apply HS. by right.
Qed.

Lemma building_push_ref n OOB c S τ l a :
  building n OOB (c :: S) τ → l ≠ OOB → τ !! l = Some a →
  building n OOB S (<[l := a ++ [VRef c]]> τ).
Proof.
  intros (Hn & (o & Ho & Hofree) & Hdup & HS & HK & HJ) Hne Hl.
  apply NoDup_cons in Hdup as [Hc Hdup].
  destruct (HS c) as [Hcr Hcun]; [by left|].
  unfold building. rewrite length_insert. split; [done|]. split; [|split; [done|split; [|split]]].
  - exists o. split; [|done]. by rewrite list_lookup_insert_ne.
  - intros c' Hin. destruct (HS c') as [? Hun]; [by right|]. split; [done|].
    intros l' k Hl' [Hh|(_ & _ & [= <-])]%(holds_push _ _ _ _ _ _ _ Hl); [|done].
    by apply (Hun l' k).
  - intros l' k r Hl' [Hh|(_ & _ & [= <-])]%(holds_push _ _ _ _ _ _ _ Hl); [|done].
    by apply (HK l' k r).
  - intros l1 k1 l2 k2 r Hl1 Hl2
      [H1|(E1 & F1 & G1)]%(holds_push _ _ _ _ _ _ _ Hl)
      [H2|(E2 & F2 & G2)]%(holds_push _ _ _ _ _ _ _ Hl).
    + by apply (HJ l1 k1 l2 k2 r).
    + injection G2 as <-. by destruct (Hcun l1 k1).
    + injection G1 as <-. by destruct (Hcun l2 k2).
    + by subst.
Qed.

Lemma building_push_str n OOB S τ l a s :
  building n OOB S τ → τ !! l = Some a → building n OOB S (<[l := a ++ [VStr s]]> τ).
Proof.
  intros (Hn & (o & Ho & Hofree) & Hdup & HS & HK & HJ) Hl.
  unfold building. rewrite length_insert. split; [done|]. split; [|split; [done|split; [|split]]].
  - destruct (decide (l = OOB)) as [->|Hne].
    + exists (a ++ [VStr s]). split.
      { apply list_lookup_insert_eq. by eapply lookup_lt_Some. }
      rewrite Ho in Hl. injection Hl as <-. intros k r Hk.
      apply lookup_app_Some in Hk as [Hk|[_ Hk]]; [by destruct (Hofree k r)|].
      destruct (k - length o) as [|d]; simpl in Hk; [done|by destruct d].
    + exists o. split; [|done]. by rewrite list_lookup_insert_ne.
  - intros c Hin. destruct (HS c Hin) as [? Hun]. split; [done|].
    intros l' k Hl' [Hh|(_ & _ & [=])]%(holds_push _ _ _ _ _ _ _ Hl).
    by apply (Hun l' k).
  - intros l' k r Hl' [Hh|(_ & _ & [=])]%(holds_push _ _ _ _ _ _ _ Hl).
    by apply (HK l' k r).
  - intros l1 k1 l2 k2 r Hl1 Hl2
      [H1|(_ & _ & [=])]%(holds_push _ _ _ _ _ _ _ Hl)
      [H2|(_ & _ & [=])]%(holds_push _ _ _ _ _ _ _ Hl).
    by apply (HJ l1 k1 l2 k2 r).
Qed.

Lemma building_OOB_lt n OOB S τ : building n OOB S τ → OOB < length τ.
Proof. intros (_ & (o & Ho & _) & _). by eapply lookup_lt_Some. Qed.

(** *** The statements of the function *)

Lemma ref_free_strings s1 s2 : ref_free [VStr s1; VStr s2].
Proof. intros [|[|k]] r; done. Qed.

Lemma ref_free_nil : ref_free [].
Proof. intros k r. done. Qed.

Lemma wlp_push_encoded_h n OOB S out w τ :
  out ≠ OOB → building n OOB S τ →
  wlp (push_encoded_h out w) τ (λ _ τ', building n OOB S τ').
Proof.
  intros Hne Hb. unfold push_encoded_h. apply wlp_bind, wlp_alloc, wlp_push.
  intros a Ha. apply (building_push_ref n OOB (length τ)); [|done..].
  apply building_alloc; [done|]. apply ref_free_strings.
Qed.

Lemma wlp_pad_to_h n OOB S cap out τ :
  out ≠ OOB → building n OOB S τ →
  wlp (pad_to_h cap OOB out) τ (λ _ τ', building n OOB S τ').
Proof.
  intros Hne Hb. unfold pad_to_h. apply wlp_bind, wlp_length_of. intros a _.
  apply (wlp_while_short (building n OOB S)); [|done].
  intros τ' Hb'. apply wlp_bind. unfold slice. apply wlp_bind, wlp_read.
  intros o Ho. apply wlp_alloc, wlp_push. intros a' Ha'.
  apply (building_push_ref n OOB (length τ')); [|done..].
  apply building_alloc; [done|].
  destruct Hb' as (_ & (o' & Ho' & Hfree) & _). rewrite Ho in Ho'. by injection Ho' as ->.
Qed.

Lemma wlp_copy_h n OOB S src out τ :
  out ≠ OOB → building n OOB S τ →
  wlp (copy_h src out) τ (λ _ τ', building n OOB S τ').
Proof.
  intros Hne Hb. unfold copy_h. apply wlp_bind.
  apply (wlp_mono _ _ (λ _ τ', building n OOB S τ')).
  - destruct src as [l|]; [by apply wlp_ret|]. apply wlp_alloc.
    apply (building_drop n OOB (length τ)), building_alloc; [done|apply ref_free_nil].
  - intros [l|e] τ' Hb'; [|done].
    apply (wlp_for_of (building n OOB S)); [|done].
    intros v τ'' Hb''. by apply wlp_push_encoded_h.
Qed.

Lemma wlp_barrel_slot_h n OOB S barrels bp bpl b τ :
  bp ≠ OOB → building n OOB S τ →
  wlp (barrel_slot_h OOB barrels bp bpl b) τ (λ _ τ', building n OOB S τ').
Proof.
  intros Hne Hb. unfold barrel_slot_h.
  pose proof (building_OOB_lt _ _ _ _ Hb) as HOOB.
  apply wlp_bind, wlp_alloc. set (path := length τ).
  assert (building n OOB (path :: S) (τ ++ [[]])) as Hb1.
  { apply building_alloc; [done|apply ref_free_nil]. }
  apply wlp_bind, wlp_length_of. intros a _.
  apply wlp_bind.
  apply (wlp_mono _ _ (λ r τ', τ' = τ ++ [[]] ∧ ∃ real, r = Normal real)).
  { case_bool_decide; [|apply wlp_ret; eauto].
    apply wlp_bind, wlp_read. intros a' _.
    destruct (a' !! b); [apply wlp_ret; eauto|done]. }
  intros ? ? [-> [real ->]].
  apply wlp_bind.
  apply (wlp_mono _ _ (λ _ τ', building n OOB (path :: S) τ')).
  { destruct real as [realPath|].
    - apply wlp_bind, wlp_length_of. intros a' _.
      apply wlp_bind, wlp_push. intros y Hy.
      apply (wlp_for_of (building n OOB (path :: S))).
      + intros v τ' Hb'. apply wlp_push_encoded_h; [unfold path; lia|done].
      + by apply building_push_str.
    - apply wlp_push. intros y Hy. by apply building_push_str. }
  intros [[]|e] τ2 Hb2; [|by apply (building_drop n OOB path)].
  apply wlp_bind.
  eapply wlp_mono; [apply (wlp_pad_to_h n OOB (path :: S)); [unfold path; lia|done]|].
  intros [[]|e] τ3 Hb3; [|by apply (building_drop n OOB path)].
  apply wlp_push. intros x Hx. by apply (building_push_ref n OOB path).
Qed.

Lemma wlp_moves_map a τ (I : store → Prop) :
  I τ →
  wlp (foldr (λ m rest, s ← val_String m; ss ← rest; mret (VStr s :: ss)) (mret []) a) τ
      (λ r τ', I τ' ∧ ∀ strs, r = Normal strs → ref_free strs).
Proof.
  intros HI. induction a as [|v a IH]; simpl.
  - apply wlp_ret. split; [done|]. intros strs [= <-]. apply ref_free_nil.
  - apply wlp_bind.
    apply (wlp_mono _ _ (λ r τ', τ' = τ ∧ ∃ s, r = Normal s)).
    { destruct v; simpl; try done; apply wlp_ret; eauto. }
    intros ? ? [-> [s ->]].
    apply wlp_bind. eapply wlp_mono; [exact IH|].
    intros [ss|e] τ' [HI' Hss]; [|split; [done|by intros]].
    apply wlp_ret. split; [done|]. intros strs [= <-] [|k] r; [done|].
    simpl. by apply (Hss ss).
Qed.

Lemma wlp_encode_prop_h n OOB S o τ :
  building n OOB S τ →
  wlp (encode_prop_h o) τ (λ r τ',
    match r with
    | Normal l => l = length τ ∧ building n OOB (l :: S) τ'
    | Throw _ => True
    end).
Proof.
  intros Hb. destruct o as [p|]; [|done]. simpl. apply wlp_alloc.
  split; [done|]. apply building_alloc; [done|apply ref_free_strings].
Qed.

(** Whenever a run returns, the arrays of the result are new, nothing new
    refers to them, and the new arrays share no array. *)
Lemma buildCircuitInput_h_building mr pr t σ :
  wlp (buildCircuitInput_h mr pr t) σ (λ r τ,
    ∀ i, r = Normal i → building (length σ) (length σ) (roots i) τ).
Proof.
  unfold buildCircuitInput_h. set (n := length σ).
  apply wlp_bind, wlp_alloc.
  assert (building n n [] (σ ++ [[VStr (js_String (js_or (PuzzleRef.grid_width pr) 11));
                                  VStr (js_String (js_or (PuzzleRef.grid_height pr) 7))]]))
    as Hb1.
  { unfold building. rewrite length_app. simpl. split; [lia|]. split; [|split; [constructor|]].
    - eexists. split; [|apply ref_free_strings].
      rewrite lookup_app_r; [|done]. by rewrite Nat.sub_diag.
    - split; [by intros c Hc%elem_of_nil|].
      assert (∀ l k r, n ≤ l → ¬ holds (σ ++ [[VStr (js_String (js_or (PuzzleRef.grid_width pr) 11));
                                  VStr (js_String (js_or (PuzzleRef.grid_height pr) 7))]]) l k r)
        as Hnone.
      { intros l k r Hl (a & Ha & Hk). rewrite lookup_app_r in Ha by done.
        destruct (l - length σ) as [|d]; simpl in Ha; [|by destruct d].
        injection Ha as <-. by apply ref_free_strings in Hk. }
      split; [intros l k r Hl Hh; by destruct (Hnone l k r)|].
      intros l1 k1 l2 k2 r Hl1 _ Hh. by destruct (Hnone l1 k1 r). }
  set (τ1 := σ ++ _) in *.
  (* walls *)
  apply wlp_bind, wlp_alloc. set (walls := length τ1).
  pose proof (building_OOB_lt _ _ _ _ Hb1) as HOOB1.
  assert (building n n [walls] (τ1 ++ [[]])) as Hb2.
  { apply building_alloc; [done|apply ref_free_nil]. }
  apply wlp_bind. eapply wlp_mono;
    [apply (wlp_copy_h n n [walls]); [unfold walls; lia|done]|].
  intros [[]|e] τ3 Hb3; [|done].
  apply wlp_bind. eapply wlp_mono;
    [apply (wlp_pad_to_h n n [walls]); [unfold walls; lia|done]|].
  intros [[]|e] τ4 Hb4; [|done].
  (* static_tnt *)
  apply wlp_bind, wlp_alloc. set (static_tnt := length τ4).
  pose proof (building_OOB_lt _ _ _ _ Hb4) as HOOB4.
  assert (building n n [static_tnt; walls] (τ4 ++ [[]])) as Hb5.
  { apply building_alloc; [done|apply ref_free_nil]. }
  apply wlp_bind. eapply wlp_mono;
    [apply (wlp_copy_h n n [static_tnt; walls]); [unfold static_tnt; lia|done]|].
  intros [[]|e] τ6 Hb6; [|done].
  apply wlp_bind. eapply wlp_mono;
    [apply (wlp_pad_to_h n n [static_tnt; walls]); [unfold static_tnt; lia|done]|].
  intros [[]|e] τ7 Hb7; [|done].
  (* barrels *)
  apply wlp_bind.
  apply (wlp_mono _ _ (λ _ τ', building n n [static_tnt; walls] τ')).
  { destruct (PuzzleRef.moving_barrels pr) as [l|]; [by apply wlp_ret|].
    apply wlp_alloc.
    apply (building_drop n n (length τ7)), building_alloc; [done|apply ref_free_nil]. }
  intros [barrels|e] τ8 Hb8; [|done].
  apply wlp_bind, wlp_alloc. set (bp := length τ8).
  pose proof (building_OOB_lt _ _ _ _ Hb8) as HOOB8.
  apply wlp_bind, wlp_alloc. set (bpl := length (τ8 ++ [[]])).
  assert (building n n [bpl; bp; static_tnt; walls] ((τ8 ++ [[]]) ++ [[]])) as Hb9.
  { apply building_alloc; [|apply ref_free_nil].
    apply building_alloc; [done|apply ref_free_nil]. }
  apply wlp_bind. eapply wlp_mono;
    [apply (wlp_barrel_slot_h n n [bpl; bp; static_tnt; walls]); [unfold bp; lia|done]|].
  intros [[]|e] τ10 Hb10; [|done].
  apply wlp_bind. eapply wlp_mono;
    [apply (wlp_barrel_slot_h n n [bpl; bp; static_tnt; walls]); [unfold bp; lia|done]|].
  intros [[]|e] τ11 Hb11; [|done].
  (* moves *)
  apply wlp_bind.
  apply (wlp_mono _ _ (λ r τ',
    match r with
    | Normal l => l = length τ11 ∧ building n n [l; bpl; bp; static_tnt; walls] τ'
    | Throw _ => True
    end)).
  { destruct mr as [l|]; [|done]. apply wlp_bind, wlp_read. intros a _.
    apply wlp_bind. eapply wlp_mono;
      [apply (wlp_moves_map a τ11 (λ τ', τ' = τ11)); done|].
    intros [strs|e] ? [-> Hfree]; [|done]. apply wlp_alloc. split; [done|].
    apply building_alloc; [done|by apply Hfree]. }
  intros [movesStr|e] τ12 Hb12; [|done]. destruct Hb12 as [_ Hb12].
  (* the four squares *)
  apply wlp_bind. eapply wlp_mono; [by apply wlp_encode_prop_h|].
  intros [ka|e] τ13 Hb13; [|done]. destruct Hb13 as [_ Hb13].
  apply wlp_bind. eapply wlp_mono; [by apply wlp_encode_prop_h|].
  intros [kb|e] τ14 Hb14; [|done]. destruct Hb14 as [_ Hb14].
  apply wlp_bind. eapply wlp_mono; [by apply wlp_encode_prop_h|].
  intros [ga|e] τ15 Hb15; [|done]. destruct Hb15 as [_ Hb15].
  apply wlp_bind. eapply wlp_mono; [by apply wlp_encode_prop_h|].
  intros [gb|e] τ16 Hb16; [|done]. destruct Hb16 as [_ Hb16].
  apply wlp_ret. intros i [= <-]. exact Hb16.
Qed.

(** A run on a store that holds the request returns when the pure
    normaliser does, with the arrays in the state [building] describes. *)
Lemma buildCircuitInput_h_returns_building σ mr pr t mv p input :
  load_array σ load_num mr = Some mv →
  load_puzzle σ pr = Some p →
  buildCircuitInput mv p t = Normal input →
  ∃ i τ,
    buildCircuitInput_h mr pr t σ = Some (Normal i, τ) ∧
    building (length σ) (length σ) (roots i) τ.
Proof.
  intros Hmoves Hpuzzle Hpure.
  pose proof (buildCircuitInput_h_refines σ mr pr t mv p Hmoves Hpuzzle) as Hwp.
  pose proof (buildCircuitInput_h_building mr pr t σ) as Hwlp.
  unfold wp in Hwp. unfold wlp in Hwlp.
  destruct (buildCircuitInput_h mr pr t σ) as [[[i|e] τ]|]; [| |done].
  - exists i, τ. split; [done|]. by apply Hwlp.
  - destruct Hwp as [_ Hr]. simpl in Hr. rewrite Hpure in Hr. done.
Qed.

(** ** X18: the result is made of new arrays *)

(** X18. No array of the request can be reached from the result: the nine
    arrays of the result were all created by the run, and so was every
    array that an array created by the run refers to. *)
Theorem result_reaches_no_request_array σ mr pr tick_count mv p input :
  load_array σ load_num mr = Some mv →
  load_puzzle σ pr = Some p →
  buildCircuitInput mv p tick_count = Normal input →
  ∃ i τ,
    buildCircuitInput_h mr pr tick_count σ = Some (Normal i, τ) ∧
    (∀ c, c ∈ roots i → length σ ≤ c < length τ) ∧
    (∀ l k r, length σ ≤ l → holds τ l k r → length σ ≤ r < length τ).
Proof.
  intros Hmoves Hpuzzle Hpure.
  destruct (buildCircuitInput_h_returns_building σ mr pr tick_count mv p input
              Hmoves Hpuzzle Hpure) as (i & τ & Hrun & _ & _ & _ & HS & HK & _).
  exists i, τ. split; [done|]. split; [|done].
  intros c Hc. by destruct (HS c Hc).
Qed.

Lemma result_reaches_no_request_array_witness :
  ∃ i τ,
    buildCircuitInput_h (Some 0) small_puzzle_ref (Some 2%Z) small_store
      = Some (Normal i, τ) ∧
    (∀ c, c ∈ roots i → length small_store ≤ c < length τ) ∧
    (∀ l k r, length small_store ≤ l → holds τ l k r →
              length small_store ≤ r < length τ).
Proof.
  apply (result_reaches_no_request_array small_store (Some 0) small_puzzle_ref
           (Some 2%Z) some_moves small_puzzle
           {| CircuitInput.grid_width := "11";
              CircuitInput.grid_height := "7";
              CircuitInput.knight_a_start := ("0", "0");
              CircuitInput.knight_b_start := ("10", "0");
              CircuitInput.goal_a := ("10", "6");
              CircuitInput.goal_b := ("0", "6");
              CircuitInput.walls := ("3", "4") :: replicate 25 ("11", "7");
              CircuitInput.static_tnt := ("5", "5") :: replicate 7 ("11", "7");
              CircuitInput.barrel_paths :=
                [("1", "1") :: ("2", "1") :: replicate 14 ("11", "7");
                 replicate 16 ("11", "7")];
              CircuitInput.barrel_path_lengths := ["2"; "1"];
              CircuitInput.tick_count := "2";
              CircuitInput.puzzle_id := "1";
              CircuitInput.moves := ["0"; "3"; "4"] |}).
  - reflexivity.
  - reflexivity.
  - reflexivity.
Defined.

(** ** X19: the entries of the result share no array *)

(** X19. The nine arrays of the result are nine different arrays, none of
    them an entry of another; and no array is an entry twice, in one array
    of the result or in two: each padded slot holds a copy of the sentinel
    of its own. *)
Theorem result_entries_share_no_array σ mr pr tick_count mv p input :
  load_array σ load_num mr = Some mv →
  load_puzzle σ pr = Some p →
  buildCircuitInput mv p tick_count = Normal input →
  ∃ i τ,
    buildCircuitInput_h mr pr tick_count σ = Some (Normal i, τ) ∧
    NoDup (roots i) ∧
    (∀ l k r, length σ ≤ l → holds τ l k r → r ∉ roots i) ∧
    (∀ l1 k1 l2 k2 r, length σ ≤ l1 → length σ ≤ l2 →
       holds τ l1 k1 r → holds τ l2 k2 r → l1 = l2 ∧ k1 = k2).
Proof.
  intros Hmoves Hpuzzle Hpure.
  destruct (buildCircuitInput_h_returns_building σ mr pr tick_count mv p input
              Hmoves Hpuzzle Hpure) as (i & τ & Hrun & _ & _ & Hdup & HS & _ & HJ).
  exists i, τ. split; [done|]. split; [done|]. split; [|done].
  intros l k r Hl Hh Hr. destruct (HS r Hr) as [_ Hun]. by apply (Hun l k).
Qed.

Lemma result_entries_share_no_array_witness :
  ∃ i τ,
    buildCircuitInput_h (Some 0) small_puzzle_ref (Some 2%Z) small_store
      = Some (Normal i, τ) ∧
    NoDup (roots i) ∧
    (∀ l k r, length small_store ≤ l → holds τ l k r → r ∉ roots i) ∧
    (∀ l1 k1 l2 k2 r, length small_store ≤ l1 → length small_store ≤ l2 →
       holds τ l1 k1 r → holds τ l2 k2 r → l1 = l2 ∧ k1 = k2).
Proof.
  apply (result_entries_share_no_array small_store (Some 0) small_puzzle_ref
           (Some 2%Z) some_moves small_puzzle
           {| CircuitInput.grid_width := "11";
              CircuitInput.grid_height := "7";
              CircuitInput.knight_a_start := ("0", "0");
              CircuitInput.knight_b_start := ("10", "0");
              CircuitInput.goal_a := ("10", "6");
              CircuitInput.goal_b := ("0", "6");
              CircuitInput.walls := ("3", "4") :: replicate 25 ("11", "7");
              CircuitInput.static_tnt := ("5", "5") :: replicate 7 ("11", "7");
              CircuitInput.barrel_paths :=
                [("1", "1") :: ("2", "1") :: replicate 14 ("11", "7");
                 replicate 16 ("11", "7")];
              CircuitInput.barrel_path_lengths := ["2"; "1"];
              CircuitInput.tick_count := "2";
              CircuitInput.puzzle_id := "1";
              CircuitInput.moves := ["0"; "3"; "4"] |}).
  - reflexivity.
  - reflexivity.
  - reflexivity.
Defined.

(** ** The proving-key retrieval, case by case *)

Section KeyCases.
Context {Groth16Proof PublicSignals : Type}.
Implicit Types (E : env Groth16Proof PublicSignals) (w : world Groth16Proof PublicSignals).

Lemma cache_entry_caches w w0 name url :
  caches w0 = caches w → cache_entry w0 name url = cache_entry w name url.
Proof. unfold cache_entry. by intros ->. Qed.

Lemma same_entries_other w w' : same_entries w w' → other_entries_kept w w'.
Proof. intros Hsame name url _. apply Hsame. Qed.

(** Storing the key's response changes no other entry. *)
Lemma cache_entry_put_other w res name url :
  (name, url) ≠ (ZKEY_CACHE_NAME, ZKEY_PATH) →
  cache_entry
    (set_caches (<[ZKEY_CACHE_NAME := <[ZKEY_PATH := res]>
                     (default ∅ (caches w !! ZKEY_CACHE_NAME))]> (caches w)) w)
    name url
  = cache_entry w name url.
Proof.
  intros Hne. unfold cache_entry. simpl.
  destruct (decide (name = ZKEY_CACHE_NAME)) as [->|Hname].
  - rewrite lookup_insert_eq. simpl.
    assert (url ≠ ZKEY_PATH) as Hurl by congruence.
    rewrite lookup_insert_ne by done.
    destruct (caches w !! ZKEY_CACHE_NAME); done.
  - by rewrite lookup_insert_ne.
Qed.

(** What a call that misses the entry can do, by the first platform call
    that rejects and the status of the response. *)
Lemma fetchZkeyBytes_miss_cases E w :
  cache_entry w ZKEY_CACHE_NAME ZKEY_PATH = None →
  let res := network E (length (requests w)) ZKEY_PATH in
  let n := clock w in
  ∃ r w',
    fetchZkeyBytes E w = (r, w') ∧
    ((∃ e, (rejects E n = Some e ∨ rejects E n = None ∧ rejects E (S n) = Some e) ∧
           r = Throw e ∧ requests w' = requests w ∧ same_entries w w')
     ∨
     (settles E n 2 ∧ requests w' = requests w ++ [ZKEY_PATH] ∧
      ((∃ e, rejects E (n + 2) = Some e ∧ r = Throw e ∧ same_entries w w')
       ∨ (rejects E (n + 2) = None ∧ Response.ok res = false ∧
          r = Throw (status_error res) ∧ same_entries w w')
       ∨ (rejects E (n + 2) = None ∧ Response.ok res = true ∧
          ∃ e, rejects E (n + 3) = Some e ∧ r = Throw e ∧ same_entries w w')
       ∨ (rejects E (n + 2) = None ∧ Response.ok res = true ∧
          rejects E (n + 3) = None ∧
          cache_entry w' ZKEY_CACHE_NAME ZKEY_PATH = Some res ∧
          other_entries_kept w w' ∧
          ((∃ e, rejects E (n + 4) = Some e ∧ r = Throw e)
           ∨ (rejects E (n + 4) = None ∧ r = Normal (Response.body res))))))).
Proof.
  intros Hentry res n.
  unfold fetchZkeyBytes, caches_open, cache_match, fetch, cache_put, arrayBuffer,
    platform, console_log, throw, mbind, M_bind. simpl. fold n.
  destruct (rejects E n) as [e|] eqn:H0; simpl.
  { eexists _, _. split; [done|]. left. exists e. split; [by left|]. done. }
  set (w0 := match caches w !! ZKEY_CACHE_NAME with
             | Some _ => tick w
             | None => set_caches (<[ZKEY_CACHE_NAME:=∅]> (caches w)) (tick w)
             end).
  assert (same_entries w w0) as Hentries0.
  { unfold w0. destruct (caches w !! ZKEY_CACHE_NAME) eqn:Hc; [done|].
    intros name url. by rewrite (cache_entry_open (tick w) ZKEY_CACHE_NAME Hc). }
  assert (requests w0 = requests w) as Hreq0.
  { unfold w0. by destruct (caches w !! ZKEY_CACHE_NAME). }
  assert (clock w0 = S n) as Hclock0.
  { unfold w0. by destruct (caches w !! ZKEY_CACHE_NAME). }
  rewrite Hclock0.
  destruct (rejects E (S n)) as [e|] eqn:H1; simpl.
  { eexists _, _. split; [done|]. left. exists e. split; [by right|]. split; [done|].
    split; [done|]. intros name url. apply (Hentries0 name url). }
  assert (settles E n 2) as Hs2.
  { intros i Hi. assert (i = n ∨ i = S n) as [->| ->] by lia; done. }
  assert (cache_entry (tick w0) ZKEY_CACHE_NAME ZKEY_PATH = None) as ->.
  { change (cache_entry w0 ZKEY_CACHE_NAME ZKEY_PATH = None). by rewrite Hentries0. }
  simpl. rewrite Hclock0, Hreq0. fold res.
  replace (n + 2) with (S (S n)) by lia. replace (n + 3) with (S (S (S n))) by lia.
  replace (n + 4) with (S (S (S (S n)))) by lia.
  destruct (rejects E (S (S n))) as [e|] eqn:H2; simpl.
  { eexists _, _. split; [done|]. right. split; [done|]. simpl. rewrite Hreq0.
    split; [done|]. left. exists e. split; [done|]. split; [done|].
    intros name url. apply (Hentries0 name url). }
  destruct (Response.ok res) eqn:Hok; simpl.
  2:{ eexists _, _. split; [done|]. right. split; [done|]. simpl. rewrite Hreq0.
      split; [done|]. right. left. do 3 (split; [done|]).
      intros name url. apply (Hentries0 name url). }
  rewrite Hclock0.
  destruct (rejects E (S (S (S n)))) as [e|] eqn:H3; simpl.
  { eexists _, _. split; [done|]. right. split; [done|]. simpl. rewrite Hreq0.
    split; [done|]. right. right. left. do 2 (split; [done|]). exists e.
    split; [done|]. split; [done|]. intros name url. apply (Hentries0 name url). }
  rewrite Hclock0.
  assert (∀ w1 : world Groth16Proof PublicSignals,
    caches w1 = <[ZKEY_CACHE_NAME := <[ZKEY_PATH := res]>
                    (default ∅ (caches w0 !! ZKEY_CACHE_NAME))]> (caches w0) →
    cache_entry w1 ZKEY_CACHE_NAME ZKEY_PATH = Some res ∧ other_entries_kept w w1)
    as Hstored.
  { intros w1 Hc. split.
    - unfold cache_entry. rewrite Hc, lookup_insert_eq. simpl. apply lookup_insert_eq.
    - intros name url Hne. rewrite <- (Hentries0 name url).
      rewrite <- (cache_entry_put_other w0 res name url Hne).
      by apply cache_entry_caches. }
  destruct (rejects E (S (S (S (S n))))) as [e|] eqn:H4; simpl.
  - eexists _, _. split; [done|]. right. split; [done|]. simpl. rewrite Hreq0.
    split; [done|]. right. right. right. do 3 (split; [done|]).
    destruct (Hstored (tick (add_console
      "[ProveWorker] zkey downloaded and stored in Cache API"
      (set_caches (<[ZKEY_CACHE_NAME := <[ZKEY_PATH := res]>
                      (default ∅ (caches w0 !! ZKEY_CACHE_NAME))]> (caches w0))
         (tick (tick (add_request ZKEY_PATH (add_console
            "[ProveWorker] zkey not cached — downloading from R2..." (tick w0))))))))
      eq_refl) as [? ?].
    split; [done|]. split; [done|]. left. by exists e.
  - eexists _, _. split; [done|]. right. split; [done|]. simpl. rewrite Hreq0.
    split; [done|]. right. right. right. do 3 (split; [done|]).
    destruct (Hstored (tick (add_console
      "[ProveWorker] zkey downloaded and stored in Cache API"
      (set_caches (<[ZKEY_CACHE_NAME := <[ZKEY_PATH := res]>
                      (default ∅ (caches w0 !! ZKEY_CACHE_NAME))]> (caches w0))
         (tick (tick (add_request ZKEY_PATH (add_console
            "[ProveWorker] zkey not cached — downloading from R2..." (tick w0))))))))
      eq_refl) as [? ?].
    split; [done|]. split; [done|]. right. done.
Qed.

End KeyCases.

Section KeyFacts.
Context {Groth16Proof PublicSignals : Type}.
Implicit Types (E : env Groth16Proof PublicSignals) (w : world Groth16Proof PublicSignals).

(** A call that returns has the key in the cache, with the bytes returned. *)
Lemma fetchZkeyBytes_returns_cached_aux E w bs w' :
  fetchZkeyBytes E w = (Normal bs, w') →
  ∃ res, cache_entry w' ZKEY_CACHE_NAME ZKEY_PATH = Some res ∧ Response.body res = bs.
Proof.
  intros Hrun.
  destruct (cache_entry w ZKEY_CACHE_NAME ZKEY_PATH) as [res|] eqn:Hentry.
  - destruct (fetchZkeyBytes_hit E w res Hentry) as (r & w1 & Hrun1 & _ & Hsame & Hr & _).
    rewrite Hrun in Hrun1. injection Hrun1 as <- <-.
    exists res. rewrite Hsame. split; [done|].
    destruct Hr as [[= ->]|(i & e & _ & _ & [=])]. done.
  - destruct (fetchZkeyBytes_miss_returns E w bs w' Hentry Hrun) as (_ & -> & _ & Hstored).
    by eexists.
Qed.

(** A call asks the network at most once, for the key. *)
Lemma fetchZkeyBytes_footprint_aux E w :
  requests (fetchZkeyBytes E w).2 = requests w ∨
  requests (fetchZkeyBytes E w).2 = requests w ++ [ZKEY_PATH].
Proof.
  destruct (cache_entry w ZKEY_CACHE_NAME ZKEY_PATH) as [res|] eqn:Hentry.
  - destruct (fetchZkeyBytes_hit E w res Hentry) as (r & w' & -> & Hreq & _). by left.
  - destruct (fetchZkeyBytes_miss_cases E w Hentry) as (r & w' & -> & Hcases). simpl.
    destruct Hcases as [(e & _ & _ & Hreq & _)|(_ & Hreq & _)]; [by left|by right].
Qed.

(** ** X1: what a retrieval can touch *)

(** X1. Whatever happens, [fetchZkeyBytes] leaves every cache entry other
    than the key's as it was, never replaces the key's entry once there is
    one, and asks the network at most once, for the key's URL. *)
Theorem fetchZkeyBytes_footprint E w :
  other_entries_kept w (fetchZkeyBytes E w).2 ∧
  (∀ res, cache_entry w ZKEY_CACHE_NAME ZKEY_PATH = Some res →
          cache_entry (fetchZkeyBytes E w).2 ZKEY_CACHE_NAME ZKEY_PATH = Some res ∧
          requests (fetchZkeyBytes E w).2 = requests w) ∧
  (requests (fetchZkeyBytes E w).2 = requests w ∨
   requests (fetchZkeyBytes E w).2 = requests w ++ [ZKEY_PATH]).
Proof.
  destruct (cache_entry w ZKEY_CACHE_NAME ZKEY_PATH) as [res|] eqn:Hentry.
  - destruct (fetchZkeyBytes_hit E w res Hentry) as (r & w' & -> & Hreq & Hsame & _).
    simpl. split; [by apply same_entries_other|]. split; [|by left].
    intros res' [= <-]. by rewrite Hsame.
  - destruct (fetchZkeyBytes_miss_cases E w Hentry) as (r & w' & -> & Hcases). simpl.
    split; [|split; [done|]].
    + destruct Hcases as [(e & _ & _ & _ & Hsame)|(_ & _ & Hcases)];
        [by apply same_entries_other|].
      destruct Hcases as [(e & _ & _ & Hsame)|[(_ & _ & _ & Hsame)|
        [(_ & _ & e & _ & _ & Hsame)|(_ & _ & _ & _ & Hother & _)]]];
        try done; by apply same_entries_other.
    + destruct Hcases as [(e & _ & _ & Hreq & _)|(_ & Hreq & _)]; [by left|by right].
Qed.

(** ** X2: a returned key is a cached key *)

(** X2. Whenever [fetchZkeyBytes] returns bytes, found or downloaded, the
    cache holds an entry for the key whose body is those bytes. *)
Theorem fetchZkeyBytes_returns_cached E w bs w' :
  fetchZkeyBytes E w = (Normal bs, w') →
  ∃ res, cache_entry w' ZKEY_CACHE_NAME ZKEY_PATH = Some res ∧ Response.body res = bs.
Proof. apply fetchZkeyBytes_returns_cached_aux. Qed.

(** ** X3: the network rejects *)

(** X3. When the cache has no entry and [fetch] itself rejects (no
    response at all), [fetchZkeyBytes] throws that rejection; the request
    has gone out, and no entry is written. *)
Theorem fetch_rejection_writes_no_entry E w e :
  cache_entry w ZKEY_CACHE_NAME ZKEY_PATH = None →
  settles E (clock w) 2 →
  rejects E (clock w + 2) = Some e →
  ∃ w',
    fetchZkeyBytes E w = (Throw e, w') ∧
    requests w' = requests w ++ [ZKEY_PATH] ∧
    ∀ name url, cache_entry w' name url = cache_entry w name url.
Proof.
  intros Hentry Hs He.
  destruct (fetchZkeyBytes_miss_cases E w Hentry) as (r & w' & Hrun & Hcases).
  exists w'.
  destruct Hcases as [(e' & [H0|[_ H1]] & _)|(_ & Hreq & Hcases)].
  { rewrite Hs in H0 by lia. done. }
  { rewrite Hs in H1 by lia. done. }
  destruct Hcases as [(e' & He' & -> & Hsame)|[(He' & _)|[(He' & _)|(He' & _)]]];
    rewrite He in He'; [|done..].
  injection He' as <-. done.
Qed.

(** ** X4: the cache rejects the download *)

(** X4. When the download succeeds but [cache.put] rejects, the call
    throws that rejection instead of returning the bytes it has, and no
    entry is written: the next call will ask the network again. *)
Theorem put_rejection_loses_download E w e :
  cache_entry w ZKEY_CACHE_NAME ZKEY_PATH = None →
  settles E (clock w) 3 →
  Response.ok (network E (length (requests w)) ZKEY_PATH) = true →
  rejects E (clock w + 3) = Some e →
  ∃ w',
    fetchZkeyBytes E w = (Throw e, w') ∧
    requests w' = requests w ++ [ZKEY_PATH] ∧
    cache_entry w' ZKEY_CACHE_NAME ZKEY_PATH = None ∧
    ∀ name url, cache_entry w' name url = cache_entry w name url.
Proof.
  intros Hentry Hs Hok He.
  destruct (fetchZkeyBytes_miss_cases E w Hentry) as (r & w' & Hrun & Hcases).
  exists w'.
  destruct Hcases as [(e' & [H0|[_ H1]] & _)|(_ & Hreq & Hcases)].
  { rewrite Hs in H0 by lia. done. }
  { rewrite Hs in H1 by lia. done. }
  destruct Hcases as [(e' & He' & _)|[(_ & Hok' & _)|
    [(_ & _ & e' & He' & -> & Hsame)|(_ & _ & He' & _)]]].
  - rewrite Hs in He' by lia. done.
  - rewrite Hok in Hok'. done.
  - rewrite He in He'. injection He' as <-. split; [done|]. split; [done|].
    split; [by rewrite Hsame|done].
  - rewrite He in He'. done.
Qed.

(** ** X5: the body cannot be read after the key is stored *)

(** X5. When the response is stored but reading its body rejects, the
    call throws, yet the entry is in the cache: a later call whose
    platform calls settle returns the key without asking the network. *)
Theorem read_rejection_keeps_entry E w e :
  cache_entry w ZKEY_CACHE_NAME ZKEY_PATH = None →
  settles E (clock w) 4 →
  Response.ok (network E (length (requests w)) ZKEY_PATH) = true →
  rejects E (clock w + 4) = Some e →
  ∃ w',
    fetchZkeyBytes E w = (Throw e, w') ∧
    cache_entry w' ZKEY_CACHE_NAME ZKEY_PATH
      = Some (network E (length (requests w)) ZKEY_PATH) ∧
    ∀ w2, cache_entry w2 ZKEY_CACHE_NAME ZKEY_PATH
            = cache_entry w' ZKEY_CACHE_NAME ZKEY_PATH →
          settles E (clock w2) 3 →
          ∃ w2',
            fetchZkeyBytes E w2
              = (Normal (Response.body (network E (length (requests w)) ZKEY_PATH)), w2') ∧
            requests w2' = requests w2.
Proof.
  intros Hentry Hs Hok He.
  destruct (fetchZkeyBytes_miss_cases E w Hentry) as (r & w' & Hrun & Hcases).
  exists w'.
  destruct Hcases as [(e' & [H0|[_ H1]] & _)|(_ & Hreq & Hcases)].
  { rewrite Hs in H0 by lia. done. }
  { rewrite Hs in H1 by lia. done. }
  destruct Hcases as [(e' & He' & _)|[(_ & Hok' & _)|
    [(_ & _ & e' & He' & _)|(_ & _ & _ & Hstored & _ & Hlast)]]].
  - rewrite Hs in He' by lia. done.
  - rewrite Hok in Hok'. done.
  - rewrite Hs in He' by lia. done.
  - destruct Hlast as [(e' & He' & ->)|[He' _]]; rewrite He in He'; [|done].
    injection He' as <-. split; [done|]. split; [done|].
    intros w2 Hsame Hs2. rewrite Hstored in Hsame.
    destruct (fetchZkeyBytes_hit E w2 _ Hsame) as (r2 & w2' & Hrun2 & Hreq2 & _ & _ & Hr2).
    exists w2'. rewrite Hrun2, (Hr2 Hs2). done.
Qed.

End KeyFacts.

Section HandlerFacts.
Context {Groth16Proof PublicSignals : Type}.
Implicit Types (E : env Groth16Proof PublicSignals) (w : world Groth16Proof PublicSignals).

Lemma error_text_nonempty text : error_text text ≠ "".
Proof. unfold error_text. by case_bool_decide. Qed.

(** What a run that ends in the [catch] block has posted: nothing, or one
    error with a text. *)
Lemma caught_posts error r w w' :
  caught error r w w' →
  ∃ ms, outbox w' = outbox w ++ ms ∧ length ms ≤ 1 ∧
        (Failure "" ∉ ms) ∧ (∀ proof publicSignals, Success proof publicSignals ∉ ms).
Proof.
  unfold caught. destruct (message_of error) as [text|e].
  - intros [_ Hout]. eexists. split; [exact Hout|]. split; [simpl; lia|].
    split.
    + intros [= Htext]%list_elem_of_singleton. by apply (error_text_nonempty text).
    + by intros proof publicSignals ?%list_elem_of_singleton.
  - intros [_ Hout]. exists []. rewrite app_nil_r. split; [done|]. split; [simpl; lia|].
    split; [|intros ??]; apply not_elem_of_nil.
Qed.

(** ** X6: no key retrieval for a request that cannot be normalised *)

(** X6. When the request has no puzzle, or the normaliser throws on it, the
    handler answers with the error without a single platform call: no
    request goes out, and the cache storage and the clock are as before. *)
Theorem bad_request_costs_no_io E (data : request) w :
  (∀ p, puzzle data = Some p →
        ∃ e, buildCircuitInput (moves data) p (tick_count data) = Throw e) →
  ∃ err w',
    onmessage E (Some data) w = (Normal tt, w') ∧
    outbox w' = outbox w ++ [Failure err] ∧
    requests w' = requests w ∧ caches w' = caches w ∧ clock w' = clock w.
Proof.
  intros Hbad.
  destruct (onmessage_run E data w) as (r & w' & Hrun & Hcases).
  destruct Hcases as [(e & Hwhy & Hcaught & ? & ? & ?)|
    (p & input & w1 & rk & w2 & Hp & Hin & _)].
  - assert (∃ prop, e = undefined_read prop) as [prop ->].
    { destruct Hwhy as [[_ ->]|(p & _ & [->| ->]%buildCircuitInput_throws)]; by eexists. }
    destruct Hcaught as [-> Hout]. by eexists _, w'.
  - destruct (Hbad p Hp) as [e He]. rewrite Hin in He. done.
Qed.

(** ** X7: the error text is never empty *)


(** ** X8: after a proof, the key is never downloaded again *)

(** X8. When the handler has posted a proof, the cache holds the key. From
    any state that still holds that entry, the handler's own code sends no
    request while it handles a further message, whatever the message and
    however the run ends: the requests that go out, if any, are those of
    the prover, which is given the path of the circuit program and the
    bytes of the cached key. *)
Theorem proof_means_key_cached E (data : request) w proof publicSignals :
  outbox (onmessage E (Some data) w).2 = outbox w ++ [Success proof publicSignals] →
  ∃ res,
    cache_entry (onmessage E (Some data) w).2 ZKEY_CACHE_NAME ZKEY_PATH = Some res ∧
    ∀ (data2 : option request) w2,
      cache_entry w2 ZKEY_CACHE_NAME ZKEY_PATH = Some res →
      requests (onmessage E data2 w2).2 = requests w2 ∨
      ∃ n input,
        requests (onmessage E data2 w2).2
          = requests w2 ++ (fullProve E n input WASM_PATH (Response.body res)).1.
Proof.
  destruct (onmessage_run E data w) as (r & w' & -> & Hcases). simpl.
  intros Hposted.
  assert (∀ e, ¬ caught e r w w') as Hnot.
  { intros e (ms & Hout & _ & _ & Hms)%caught_posts.
    rewrite Hout in Hposted. apply app_inv_head in Hposted as ->.
    apply (Hms proof publicSignals). by apply list_elem_of_singleton. }
  assert (∃ res, cache_entry w' ZKEY_CACHE_NAME ZKEY_PATH = Some res) as [res Hres].
  { destruct Hcases as [(e & _ & Hcaught & _)|
      (p & input & w1 & rk & w2 & _ & _ & _ & _ & _ & Hfetch & Hc & Hrk)];
      [by destruct (Hnot e)|].
    destruct rk as [zkeyBytes|e]; [|destruct Hrk as [Hcaught _]; by destruct (Hnot e)].
    destruct (fetchZkeyBytes_returns_cached_aux E w1 zkeyBytes w2 Hfetch) as (res & Hres & _).
    exists res. by rewrite (cache_entry_caches w2 w'). }
  exists res. split; [done|].
  intros [data2|] w2 Hentry; [|by left].
  destruct (onmessage_run E data2 w2) as (r2 & w2' & -> & Hcases2). simpl.
  destruct Hcases2 as [(_ & _ & _ & _ & ? & _)|
    (p & input & w1 & rk & w3 & _ & _ & Hc1 & Hreq1 & _ & Hfetch & _ & Hrk)];
    [by left|].
  assert (cache_entry w1 ZKEY_CACHE_NAME ZKEY_PATH = Some res) as Hentry1.
  { by rewrite (cache_entry_caches w2 w1). }
  destruct (fetchZkeyBytes_hit E w1 res Hentry1) as (rk' & w3' & Hfetch' & Hreq3 & _ & Hr & _).
  rewrite Hfetch in Hfetch'. injection Hfetch' as <- <-.
  destruct rk as [zkeyBytes|e].
  - destruct Hrk as (_ & Hreq' & _). right. exists (clock w3), input.
    assert (zkeyBytes = Response.body res) as <-.
    { destruct Hr as [[= ->]|(? & ? & _ & _ & [=])]. done. }
    rewrite Hreq'. congruence.
  - destruct Hrk as (_ & Hreq' & _). left. congruence.
Qed.

(** ** X9: one response, when every rejection is an error object *)




End HandlerFacts.

(** ** The further properties on sample requests *)

Lemma fetchZkeyBytes_returns_cached_witness :
  ∃ res,
    cache_entry (fetchZkeyBytes calm_env fresh_world).2 ZKEY_CACHE_NAME ZKEY_PATH
      = Some res ∧
    Response.body res = Response.body served_key.
Proof.
  apply (fetchZkeyBytes_returns_cached calm_env fresh_world).
  vm_compute. reflexivity.
Defined.

Lemma fetch_rejection_writes_no_entry_witness :
  ∃ w',
    fetchZkeyBytes (rejecting_at 2 (TypeError "Failed to fetch")) fresh_world
      = (Throw (TypeError "Failed to fetch"), w') ∧
    requests w' = requests fresh_world ++ [ZKEY_PATH] ∧
    ∀ name url, cache_entry w' name url = cache_entry fresh_world name url.
Proof.
  apply (fetch_rejection_writes_no_entry
           (rejecting_at 2 (TypeError "Failed to fetch")) fresh_world).
  - reflexivity.
  - intros i Hi. simpl in *. rewrite bool_decide_eq_false_2 by lia. reflexivity.
  - reflexivity.
Defined.

Lemma put_rejection_loses_download_witness :
  ∃ w',
    fetchZkeyBytes (rejecting_at 3 (Error "QuotaExceededError")) fresh_world
      = (Throw (Error "QuotaExceededError"), w') ∧
    requests w' = requests fresh_world ++ [ZKEY_PATH] ∧
    cache_entry w' ZKEY_CACHE_NAME ZKEY_PATH = None ∧
    ∀ name url, cache_entry w' name url = cache_entry fresh_world name url.
Proof.
  apply (put_rejection_loses_download
           (rejecting_at 3 (Error "QuotaExceededError")) fresh_world).
  - reflexivity.
  - intros i Hi. simpl in *. rewrite bool_decide_eq_false_2 by lia. reflexivity.
  - reflexivity.
  - reflexivity.
Defined.

Lemma read_rejection_keeps_entry_witness :
  ∃ w',
    fetchZkeyBytes (rejecting_at 4 (TypeError "network error")) fresh_world
      = (Throw (TypeError "network error"), w') ∧
    cache_entry w' ZKEY_CACHE_NAME ZKEY_PATH
      = Some (network (rejecting_at 4 (TypeError "network error"))
                (length (requests fresh_world)) ZKEY_PATH) ∧
    ∀ w2, cache_entry w2 ZKEY_CACHE_NAME ZKEY_PATH
            = cache_entry w' ZKEY_CACHE_NAME ZKEY_PATH →
          settles (rejecting_at 4 (TypeError "network error")) (clock w2) 3 →
          ∃ w2',
            fetchZkeyBytes (rejecting_at 4 (TypeError "network error")) w2
              = (Normal (Response.body
                           (network (rejecting_at 4 (TypeError "network error"))
                              (length (requests fresh_world)) ZKEY_PATH)), w2') ∧
            requests w2' = requests w2.
Proof.
  apply (read_rejection_keeps_entry
           (rejecting_at 4 (TypeError "network error")) fresh_world).
  - reflexivity.
  - intros i Hi. simpl in *. rewrite bool_decide_eq_false_2 by lia. reflexivity.
  - reflexivity.
  - reflexivity.
Defined.

Lemma bad_request_costs_no_io_witness :
  ∃ err w',
    onmessage calm_env (Some broken_request) fresh_world = (Normal tt, w') ∧
    outbox w' = outbox fresh_world ++ [Failure err] ∧
    requests w' = requests fresh_world ∧ caches w' = caches fresh_world ∧
    clock w' = clock fresh_world.
Proof.
  apply (bad_request_costs_no_io calm_env broken_request fresh_world).
  intros p Hp. injection Hp as <-. eexists. reflexivity.
Defined.


Lemma proof_means_key_cached_witness :
  ∃ res,
    cache_entry (onmessage calm_env (Some small_request) fresh_world).2
      ZKEY_CACHE_NAME ZKEY_PATH = Some res ∧
    ∀ (data2 : option request) w2,
      cache_entry w2 ZKEY_CACHE_NAME ZKEY_PATH = Some res →
      requests (onmessage calm_env data2 w2).2 = requests w2 ∨
      ∃ n input,
        requests (onmessage calm_env data2 w2).2
          = requests w2 ++ (fullProve calm_env n input WASM_PATH (Response.body res)).1.
Proof.
  apply (proof_means_key_cached calm_env small_request fresh_world tt tt).
  vm_compute. reflexivity.
Defined.

Lemma moves_pass_through_witness :
  ∃ input,
    buildCircuitInput (Some [0; 3; 4]%Z) small_puzzle (Some 2%Z) = Normal input ∧
    length (CircuitInput.moves input) = length [0; 3; 4]%Z ∧
    ∀ i m, [0; 3; 4]%Z !! i = Some m →
           CircuitInput.moves input !! i = Some (js_String m).
Proof.
  apply (moves_pass_through [0; 3; 4]%Z small_puzzle (Some 2%Z)).
  unfold well_formed. simpl. eauto 10.
Defined.

Lemma missing_numbers_become_undefined_witness :
  ∃ input,
    buildCircuitInput (Some [0; 3; 4]%Z) nameless_puzzle (Some 2%Z) = Normal input ∧
    CircuitInput.puzzle_id input = "undefined".
Proof.
  destruct (missing_numbers_become_undefined [0; 3; 4]%Z nameless_puzzle (Some 2%Z))
    as (input & Hin & _ & Hid).
  - unfold well_formed. simpl. eauto 10.
  - exists input. split; [exact Hin|]. apply Hid. reflexivity.
Defined.

Lemma empty_path_is_not_a_dummy_witness :
  ∃ input,
    buildCircuitInput some_moves still_barrel_puzzle (Some 2%Z) = Normal input ∧
    CircuitInput.barrel_path_lengths input !! 0 = Some "0" ∧
    CircuitInput.barrel_paths input !! 0
      = Some (replicate 16 (sentinel still_barrel_puzzle)).
Proof.
  apply (empty_path_is_not_a_dummy some_moves still_barrel_puzzle (Some 2%Z) 0
           (Barrel.mk (Some []))).
  - unfold well_formed. simpl. eauto 10.
  - lia.
  - reflexivity.
  - reflexivity.
Defined.

Lemma over_capacity_keeps_every_entry_witness :
  ∃ input,
    buildCircuitInput some_moves overfull_puzzle (Some 2%Z) = Normal input ∧
    CircuitInput.walls input = replicate 27 ("1", "1") ∧
    CircuitInput.static_tnt input = replicate 9 ("2", "2") ∧
    CircuitInput.barrel_paths input !! 0 = Some (replicate 17 ("3", "3")).
Proof.
  destruct (over_capacity_keeps_every_entry some_moves overfull_puzzle (Some 2%Z))
    as (input & Hin & Hwalls & Htnt & Hpaths).
  - unfold well_formed. simpl. eauto 10.
  - exists input. split; [exact Hin|].
    split; [apply (Hwalls (replicate 27 (Pos.mk 1 1))); [reflexivity|simpl; lia]|].
    split; [apply (Htnt (replicate 9 (Pos.mk 2 2))); [reflexivity|simpl; lia]|].
    apply (Hpaths [Barrel.mk (Some (replicate 17 (Pos.mk 3 3))); Barrel.mk None;
                   Barrel.mk None]
             0 (Barrel.mk (Some (replicate 17 (Pos.mk 3 3))))
             (replicate 17 (Pos.mk 3 3)));
      [reflexivity|lia|reflexivity|reflexivity|simpl; lia].
Defined.

Lemma walls_can_be_read_back_witness :
  Puzzle.walls small_puzzle = Puzzle.walls three_barrel_puzzle.
Proof.
  apply (f_equal Some).
  eapply (walls_can_be_read_back some_moves (Some [1]%Z) small_puzzle
            three_barrel_puzzle (Some 2%Z) None).
  - left. reflexivity.
  - left. reflexivity.
  - reflexivity.
  - reflexivity.
  - reflexivity.
  - repeat constructor; simpl; lia.
  - repeat constructor; simpl; lia.
  - reflexivity.
Defined.
